(** * apollo-cli: the TypeScript emitter, the [generate] driver and the
      [codegen:generate] command, embedded and verified.

    Sources embedded here:
    - packages/arc-apollo-codegen-typescript/src/codeGeneration.ts
    - packages/arc-apollo-cli/src/generate.ts
    - packages/arc-apollo-cli/src/commands/codegen/generate.ts

    The compiler core (arc-apollo-codegen-core), the language layer of the
    emitter (language.ts, printer.ts), Node's [fs] and [path] and the other
    backends are not among the sources.  They appear below either as fields
    of an interface record (the code is then verified for every
    implementation) or, where a claim is about them, as a definition
    modelled from the specification. *)

From Stdlib Require Import Ascii String Lia.
From stdpp Require Import base strings list gmap.

Local Open Scope string_scope.
Local Open Scope list_scope.

Set Warnings "-register-all".

(* ===================================================================== *)
(** * JavaScript helpers *)
(* ===================================================================== *)

Module JS.

(** A JavaScript exception, identified by its message. *)
Inductive Exn : Type :=
| Error (message : string)
| TypeError (message : string).

(** The result of a call that may throw. *)
Inductive Res (A : Type) : Type :=
| Ok (a : A)
| Throw (e : Exn).
Arguments Ok {A} a.
Arguments Throw {A} e.

(** Truthiness of a string: every string but the empty one. *)
Definition truthy (s : string) : bool :=
  match s with
  | EmptyString => false
  | String _ _ => true
  end.

(** [a || b] on strings. *)
Definition or (a b : string) : string := if truthy a then a else b.

(** Truthiness of [string | undefined]. *)
Definition truthy_opt (o : option string) : bool :=
  match o with
  | Some s => truthy s
  | None => false
  end.

(** Truthiness of [boolean | undefined]. *)
Definition truthy_bool (o : option bool) : bool :=
  match o with
  | Some b => b
  | None => false
  end.

(** [s.split(c)] for a one-character separator: the segments between the
    occurrences of [c]; never empty. *)
Fixpoint split (c : ascii) (s : string) : list string :=
  match s with
  | EmptyString => [EmptyString]
  | String a s' =>
      if Ascii.eqb a c then EmptyString :: split c s'
      else match split c s' with
           | seg :: segs => String a seg :: segs
           | [] => [String a EmptyString]
           end
  end.

(** [xs.join(sep)]. *)
Definition join (sep : string) (xs : list string) : string :=
  String.concat sep xs.

(** [xs.reverse()[0]]: [undefined] on the empty array. *)
Definition reverse_head {A} (xs : list A) : option A := head (rev xs).

End JS.

Import JS.

(* ===================================================================== *)
(** * The intermediate representation (arc-apollo-codegen-core/lib/compiler)

    Only the declarations are used by the sources; the records below carry
    the properties the sources read. *)
(* ===================================================================== *)

(** A concrete object type of the schema.  [toString()] of a named GraphQL
    type is its name, and a schema has one type per name. *)
Record GraphQLObjectType : Type := ObjectType { objectTypeName : string }.

#[global] Instance GraphQLObjectType_eq_dec : EqDecision GraphQLObjectType.
Proof. solve_decision. Defined.

Definition toString (t : GraphQLObjectType) : string := objectTypeName t.

(** The schema types the emitter tells apart ([instanceof]) or passes on. *)
Inductive GraphQLType : Type :=
| GraphQLScalarType (name : string)
| GraphQLEnumType (name : string)
| GraphQLInputObjectType (name : string)
| GraphQLObject (t : GraphQLObjectType)
| GraphQLInterfaceType (name : string)
| GraphQLUnionType (name : string)
| GraphQLList (ofType : GraphQLType)
| GraphQLNonNull (ofType : GraphQLType).

#[global] Instance GraphQLType_eq_dec : EqDecision GraphQLType.
Proof. solve_decision. Defined.

(** Selections, fields and selection sets refer to each other. *)
Inductive Selection : Type :=
| FieldSelection (f : Field)
| TypeCondition (type : GraphQLType) (selectionSet : SelectionSet)
| FragmentSpread (fragmentName : string) (selectionSet : SelectionSet)
with Field : Type :=
| mkField (name : string) (alias : option string) (description : option string)
          (type : GraphQLType) (selectionSet : option SelectionSet)
with SelectionSet : Type :=
| mkSelectionSet (possibleTypes : list GraphQLObjectType)
                 (selections : list Selection).

Module Field.
Definition name (f : Field) : string :=
  let '(mkField n _ _ _ _) := f in n.
Definition alias (f : Field) : option string :=
  let '(mkField _ a _ _ _) := f in a.
Definition description (f : Field) : option string :=
  let '(mkField _ _ d _ _) := f in d.
Definition type (f : Field) : GraphQLType :=
  let '(mkField _ _ _ t _) := f in t.
Definition selectionSet (f : Field) : option SelectionSet :=
  let '(mkField _ _ _ _ s) := f in s.
End Field.

Module SelectionSet.
Definition possibleTypes (s : SelectionSet) : list GraphQLObjectType :=
  let '(mkSelectionSet p _) := s in p.
Definition selections (s : SelectionSet) : list Selection :=
  let '(mkSelectionSet _ l) := s in l.
End SelectionSet.

(** A variant is itself a selection set: the concrete types of one shape
    and the selections that apply to them. *)
Record Variant : Type := mkVariant {
  variant_possibleTypes : list GraphQLObjectType;
  variant_selections : list Selection
}.

Record TypeCase : Type := mkTypeCase {
  exhaustiveVariants : list Variant
}.

Record Variable_ : Type := mkVariable {
  variable_name : string;
  variable_type : GraphQLType
}.

Record Operation : Type := mkOperation {
  operationType : string;
  operationName : string;
  variables : list Variable_;
  operation_selectionSet : SelectionSet;
  operation_filePath : string;
  operation_source : string;
  operationId : option string
}.

Record Fragment : Type := mkFragment {
  fragmentName : string;
  fragment_selectionSet : SelectionSet;
  fragment_filePath : string
}.

(** The options object handed to [generate]; flags that were not given are
    [undefined]. *)
Record GenerationOptions : Type := mkOptions {
  passthroughCustomScalars : bool;
  customScalarsPrefix : string;
  addTypename : option bool;
  namespace : option string;
  operationIdsPath : option string;
  generateOperationIds : bool;
  mergeInFieldsFromFragmentSpreads : option bool;
  useFlowExactObjects : option bool;
  useFlowReadOnlyTypes : option bool;
  supportArcBlockSDK : option bool
}.

Definition set_addTypename (b : bool) (o : GenerationOptions) : GenerationOptions :=
  {| passthroughCustomScalars := passthroughCustomScalars o;
     customScalarsPrefix := customScalarsPrefix o;
     addTypename := Some b;
     namespace := namespace o;
     operationIdsPath := operationIdsPath o;
     generateOperationIds := generateOperationIds o;
     mergeInFieldsFromFragmentSpreads := mergeInFieldsFromFragmentSpreads o;
     useFlowExactObjects := useFlowExactObjects o;
     useFlowReadOnlyTypes := useFlowReadOnlyTypes o;
     supportArcBlockSDK := supportArcBlockSDK o |}.

(** [operations] and [fragments] are objects used as maps; [Object.values]
    walks them in insertion order, so they are kept as association lists. *)
Record CompilerContext : Type := mkContext {
  operations : list (string * Operation);
  fragments : list (string * Fragment);
  typesUsed : list GraphQLType;
  options : GenerationOptions
}.

Definition Object_values {K V} (o : list (K * V)) : list V := map snd o.
Definition Object_keys {K V} (o : list (K * V)) : list K := map fst o.

(* ===================================================================== *)
(** * The compiler core consumed by the emitter

    [typeCaseForSelectionSet] and [collectAndMergeFields] live in
    arc-apollo-codegen-core/lib/compiler/visitors.  The emitter is verified
    against this interface; [VariantEngine] and [FieldMergeEngine] below
    give the implementation the specification describes. *)
(* ===================================================================== *)

Class CoreVisitors : Type := {
  typeCaseForSelectionSet : SelectionSet -> option bool -> Res TypeCase;
  collectAndMergeFields : option Variant -> option bool -> Res (list Field)
}.

Module VariantEngine.

(** The guard of a selection: the concrete types it is restricted to
    ([None] for a plain field, which applies to every type). *)
Definition guard (s : Selection) : option (list GraphQLObjectType) :=
  match s with
  | FieldSelection _ => None
  | TypeCondition _ sel => Some (SelectionSet.possibleTypes sel)
  | FragmentSpread _ sel => Some (SelectionSet.possibleTypes sel)
  end.

(** Does the selection apply to the concrete type [t]? *)
Definition applies (t : GraphQLObjectType) (s : Selection) : bool :=
  match guard s with
  | None => true
  | Some pts => bool_decide (t ∈ pts)
  end.

(** The identities of the selections that apply to [t]: a selection is
    identified by its position, nested ones by the path of positions
    leading to them.  Positions are visited in source order, so the list
    comes out sorted. *)
Fixpoint applicableIds (t : GraphQLObjectType) (path : list nat)
    (s : Selection) {struct s} : list (list nat) :=
  match s with
  | FieldSelection _ => [path]
  | TypeCondition _ (mkSelectionSet pts sels)
  | FragmentSpread _ (mkSelectionSet pts sels) =>
      if bool_decide (t ∈ pts) then
        path ::
        (fix inner (i : nat) (l : list Selection) {struct l} : list (list nat) :=
           match l with
           | [] => []
           | s' :: l' => applicableIds t (path ++ [i]) s' ++ inner (S i) l'
           end) 0 sels
      else []
  end.

Fixpoint keyFrom (t : GraphQLObjectType) (i : nat) (sels : list Selection)
    : list (list nat) :=
  match sels with
  | [] => []
  | s :: sels' => applicableIds t [i] s ++ keyFrom t (S i) sels'
  end.

(** Modelled from the spec: part of [typeCaseForSelectionSet], which is
    not among the sources.  The key of a concrete type in step 4 of the
    type-case computation of section 4.2: the sorted list of the identities
    of the selections applicable to it. *)
Definition key (sel : SelectionSet) (t : GraphQLObjectType) : list (list nat) :=
  keyFrom t 0 (SelectionSet.selections sel).

Definition Group : Type := list (list nat) * list GraphQLObjectType.

(** A type joins the group of its key, or opens a new group behind the
    existing ones: groups are ordered by first appearance. *)
Fixpoint insertIntoGroups (k : list (list nat)) (t : GraphQLObjectType)
    (groups : list Group) : list Group :=
  match groups with
  | [] => [(k, [t])]
  | (k', ts) :: rest =>
      if decide (k = k') then (k', ts ++ [t]) :: rest
      else (k', ts) :: insertIntoGroups k t rest
  end.

Definition groupByKey (keyOf : GraphQLObjectType -> list (list nat))
    (types : list GraphQLObjectType) : list Group :=
  foldl (fun groups t => insertIntoGroups (keyOf t) t groups) [] types.

(** A fragment spread that shares no concrete type with the types
    reachable at its position. *)
Fixpoint impossibleSpread (current : list GraphQLObjectType) (s : Selection)
    {struct s} : bool :=
  match s with
  | FieldSelection _ => false
  | TypeCondition _ (mkSelectionSet pts sels) =>
      let narrowed := filter (fun t => t ∈ pts) current in
      (fix inner (l : list Selection) {struct l} : bool :=
         match l with
         | [] => false
         | s' :: l' => impossibleSpread narrowed s' || inner l'
         end) sels
  | FragmentSpread _ (mkSelectionSet pts sels) =>
      let narrowed := filter (fun t => t ∈ pts) current in
      match narrowed with
      | [] => true
      | _ =>
        (fix inner (l : list Selection) {struct l} : bool :=
           match l with
           | [] => false
           | s' :: l' => impossibleSpread narrowed s' || inner l'
           end) sels
      end
  end.

Definition variantOfGroup (sel : SelectionSet) (g : Group) : Variant :=
  {| variant_possibleTypes := g.2;
     variant_selections :=
       match g.2 with
       | t :: _ => filter (fun s => applies t s = true) (SelectionSet.selections sel)
       | [] => []
       end |}.

(** Modelled from the spec: [typeCaseForSelectionSet] and its
    [exhaustiveVariants] (arc-apollo-codegen-core, visitors/typeCase) are
    not among the sources.  This is the Variant Engine of section 4.2,
    [variantsFor(selectionSet) -> ordered list of Variant]: the possible
    types are grouped by equal keys (step 4), the groups are ordered by
    the first appearance of one of their types (step 5), and a fragment
    spread that reaches no possible type is rejected with
    [ImpossibleFragmentSpread] instead of producing an empty variant. *)
Definition variantsFor (sel : SelectionSet) : Res (list Variant) :=
  if existsb (impossibleSpread (SelectionSet.possibleTypes sel))
             (SelectionSet.selections sel)
  then Throw (Error "ImpossibleFragmentSpread")
  else Ok (map (variantOfGroup sel)
               (groupByKey (key sel) (SelectionSet.possibleTypes sel))).

End VariantEngine.

Module FieldMergeEngine.

(** The fields a selection contributes to a variant with the concrete
    types [types], met in a selection set on the types [enclosing]: type
    conditions and fragment spreads are flattened into their fields when
    they apply to all of [types].  The mode "merge fragment fields onto
    enclosing type" governs the spreads on the exact type of the enclosing
    selection set only: with the mode on their fields join the parent's
    list, with the mode off they stay in a shape of their own and are
    left out of it. *)
Fixpoint flatten (mergeSpreads : bool) (types enclosing : list GraphQLObjectType)
    (s : Selection) {struct s} : list Field :=
  match s with
  | FieldSelection f => [f]
  | TypeCondition _ (mkSelectionSet pts sels) =>
      if forallb (fun t => bool_decide (t ∈ pts)) types then
        (fix inner (l : list Selection) {struct l} : list Field :=
           match l with
           | [] => []
           | s' :: l' => flatten mergeSpreads types pts s' ++ inner l'
           end) sels
      else []
  | FragmentSpread _ (mkSelectionSet pts sels) =>
      if forallb (fun t => bool_decide (t ∈ pts)) types then
        if negb mergeSpreads && bool_decide (pts = enclosing) then []
        else
          (fix inner (l : list Selection) {struct l} : list Field :=
             match l with
             | [] => []
             | s' :: l' => flatten mergeSpreads types pts s' ++ inner l'
             end) sels
      else []
  end.

(** The output key of a field: its alias if present, else its name. *)
Definition outputKey (f : Field) : string :=
  match Field.alias f with
  | Some a => a
  | None => Field.name f
  end.

Definition mergeSelectionSets (a b : option SelectionSet) : option SelectionSet :=
  match a, b with
  | Some sa, Some sb =>
      Some (mkSelectionSet (SelectionSet.possibleTypes sa)
              (SelectionSet.selections sa ++ SelectionSet.selections sb))
  | Some sa, None => Some sa
  | None, other => other
  end.

(** Add one field to the merged fields seen so far. *)
Fixpoint mergeInto (f : Field) (seen : list Field) : Res (list Field) :=
  match seen with
  | [] => Ok [f]
  | g :: rest =>
      if String.eqb (outputKey g) (outputKey f) then
        if bool_decide (Field.name g = Field.name f /\ Field.type g = Field.type f)
        then Ok (mkField (Field.name g) (Field.alias g) (Field.description g)
                   (Field.type g)
                   (mergeSelectionSets (Field.selectionSet g) (Field.selectionSet f))
                 :: rest)
        else Throw (Error "FieldMergeConflict")
      else match mergeInto f rest with
           | Ok rest' => Ok (g :: rest')
           | Throw e => Throw e
           end
  end.

Fixpoint mergeAll (fs : list Field) (seen : list Field) : Res (list Field) :=
  match fs with
  | [] => Ok seen
  | f :: fs' =>
      match mergeInto f seen with
      | Ok seen' => mergeAll fs' seen'
      | Throw e => Throw e
      end
  end.

(** Modelled from the spec: [collectAndMergeFields]
    (arc-apollo-codegen-core, visitors/collectAndMergeFields) is not among
    the sources.  This is the Field Merge Engine of section 4.3,
    [mergedFields(variant) -> ordered, deduplicated list of Field]: the
    selections of the variant are flattened, fields with one output key
    are merged in first-seen order, and two fields under one key that
    name different schema fields or types are a [FieldMergeConflict]. *)
Definition mergedFields (mergeSpreads : bool) (v : Variant) : Res (list Field) :=
  mergeAll (flat_map (flatten mergeSpreads (variant_possibleTypes v)
                                (variant_possibleTypes v))
                     (variant_selections v)) [].

End FieldMergeEngine.

(** Modelled from the spec: the two visitors of the core, which are not
    among the sources, as sections 4.2 and 4.3 describe them.  The flag
    [mergeInFieldsFromFragmentSpreads] is a switch of the field merge
    only. *)
Definition SpecCore : CoreVisitors := {|
  typeCaseForSelectionSet sel _ :=
    match VariantEngine.variantsFor sel with
    | Ok vs => Ok (mkTypeCase vs)
    | Throw e => Throw e
    end;
  collectAndMergeFields variant mergeSpreads :=
    match variant with
    | Some v => FieldMergeEngine.mergedFields (truthy_bool mergeSpreads) v
    | None => Throw (TypeError "Cannot read property 'selections' of undefined")
    end
|}.

(* ===================================================================== *)
(** * codeGeneration.ts: the TypeScript emitter *)
(* ===================================================================== *)

(** ** The language layer (language.ts, printer.ts)

    The builders of the Babel syntax tree are kept symbolic: a call is the
    constructor applied to its arguments. *)

Inductive TSType : Type :=
| TSLiteralType (stringLiteral : string)
| TSUnionType (types : list TSType)
| TSTypeReference (identifier : string)
| typeFromGraphQLType (type : GraphQLType) (typeName : option string).

Record ObjectProperty : Type := mkProperty {
  property_name : string;
  property_description : option string;
  property_type : TSType
}.

Inductive Node : Type :=
| interface (name : string) (properties : list ObjectProperty)
            (keyInheritsNullability : bool)
| typeAliasGenericUnion (name : string) (members : list TSType)
| enumerationDeclaration (type : GraphQLType)
| inputObjectDeclaration (type : GraphQLType)
| exportDeclaration (declaration : Node).

(** What the printer accepts: a block of text (the lines of a
    [stripIndent] template) or a syntax tree. *)
Inductive Printable : Type :=
| Text (lines : list string)
| Tree (node : Node).

Class Language : Type := {
  (** The separator [nameFromScopeStack] joins the scope with. *)
  nameSeparator : string;
  (** [Printer.print]: the text of the queued printables.  The trees
      are built by the methods the generator inherits from the language
      layer, which is constructed with the options of the context
      ([super(context.options)]); the builders are kept symbolic, so the
      options come in where the trees are turned into text. *)
  printQueue : GenerationOptions -> list Printable -> string
}.

(** Modelled from the spec: [nameFromScopeStack] of language.ts is not
    among the sources.  This is the Naming Scope of section 4.4,
    [currentName() -> join of stack by a fixed separator convention]. *)
Definition nameFromScopeStack `{Language} (scope : list string) : string :=
  JS.join nameSeparator scope.

(** ** The generator object and its methods *)

(** A call into the compiler core. *)
Inductive CoreCall : Type :=
| CallTypeCase (selectionSet : SelectionSet) (mergeInFragmentSpreads : option bool)
| CallCollectAndMerge (variant : option Variant) (mergeInFragmentSpreads : option bool).

(** [TypescriptAPIGenerator]: the printer's queue and the scope stack (top
    of the stack last, as [push] and [pop] work on the end of the array).
    [coreCalls] is the trace of the calls made into the compiler core; it
    is not a property of the JavaScript object. *)
Record Generator : Type := mkGenerator {
  context : CompilerContext;
  printer : list Printable;
  scopeStack : list string;
  coreCalls : list CoreCall
}.

Record TypescriptGeneratedFile : Type := mkFile {
  fileContents : string
}.

Record GeneratedFile : Type := mkGenerated {
  sourcePath : string;
  fileName : string;
  content : TypescriptGeneratedFile
}.

Record GeneratedSource : Type := mkSource {
  generatedFiles : list GeneratedFile;
  common : string
}.

Module Gen.

(** How a method call on the generator ends: it returns, it throws, or
    the recursion budget of the model is used up. *)
Inductive Outcome (A : Type) : Type :=
| Done (a : A) (g : Generator)
| Thrown (e : Exn) (g : Generator)
| OutOfFuel.
Arguments Done {A} a g.
Arguments Thrown {A} e g.
Arguments OutOfFuel {A}.

Definition M (A : Type) : Type := Generator -> Outcome A.

Definition ret {A} (a : A) : M A := fun g => Done a g.

Definition bind {A B} (m : M A) (k : A -> M B) : M B :=
  fun g =>
    match m g with
    | Done a g' => k a g'
    | Thrown e g' => Thrown e g'
    | OutOfFuel => OutOfFuel
    end.

Definition throw {A} (e : Exn) : M A := fun g => Thrown e g.

Definition outOfFuel {A} : M A := fun _ => OutOfFuel.

Definition liftRes {A} (r : Res A) : M A :=
  match r with
  | Ok a => ret a
  | Throw e => throw e
  end.

Definition gets {A} (f : Generator -> A) : M A := fun g => Done (f g) g.

Definition modify (f : Generator -> Generator) : M unit := fun g => Done tt (f g).

(** [xs.map(f)] and [xs.forEach(f)] with an effectful callback. *)
Fixpoint mapM {A B} (f : A -> M B) (xs : list A) : M (list B) :=
  match xs with
  | [] => ret []
  | x :: xs' => bind (f x) (fun y => bind (mapM f xs') (fun ys => ret (y :: ys)))
  end.

Definition forEach {A} (f : A -> M unit) (xs : list A) : M unit :=
  bind (mapM f xs) (fun _ => ret tt).

End Gen.

Import Gen.

Declare Scope gen_scope.
Delimit Scope gen_scope with gen.
Notation "x <- m ;; k" := (Gen.bind m (fun x => k))
  (at level 20, m at level 99, k at level 200, only parsing) : gen_scope.
Notation "m ;; k" := (Gen.bind m (fun _ => k))
  (at level 100, k at level 200, only parsing, right associativity) : gen_scope.

Section Emitter.

Context {core : CoreVisitors} {lang : Language}.

Local Open Scope gen_scope.

(** [this.printer.enqueue(p)] *)
Definition enqueue (p : Printable) : M unit :=
  modify (fun g => mkGenerator (context g) (printer g ++ [p]) (scopeStack g) (coreCalls g)).

(** [this.printer.printAndClear()] *)
Definition printAndClear : M string :=
  fun g => Done (printQueue (options (context g)) (printer g))
                (mkGenerator (context g) [] (scopeStack g) (coreCalls g)).

Definition scopeStackPush (name : string) : M unit :=
  modify (fun g => mkGenerator (context g) (printer g) (scopeStack g ++ [name]) (coreCalls g)).

Definition scopeStackPop : M (option string) :=
  fun g => Done (last (scopeStack g))
                (mkGenerator (context g) (printer g) (removelast (scopeStack g)) (coreCalls g)).

Definition recordCall (c : CoreCall) : M unit :=
  modify (fun g => mkGenerator (context g) (printer g) (scopeStack g) (coreCalls g ++ [c])).

Definition fileHeader : M unit :=
  enqueue (Text ["/* tslint:disable */";
                 "// This file was automatically generated and should not be edited."]).

Definition typeAliasForEnumType (enumType : GraphQLType) : M unit :=
  enqueue (Tree (enumerationDeclaration enumType)).

Definition typeAliasForInputObjectType (inputObjectType : GraphQLType) : M unit :=
  enqueue (Tree (inputObjectDeclaration inputObjectType)).

Definition isEnumType (t : GraphQLType) : bool :=
  match t with GraphQLEnumType _ => true | _ => false end.

Definition isInputObjectType (t : GraphQLType) : bool :=
  match t with GraphQLInputObjectType _ => true | _ => false end.

Definition printEnumsAndInputObjects (typesUsed : list GraphQLType) : M unit :=
  enqueue (Text ["//==============================================================";
                 "// START Enums and Input Objects";
                 "//=============================================================="]) ;;
  forEach typeAliasForEnumType (List.filter isEnumType typesUsed) ;;
  forEach typeAliasForInputObjectType (List.filter isInputObjectType typesUsed) ;;
  enqueue (Text ["//==============================================================";
                 "// END Enums and Input Objects";
                 "//=============================================================="]).

Definition getTypeCasesForSelectionSet (selectionSet : SelectionSet) : M TypeCase :=
  flag <- gets (fun g => mergeInFieldsFromFragmentSpreads (options (context g))) ;;
  recordCall (CallTypeCase selectionSet flag) ;;
  liftRes (typeCaseForSelectionSet selectionSet flag).

Definition getVariantsForSelectionSet (selectionSet : SelectionSet) : M (list Variant) :=
  typeCase <- getTypeCasesForSelectionSet selectionSet ;;
  ret (exhaustiveVariants typeCase).

(** [field.alias ? field.alias : field.name] *)
Definition aliasOrName (field : Field) : string :=
  if truthy_opt (Field.alias field)
  then default (Field.name field) (Field.alias field)
  else Field.name field.

(** [handleFieldValue]; reading [variant.possibleTypes] of [undefined]
    throws. *)
Definition handleFieldValue (field : Field) (variant : option Variant) : Res ObjectProperty :=
  if String.eqb (Field.name field) "__typename" then
    match variant with
    | Some v =>
        let types := map (fun type => TSLiteralType (toString type))
                         (variant_possibleTypes v) in
        Ok {| property_name := aliasOrName field;
              property_description := Field.description field;
              property_type := TSUnionType types |}
    | None => Throw (TypeError "Cannot read property 'possibleTypes' of undefined")
    end
  else
    Ok {| property_name := aliasOrName field;
          property_description := Field.description field;
          property_type := typeFromGraphQLType (Field.type field) None |}.

(** [variant.possibleTypes[0].toString()]; [toString] of [undefined]
    throws. *)
Definition firstPossibleTypeName (variant : Variant) : Res string :=
  match variant_possibleTypes variant with
  | t :: _ => Ok (toString t)
  | [] => Throw (TypeError "Cannot read property 'toString' of undefined")
  end.

(** The callback of [variants.map] in [handleFieldSelectionSetValue]: the
    interface of one variant of a field, named after the scope. *)
Definition handleFieldSelectionSetValue_variant
    (getPropertiesForVariant : option Variant -> M (list ObjectProperty))
    (variant : Variant) : M string :=
  typeName <- liftRes (firstPossibleTypeName variant) ;;
  scopeStackPush typeName ;;
  properties <- getPropertiesForVariant (Some variant) ;;
  scope <- gets scopeStack ;;
  let identifierName := nameFromScopeStack scope in
  enqueue (Tree (exportDeclaration (interface identifierName properties false))) ;;
  scopeStackPop ;;
  ret identifierName.

(** [handleFieldSelectionSetValue], with the recursive call to
    [getPropertiesForVariant] passed in. *)
Definition handleFieldSelectionSetValue
    (getPropertiesForVariant : option Variant -> M (list ObjectProperty))
    (generatedIdentifier : string) (field : Field) : M ObjectProperty :=
  let type := typeFromGraphQLType (Field.type field) (Some generatedIdentifier) in
  selectionSet <-
    match Field.selectionSet field with
    | Some s => ret s
    | None => throw (TypeError "Cannot read property 'possibleTypes' of undefined")
    end ;;
  typeCase <- getTypeCasesForSelectionSet selectionSet ;;
  let variants := exhaustiveVariants typeCase in
  exportedTypeAlias <-
    (if Nat.eqb (List.length variants) 1 then
       let variant := variants !! 0%nat in
       properties <- getPropertiesForVariant variant ;;
       scope <- gets scopeStack ;;
       ret (exportDeclaration (interface (nameFromScopeStack scope) properties false))
     else
       identifiers <-
         mapM (handleFieldSelectionSetValue_variant getPropertiesForVariant) variants ;;
       ret (exportDeclaration
              (typeAliasGenericUnion generatedIdentifier
                 (map TSTypeReference identifiers)))) ;;
  enqueue (Tree exportedTypeAlias) ;;
  ret {| property_name := aliasOrName field;
         property_description := Field.description field;
         property_type := type |}.

(** The callback of [fields.map] in [getPropertiesForVariant]: the
    property of one merged field. *)
Definition getPropertiesForVariant_field
    (getPropertiesForVariant : option Variant -> M (list ObjectProperty))
    (variant : option Variant) (field : Field) : M ObjectProperty :=
  let fieldName := default (Field.name field) (Field.alias field) in
  scopeStackPush fieldName ;;
  res <-
    match Field.selectionSet field with
    | Some _ =>
        scope <- gets scopeStack ;;
        handleFieldSelectionSetValue getPropertiesForVariant
          (nameFromScopeStack scope) field
    | None => liftRes (handleFieldValue field variant)
    end ;;
  scopeStackPop ;;
  ret res.

(** [getPropertiesForVariant].  [fuel] bounds the nesting depth of the
    selection sets that are followed. *)
Fixpoint getPropertiesForVariant (fuel : nat) (variant : option Variant)
    : M (list ObjectProperty) :=
  match fuel with
  | O => outOfFuel
  | S fuel' =>
      flag <- gets (fun g => mergeInFieldsFromFragmentSpreads (options (context g))) ;;
      recordCall (CallCollectAndMerge variant flag) ;;
      fields <- liftRes (collectAndMergeFields variant flag) ;;
      mapM (getPropertiesForVariant_field (getPropertiesForVariant fuel') variant) fields
  end.

Definition operationHeader (op : Operation) : Printable :=
  Text ["// ====================================================";
        "// GraphQL " +:+ operationType op +:+ " operation: " +:+ operationName op;
        "// ===================================================="].

Definition fragmentHeader (fragment : Fragment) : Printable :=
  Text ["// ====================================================";
        "// GraphQL fragment: " +:+ fragmentName fragment;
        "// ===================================================="].

(** The part of [interfacesForOperation] that follows the computation of
    [variants]. *)
Definition interfacesForOperationFrom (fuel : nat) (operation : Operation)
    (variants : list Variant) : M unit :=
  let variant := variants !! 0%nat in
  properties <- getPropertiesForVariant fuel variant ;;
  let exportedTypeAlias :=
    exportDeclaration (interface (operationName operation) properties false) in
  enqueue (Tree exportedTypeAlias) ;;
  scopeStackPop ;;
  if Nat.ltb 0 (List.length (variables operation)) then
    let interfaceName := operationName operation +:+ "Variables" in
    scopeStackPush interfaceName ;;
    enqueue (Tree (exportDeclaration
                     (interface interfaceName
                        (map (fun variable =>
                                {| property_name := variable_name variable;
                                   property_description := None;
                                   property_type :=
                                     typeFromGraphQLType (variable_type variable) None |})
                             (variables operation))
                        true))) ;;
    scopeStackPop ;;
    ret tt
  else ret tt.

Definition interfacesForOperation (fuel : nat) (operation : Operation) : M unit :=
  scopeStackPush (operationName operation) ;;
  enqueue (operationHeader operation) ;;
  variants <- getVariantsForSelectionSet (operation_selectionSet operation) ;;
  interfacesForOperationFrom fuel operation variants.

(** The callback of [variants.forEach] in [interfacesForFragment]: the
    interface of one variant, and the member it adds to [unionMembers]. *)
Definition interfacesForFragment_variant (fuel : nat) (variant : Variant) : M string :=
  typeName <- liftRes (firstPossibleTypeName variant) ;;
  scopeStackPush typeName ;;
  properties <- getPropertiesForVariant fuel (Some variant) ;;
  scope <- gets scopeStack ;;
  let name := nameFromScopeStack scope in
  enqueue (Tree (exportDeclaration (interface name properties false))) ;;
  scope' <- gets scopeStack ;;
  let member := nameFromScopeStack scope' in
  scopeStackPop ;;
  ret member.

Definition interfacesForFragment (fuel : nat) (fragment : Fragment) : M unit :=
  scopeStackPush (fragmentName fragment) ;;
  enqueue (fragmentHeader fragment) ;;
  variants <- getVariantsForSelectionSet (fragment_selectionSet fragment) ;;
  (if Nat.eqb (List.length variants) 1 then
     properties <- getPropertiesForVariant fuel (variants !! 0%nat) ;;
     scope <- gets scopeStack ;;
     let name := nameFromScopeStack scope in
     enqueue (Tree (exportDeclaration (interface name properties false)))
   else
     unionMembers <- mapM (interfacesForFragment_variant fuel) variants ;;
     scope <- gets scopeStack ;;
     enqueue (Tree (exportDeclaration
                      (typeAliasGenericUnion (nameFromScopeStack scope)
                         (map TSTypeReference unionMembers))))) ;;
  scopeStackPop ;;
  ret tt.

(** [new TypescriptAPIGenerator(context)]: [super(context.options)]
    hands the options of the context to the language layer, which the
    methods reach as [options (context g)]; the printer and the scope
    stack start empty. *)
Definition newGenerator (ctx : CompilerContext) : Generator :=
  {| context := ctx; printer := []; scopeStack := []; coreCalls := [] |}.

Definition generateSourceM (fuel : nat) (ctx : CompilerContext) : M GeneratedSource :=
  operationFiles <-
    mapM (fun operation =>
            fileHeader ;;
            interfacesForOperation fuel operation ;;
            output <- printAndClear ;;
            ret {| sourcePath := operation_filePath operation;
                   fileName := operationName operation +:+ ".ts";
                   content := mkFile output |})
         (Object_values (operations ctx)) ;;
  fragmentFiles <-
    mapM (fun fragment =>
            fileHeader ;;
            interfacesForFragment fuel fragment ;;
            output <- printAndClear ;;
            ret {| sourcePath := fragment_filePath fragment;
                   fileName := fragmentName fragment +:+ ".ts";
                   content := mkFile output |})
         (Object_values (fragments ctx)) ;;
  fileHeader ;;
  printEnumsAndInputObjects (typesUsed ctx) ;;
  common <- printAndClear ;;
  ret {| generatedFiles := operationFiles ++ fragmentFiles; common := common |}.

(** [generateSource(context)]: a fresh generator runs the emission. *)
Definition generateSource (fuel : nat) (ctx : CompilerContext) : Outcome GeneratedSource :=
  generateSourceM fuel ctx (newGenerator ctx).

End Emitter.

(** ** [getTypesUsedForOperation] and [reduceTypesUsed]

    [maybePush] (arc-apollo-codegen-core/lib/utilities/array) is not among
    the sources and [getFields] is a method of the schema's type objects;
    both are taken as given. *)

Class TypeCatalogue : Type := {
  (** [maybePush(list, item)], whose result replaces the list *)
  maybePush : list GraphQLType -> GraphQLType -> list GraphQLType;
  (** [type.getFields()]: the fields of an object or input object type by
      key, each with its type *)
  getFields : GraphQLType -> list (string * GraphQLType)
}.

(** [Operation | Fragment] *)
Inductive Document : Type :=
| OperationDocument (operation : Operation)
| FragmentDocument (fragment : Fragment).

Definition document_selectionSet (doc : Document) : SelectionSet :=
  match doc with
  | OperationDocument operation => operation_selectionSet operation
  | FragmentDocument fragment => fragment_selectionSet fragment
  end.

Definition isObjectType (t : GraphQLType) : bool :=
  match t with GraphQLObject _ => true | _ => false end.

(** [getNullableType(type)] of graphql-js: the type without its non-null
    wrapper. *)
Definition getNullableType (t : GraphQLType) : GraphQLType :=
  match t with
  | GraphQLNonNull ofType => ofType
  | _ => t
  end.

(** The two unwrapping steps at the head of [reduceTypesUsed]: one
    non-null wrapper, then one list wrapper. *)
Definition unwrapOnce (type : GraphQLType) : GraphQLType :=
  let type := match type with
              | GraphQLNonNull _ => getNullableType type
              | _ => type
              end in
  match type with
  | GraphQLList ofType => ofType
  | _ => type
  end.

Section TypesUsed.

Context {catalogue : TypeCatalogue}.

(** The callback of [selections.reduce] in [reduceTypesForDocument],
    together with the recursive call on a fragment spread. *)
Fixpoint reduceTypesForSelection (selectionAcc : list GraphQLType)
    (selection : Selection) {struct selection} : list GraphQLType :=
  match selection with
  | FieldSelection field => maybePush selectionAcc (Field.type field)
  | TypeCondition type _ => maybePush selectionAcc type
  | FragmentSpread _ (mkSelectionSet possibleTypes selections) =>
      (fix inner (acc : list GraphQLType) (l : list Selection) {struct l}
         : list GraphQLType :=
         match l with
         | [] => acc
         | s :: l' => inner (reduceTypesForSelection acc s) l'
         end)
        (foldl maybePush selectionAcc (map GraphQLObject possibleTypes))
        selections
  end.

(** [reduceTypesForDocument(nestDoc, acc)], on the selection set of
    [nestDoc]. *)
Definition reduceTypesForDocument (selectionSet : SelectionSet)
    (acc : list GraphQLType) : list GraphQLType :=
  foldl reduceTypesForSelection
        (foldl maybePush acc
               (map GraphQLObject (SelectionSet.possibleTypes selectionSet)))
        (SelectionSet.selections selectionSet).

(** [xs.reduce(f, acc)] for a callback that may not return. *)
Fixpoint reduceM {A B} (f : B -> A -> option B) (acc : B) (xs : list A) : option B :=
  match xs with
  | [] => Some acc
  | x :: xs' =>
      match f acc x with
      | Some acc' => reduceM f acc' xs'
      | None => None
      end
  end.

(** [reduceTypesUsed(acc, type)].  The recursion follows the fields of
    object and input object types and has no other end; [fuel] bounds its
    depth, and [None] stands for a recursion deeper than that. *)
Fixpoint reduceTypesUsed (fuel : nat) (acc : list GraphQLType) (type : GraphQLType)
    : option (list GraphQLType) :=
  match fuel with
  | O => None
  | S fuel' =>
      let type := unwrapOnce type in
      if isInputObjectType type || isObjectType type then
        reduceM (reduceTypesUsed fuel') (maybePush acc type)
                (map snd (getFields type))
      else Some (maybePush acc type)
  end.

(** [getTypesUsedForOperation(doc, context)] *)
Definition getTypesUsedForOperation (fuel : nat) (doc : Document)
    (ctx : CompilerContext) : option (list GraphQLType) :=
  let docTypesUsed :=
    match doc with
    | OperationDocument operation => map variable_type (variables operation)
    | FragmentDocument _ => []
    end in
  match reduceM (reduceTypesUsed fuel) []
                (reduceTypesForDocument (document_selectionSet doc) docTypesUsed) with
  | Some docTypesUsed =>
      Some (List.filter (fun type => bool_decide (type ∈ docTypesUsed))
                        (typesUsed ctx))
  | None => None
  end.

End TypesUsed.

(* ===================================================================== *)
(** * generate.ts: the driver that compiles and writes the files *)
(* ===================================================================== *)

Inductive TargetType : Type :=
| target_json
| target_swift
| target_ts_legacy
| target_typescript_legacy
| target_flow_legacy
| target_scala
| target_flow
| target_typescript
| target_ts.

#[global] Instance TargetType_eq_dec : EqDecision TargetType.
Proof. solve_decision. Defined.

(** ** What [generate] imports *)

(** Node's [fs], through arc-apollo-codegen-core/lib/localfs. *)
Class FileSystem : Type := {
  FS : Type;
  fs_existsSync : FS -> string -> bool;
  (** [fs.statSync(path).isDirectory()] *)
  fs_isDirectory : FS -> string -> Res bool;
  fs_mkdirSync : FS -> string -> Res FS;
  fs_writeFileSync : FS -> string -> string -> Res FS
}.

(** Node's [path]. *)
Class Path : Type := {
  path_join : string -> string -> string;
  path_dirname : string -> string;
  path_resolve : string -> string;
  path_isAbsolute : string -> bool;
  path_sep : ascii
}.

(** arc-apollo-codegen-core: loading, validation, the two compilers and the
    JSON serialisers. *)
Class CompilerCore `{FileSystem} : Type := {
  GraphQLSchema : Type;
  DocumentNode : Type;
  LegacyCompilerContext : Type;
  loadAndMergeQueryDocuments : FS -> list string -> string -> Res DocumentNode;
  validateQueryDocument : GraphQLSchema -> DocumentNode -> Res unit;
  (** Modelled from the spec: [compileToIR] is not among the sources.
      This is the IR Builder of section 4.1,
      [build(document, schema, options) -> CompilerContext | CompileError],
      which has no side effect beyond returning the context (section 5: a
      purely functional pass over immutable input): a function of its
      three arguments. *)
  compileToIR : GraphQLSchema -> DocumentNode -> GenerationOptions -> Res CompilerContext;
  compileToLegacyIR :
    GraphQLSchema -> DocumentNode -> GenerationOptions -> Res LegacyCompilerContext;
  serializeToJSON : LegacyCompilerContext -> Res string;
  (** [JSON.stringify(operationIdsMap, null, 2)] on the map from operation
      id to name and source. *)
  stringifyOperationIds : list (string * (string * string)) -> string
}.

(** What the Swift backend returns. *)
Record SwiftGenerator : Type := mkSwift {
  swift_generatedFiles : list (string * string);
  swift_output : string
}.

(** The backends. *)
Class Backends `{CompilerCore} : Type := {
  generateSwiftSource : CompilerContext -> bool -> option string -> Res SwiftGenerator;
  generateFlowSource : CompilerContext -> Res GeneratedSource;
  generateTypescriptSource : CompilerContext -> Res GeneratedSource;
  generateTypescriptLegacySource : LegacyCompilerContext -> Res string;
  generateFlowLegacySource : LegacyCompilerContext -> Res string;
  generateScalaSource : LegacyCompilerContext -> Res string
}.

(** ** The state [generate] runs in *)

(** The calls that matter to the outside, in the order they are made. *)
Inductive Event : Type :=
| EvMkdirSync (path : string)
| EvWriteFileSync (path data : string)
| EvCompileToIR (options : GenerationOptions)
| EvCompileToLegacyIR (options : GenerationOptions)
| EvConsoleLog (text : string).

(** The file system, the trace of calls, the options object the caller
    passed (it is shared with the caller, so writes to it are visible
    after the call) and the local counter [writtenFiles]. *)
Record World `{FileSystem} : Type := mkWorld {
  fs : FS;
  events : list Event;
  callerOptions : GenerationOptions;
  writtenFiles : nat
}.
Arguments mkWorld {_} _ _ _ _.

Module Run.
Section Run.
Context `{FileSystem}.

Inductive Outcome (A : Type) : Type :=
| Returned (a : A) (w : World)
| Raised (e : Exn) (w : World).
Arguments Returned {A} a w.
Arguments Raised {A} e w.

Definition M (A : Type) : Type := World -> Outcome A.

Definition ret {A} (a : A) : M A := fun w => Returned a w.

Definition bind {A B} (m : M A) (k : A -> M B) : M B :=
  fun w =>
    match m w with
    | Returned a w' => k a w'
    | Raised e w' => Raised e w'
    end.

Definition raise {A} (e : Exn) : M A := fun w => Raised e w.

Definition liftRes {A} (r : Res A) : M A :=
  match r with
  | Ok a => ret a
  | Throw e => raise e
  end.

Definition gets {A} (f : World -> A) : M A := fun w => Returned (f w) w.

Definition modify (f : World -> World) : M unit := fun w => Returned tt (f w).

Fixpoint forEach {A} (f : A -> M unit) (xs : list A) : M unit :=
  match xs with
  | [] => ret tt
  | x :: xs' => bind (f x) (fun _ => forEach f xs')
  end.

Fixpoint foldM {A B} (f : B -> A -> M B) (acc : B) (xs : list A) : M B :=
  match xs with
  | [] => ret acc
  | x :: xs' => bind (f acc x) (fun acc' => foldM f acc' xs')
  end.

Definition outcomeWorld {A} (o : Outcome A) : World :=
  match o with
  | Returned _ w => w
  | Raised _ w => w
  end.

End Run.
Arguments Returned {_ A} a w.
Arguments Raised {_ A} e w.
End Run.

Declare Scope run_scope.
Delimit Scope run_scope with run.
Notation "x <- m ;; k" := (Run.bind m (fun x => k))
  (at level 20, m at level 99, k at level 200, only parsing) : run_scope.
Notation "m ;; k" := (Run.bind m (fun _ => k))
  (at level 100, k at level 200, only parsing, right associativity) : run_scope.

(** [o[k] = v] on an object used as a map: an existing key keeps its
    place, a new key goes last. *)
Fixpoint Object_set {V} (o : list (string * V)) (k : string) (v : V) : list (string * V) :=
  match o with
  | [] => [(k, v)]
  | (k', v') :: o' =>
      if String.eqb k' k then (k', v) :: o' else (k', v') :: Object_set o' k v
  end.

(** [o[k]] *)
Fixpoint Object_get {V} (o : list (string * V)) (k : string) : option V :=
  match o with
  | [] => None
  | (k', v) :: o' => if String.eqb k' k then Some v else Object_get o' k
  end.

Section Generate.

Context `{backends : Backends} {path : Path}.

Local Open Scope run_scope.
Import Run.

Definition record (e : Event) : Run.M unit :=
  modify (fun w => mkWorld (fs w) (events w ++ [e]) (callerOptions w) (writtenFiles w)).

Definition setFs (fs' : FS) : Run.M unit :=
  modify (fun w => mkWorld fs' (events w) (callerOptions w) (writtenFiles w)).

Definition existsSync (p : string) : Run.M bool :=
  gets (fun w => fs_existsSync (fs w) p).

Definition isDirectory (p : string) : Run.M bool :=
  r <- gets (fun w => fs_isDirectory (fs w) p) ;;
  liftRes r.

Definition mkdirSync (p : string) : Run.M unit :=
  record (EvMkdirSync p) ;;
  r <- gets (fun w => fs_mkdirSync (fs w) p) ;;
  fs' <- liftRes r ;;
  setFs fs'.

Definition writeFileSync (p data : string) : Run.M unit :=
  record (EvWriteFileSync p data) ;;
  r <- gets (fun w => fs_writeFileSync (fs w) p data) ;;
  fs' <- liftRes r ;;
  setFs fs'.

Definition consoleLog (text : string) : Run.M unit := record (EvConsoleLog text).

(** [writtenFiles += n] *)
Definition addWritten (n : nat) : Run.M unit :=
  modify (fun w => mkWorld (fs w) (events w) (callerOptions w) (writtenFiles w + n)).

(** [fs.existsSync(p) && fs.statSync(p).isDirectory()] *)
Definition existsAndIsDirectory (p : string) : Run.M bool :=
  e <- existsSync p ;;
  if e : bool then isDirectory p else ret false.

Definition writeGeneratedFiles (generatedFiles : list (string * string))
    (outputDirectory : string) : Run.M unit :=
  forEach (fun '(fileName, output) =>
             writeFileSync (path_join outputDirectory fileName) output)
          generatedFiles.

Definition writeOperationIdsMap (ctx : CompilerContext) : Run.M unit :=
  let operationIdsMap :=
    foldl (fun acc operation =>
             Object_set acc (default "undefined" (operationId operation))
               (operationName operation, operation_source operation))
          [] (omap (Object_get (operations ctx)) (Object_keys (operations ctx))) in
  match operationIdsPath (options ctx) with
  | Some p => writeFileSync p (stringifyOperationIds operationIdsMap)
  | None => raise (TypeError "The path argument must be of type string")
  end.

(** The [if] after validation: an output path without a dot that does not
    exist yet is created as a directory. *)
Definition ensureOutputDirectory (outputPath : string) : Run.M unit :=
  if Nat.leb (List.length (JS.split "." outputPath)) 1 then
    e <- existsSync outputPath ;;
    if e : bool then ret tt else mkdirSync outputPath
  else ret tt.

(** The three ways [generate] compiles, by target. *)
Definition isLegacyTarget (target : TargetType) : bool :=
  match target with
  | target_swift | target_flow | target_typescript | target_ts => false
  | _ => true
  end.

(** [compileToIR(schema, document, options)] and
    [compileToLegacyIR(schema, document, options)] as [generate] calls
    them: the call enters the trace with the options it is given, and
    throws what the compiler throws. *)
Definition callCompileToIR (schema : GraphQLSchema) (document : DocumentNode)
    (options : GenerationOptions) : Run.M CompilerContext :=
  record (EvCompileToIR options) ;;
  liftRes (compileToIR schema document options).

Definition callCompileToLegacyIR (schema : GraphQLSchema) (document : DocumentNode)
    (options : GenerationOptions) : Run.M LegacyCompilerContext :=
  record (EvCompileToLegacyIR options) ;;
  liftRes (compileToLegacyIR schema document options).

(** The Swift branch of [generate] after the compiler call (lines 57 to
    73), for the context [ctx] the compiler returned. *)
Definition emitSwift (outputPath : string) (only : option string)
    (ctx : CompilerContext) : Run.M unit :=
  outputIndividualFiles <- existsAndIsDirectory outputPath ;;
  generator <- liftRes (generateSwiftSource ctx outputIndividualFiles only) ;;
  (if outputIndividualFiles : bool then
     writeGeneratedFiles (swift_generatedFiles generator) outputPath ;;
     addWritten (List.length (Object_keys (swift_generatedFiles generator)))
   else
     writeFileSync outputPath (swift_output generator) ;;
     addWritten 1) ;;
  options' <- gets callerOptions ;;
  if generateOperationIds options' then
    writeOperationIdsMap ctx ;;
    addWritten 1
  else ret tt.

(** The branch of the targets flow, typescript and ts after the compiler
    call (lines 76 to 122). *)
Definition emitFlowOrTypescript (target : TargetType) (outputPath : string)
    (nextToSources : bool) (ctx : CompilerContext) : Run.M unit :=
  source <- liftRes (if decide (target = target_flow)
                     then generateFlowSource ctx
                     else generateTypescriptSource ctx) ;;
  let generatedFiles := generatedFiles source in
  let common := common source in
  if nextToSources then
    outFiles <-
      foldM (fun outFiles file =>
               let dir := path_join (path_dirname (sourcePath file)) outputPath in
               e <- existsSync dir ;;
               (if e : bool then ret tt else mkdirSync dir) ;;
               ret (Object_set outFiles (path_join dir (fileName file))
                      (fileContents (content file) +:+ common)))
            [] generatedFiles ;;
    writeGeneratedFiles outFiles (path_resolve ".") ;;
    addWritten (List.length (Object_keys outFiles))
  else
    isDir <- existsAndIsDirectory outputPath ;;
    if isDir : bool then
      let outFiles :=
        foldl (fun outFiles file =>
                 Object_set outFiles (fileName file)
                   (fileContents (content file) +:+ common))
              [] generatedFiles in
      writeGeneratedFiles outFiles outputPath ;;
      addWritten (List.length (Object_keys outFiles))
    else
      writeFileSync outputPath
        (JS.join (String "010" EmptyString)
                 (map (fun o => fileContents (content o)) generatedFiles)
         +:+ common) ;;
      addWritten 1.

(** The branch of the remaining targets after the compiler call (lines
    126 to 146).  [generate] enters it for json, ts-legacy,
    typescript-legacy, flow-legacy and scala only, so the last case of
    the [switch] stands for scala. *)
Definition emitLegacy (target : TargetType) (outputPath : string)
    (ctx : LegacyCompilerContext) : Run.M unit :=
  output <- liftRes (match target with
                     | target_json => serializeToJSON ctx
                     | target_ts_legacy | target_typescript_legacy =>
                         generateTypescriptLegacySource ctx
                     | target_flow_legacy => generateFlowLegacySource ctx
                     | _ => generateScalaSource ctx
                     end) ;;
  if JS.truthy outputPath then
    writeFileSync outputPath output ;;
    addWritten 1
  else consoleLog output.

Definition generate (inputPaths : list string) (schema : GraphQLSchema)
    (outputPath : string) (only : option string) (target : TargetType)
    (tagName : string) (nextToSources : bool) : Run.M nat :=
  modify (fun w => mkWorld (fs w) (events w) (callerOptions w) 0) ;;
  loaded <- gets (fun w => loadAndMergeQueryDocuments (fs w) inputPaths tagName) ;;
  document <- liftRes loaded ;;
  liftRes (validateQueryDocument schema document) ;;
  ensureOutputDirectory outputPath ;;
  (if decide (target = target_swift) then
     modify (fun w => mkWorld (fs w) (events w)
                        (set_addTypename true (callerOptions w)) (writtenFiles w)) ;;
     options <- gets callerOptions ;;
     ctx <- callCompileToIR schema document options ;;
     emitSwift outputPath only ctx
   else if negb (isLegacyTarget target) then
     options <- gets callerOptions ;;
     ctx <- callCompileToIR schema document options ;;
     emitFlowOrTypescript target outputPath nextToSources ctx
   else
     options <- gets callerOptions ;;
     ctx <- callCompileToLegacyIR schema document options ;;
     emitLegacy target outputPath ctx) ;;
  gets writtenFiles.

End Generate.

(* ===================================================================== *)
(** * commands/codegen/generate.ts: the command, up to the task list *)
(* ===================================================================== *)

Module Command.

(** The flags and arguments [run] reads before it builds its tasks. *)
Record Flags : Type := mkFlags {
  flag_target : option string;
  flag_outputFlat : option bool
}.

Record Args : Type := mkArgs {
  arg_output : option string
}.

(** A [switch] over strings: the first case whose expression is strictly
    equal to the discriminant is taken, else the default.  Every case
    here ends in [break] or [return]. *)
Fixpoint switch {A} (discriminant : option string) (cases : list (string * A))
    (default : A) : A :=
  match cases with
  | [] => default
  | (c, body) :: cases' =>
      match discriminant with
      | Some d => if String.eqb d c then body else switch discriminant cases' default
      | None => switch discriminant cases' default
      end
  end.

Definition supportedTargets : list string :=
  ["json"; "swift"; "typescript"; "flow"; "scala"; "typescript-legacy"; "flow-legacy"].

Definition dquote : string := String (ascii_of_nat 34) EmptyString.

Definition msgCouldNotInfer : string :=
  "Could not infer target from output file type, please use --target".

Definition msgOutputRequired : string :=
  "The output path must be specified in the arguments for Swift and Scala".

Definition msgSingleDirectory : string :=
  "For TypeScript and Flow generators, " +:+ dquote +:+ "output" +:+ dquote +:+
  " must be empty or a single directory name, unless the " +:+ dquote +:+
  "outputFlat" +:+ dquote +:+ " flag is set.".

(** The [switch] on [args.output.split(".").reverse()[0]]. *)
Definition inferFromOutput (output : string) : Res string :=
  switch (JS.reverse_head (JS.split "." output))
    [ ("json", Ok "json");
      ("swift", Ok "swift");
      (JS.or "ts" "tsx", Ok "typescript");
      (JS.or "js" "jsx", Ok "flow");
      ("scala", Ok "scala") ]
    (Throw (Error msgCouldNotInfer)).

(** The value of [inferredTarget] after the first [if]; [this.error]
    throws. *)
Definition inferTarget (flags : Flags) (args : Args) : Res string :=
  if truthy_opt (flag_target flags) then
    let target := default "" (flag_target flags) in
    if bool_decide (target ∈ supportedTargets) then Ok target
    else Throw (Error ("Unsupported target: " +:+ target))
  else if truthy_opt (arg_output args) then
    inferFromOutput (default "" (arg_output args))
  else Ok "".

(** [run] up to the construction of the task list: the target the tasks
    are built with, or the error raised before. *)
Definition run_target `{Path} (flags : Flags) (args : Args) : Res string :=
  match inferTarget flags args with
  | Throw e => Throw e
  | Ok inferredTarget =>
      if negb (truthy_opt (arg_output args))
         && negb (String.eqb inferredTarget "typescript")
         && negb (String.eqb inferredTarget "flow")
      then Throw (Error msgOutputRequired)
      else if negb (truthy_bool (flag_outputFlat flags))
              && (String.eqb inferredTarget "typescript"
                  || String.eqb inferredTarget "flow")
              && (truthy_opt (arg_output args)
                  && (path_isAbsolute (default "" (arg_output args))
                      || Nat.ltb 1 (List.length
                                      (JS.split path_sep (default "" (arg_output args))))))
      then Throw (Error msgSingleDirectory)
      else Ok inferredTarget
  end.

End Command.

(* ===================================================================== *)
(** * Concrete instances used in the examples *)
(* ===================================================================== *)

Module Examples.

(** POSIX-style paths. *)
Definition PosixPath : Path := {|
  path_join a b := a +:+ "/" +:+ b;
  path_dirname p := JS.join "/" (removelast (JS.split "/" p));
  path_resolve p := "/cwd/" +:+ p;
  path_isAbsolute p := match p with String "/" _ => true | _ => false end;
  path_sep := "/"
|}.

(** An emitter language layer that joins scopes with an underscore and
    prints the names of the queued declarations. *)
Definition printableName (p : Printable) : string :=
  match p with
  | Text _ => ""
  | Tree (exportDeclaration (interface n _ _)) => "interface " +:+ n
  | Tree (exportDeclaration (typeAliasGenericUnion n _)) => "type " +:+ n
  | Tree _ => "declaration"
  end.

Definition Underscore : Language := {|
  nameSeparator := "_";
  printQueue _ q := JS.join ";" (map printableName q)
|}.

Definition plainOptions : GenerationOptions :=
  mkOptions false "" None None None false (Some true) None None None.

Definition Success : GraphQLObjectType := ObjectType "Success".
Definition Failure : GraphQLObjectType := ObjectType "Failure".

Definition scalarField (name : string) : Field :=
  mkField name None None (GraphQLScalarType "String") None.

(** Scenario C of the specification: the union [Result = Success |
    Failure] selected with [__typename] and one field per member. *)
Definition resultSelection : SelectionSet :=
  mkSelectionSet [Success; Failure]
    [ FieldSelection (scalarField "__typename");
      TypeCondition (GraphQLObject Success)
        (mkSelectionSet [Success] [FieldSelection (scalarField "value")]);
      TypeCondition (GraphQLObject Failure)
        (mkSelectionSet [Failure] [FieldSelection (scalarField "message")]) ].

Definition successVariant : Variant :=
  mkVariant [Success]
    [ FieldSelection (scalarField "__typename");
      TypeCondition (GraphQLObject Success)
        (mkSelectionSet [Success] [FieldSelection (scalarField "value")]) ].

Definition failureVariant : Variant :=
  mkVariant [Failure]
    [ FieldSelection (scalarField "__typename");
      TypeCondition (GraphQLObject Failure)
        (mkSelectionSet [Failure] [FieldSelection (scalarField "message")]) ].

(** [query Q($id: ID) { result { ...as above } }] *)
Definition queryQ : Operation :=
  mkOperation "query" "Q" [mkVariable "id" (GraphQLScalarType "ID")]
    (mkSelectionSet [ObjectType "Query"]
       [FieldSelection
          (mkField "result" None None (GraphQLUnionType "Result")
             (Some resultSelection))])
    "q.graphql" "query Q" None.

(** [fragment F on Result { ... }] and [fragment F_Success on Success
    { value }]. *)
Definition fragmentF : Fragment := mkFragment "F" resultSelection "f.graphql".

Definition fragmentF_Success : Fragment :=
  mkFragment "F_Success"
    (mkSelectionSet [Success] [FieldSelection (scalarField "value")])
    "f.graphql".

Definition documentContext : CompilerContext :=
  mkContext [("Q", queryQ)]
            [("F", fragmentF); ("F_Success", fragmentF_Success)]
            [] plainOptions.

(** An in-memory file system. *)
Inductive FsNode : Type :=
| FsFile (data : string)
| FsDirectory.

Definition MemoryFS : FileSystem := {|
  FS := gmap string FsNode;
  fs_existsSync files p := bool_decide (is_Some (files !! p));
  fs_isDirectory files p :=
    match files !! p with
    | Some FsDirectory => Ok true
    | Some (FsFile _) => Ok false
    | None => Throw (Error "ENOENT: no such file or directory")
    end;
  fs_mkdirSync files p :=
    match files !! p with
    | Some _ => Throw (Error "EEXIST: file already exists")
    | None => Ok (<[p := FsDirectory]> files)
    end;
  fs_writeFileSync files p data :=
    match files !! p with
    | Some FsDirectory => Throw (Error "EISDIR: illegal operation on a directory")
    | _ => Ok (<[p := FsFile data]> files)
    end
|}.

(** A core whose documents are the lists of their input paths: a path
    "invalid.graphql" fails validation, a path "impossible.graphql" fails
    compilation, every other document compiles to [documentContext] with
    the options it was compiled with. *)
Definition PathCore : @CompilerCore MemoryFS := {|
  GraphQLSchema := unit;
  DocumentNode := list string;
  LegacyCompilerContext := GenerationOptions;
  loadAndMergeQueryDocuments _ inputPaths _ := Ok inputPaths;
  validateQueryDocument _ document :=
    if bool_decide ("invalid.graphql" ∈ document)
    then Throw (Error "GraphQL validation error") else Ok tt;
  compileToIR _ document opts :=
    if bool_decide ("impossible.graphql" ∈ document)
    then Throw (Error "ImpossibleFragmentSpread")
    else Ok (mkContext (operations documentContext) (fragments documentContext)
               (typesUsed documentContext) opts);
  compileToLegacyIR _ document opts :=
    if bool_decide ("impossible.graphql" ∈ document)
    then Throw (Error "ImpossibleFragmentSpread") else Ok opts;
  serializeToJSON _ := Ok "{}";
  stringifyOperationIds _ := "{}"
|}.

(** Backends: the TypeScript one is the emitter above, the others return
    fixed text. *)
Definition emitTypescript (ctx : CompilerContext) : Res GeneratedSource :=
  match @generateSource SpecCore Underscore 8 ctx with
  | Done source _ => Ok source
  | Thrown e _ => Throw e
  | OutOfFuel => Throw (Error "selection sets nested too deeply")
  end.

Definition TextBackends : @Backends MemoryFS PathCore := {|
  generateSwiftSource _ _ _ := Ok (mkSwift [("API.swift", "// swift")] "// swift");
  generateFlowSource _ := Ok (mkSource [] "// flow");
  generateTypescriptSource := emitTypescript;
  generateTypescriptLegacySource _ := Ok "// typescript-legacy";
  generateFlowLegacySource _ := Ok "// flow-legacy";
  generateScalaSource _ := Ok "// scala"
|}.

(** An empty disk and the options of a command line without flags. *)
Definition emptyWorld : @World MemoryFS :=
  @mkWorld MemoryFS (∅ : gmap string FsNode) [] plainOptions 0.

End Examples.

(** The names of the declarations in the printer's queue. *)
Definition declaredName (p : Printable) : option string :=
  match p with
  | Tree (exportDeclaration (interface n _ _)) => Some n
  | Tree (exportDeclaration (typeAliasGenericUnion n _)) => Some n
  | _ => None
  end.

Section DocumentNames.
Context {core : CoreVisitors} {lang : Language}.

(** The names a method call declares when it runs on a fresh generator,
    as every operation and fragment of [generateSource] does. *)
Definition namesDeclaredBy (ctx : CompilerContext) (m : Gen.M unit) : list string :=
  match m (newGenerator ctx) with
  | Done _ g => omap declaredName (printer g)
  | _ => []
  end.

(** All names declared for one document. *)
Definition documentNames (fuel : nat) (ctx : CompilerContext) : list string :=
  flat_map (fun op => namesDeclaredBy ctx (interfacesForOperation fuel op))
           (Object_values (operations ctx))
  ++ flat_map (fun fragment => namesDeclaredBy ctx (interfacesForFragment fuel fragment))
              (Object_values (fragments ctx)).
End DocumentNames.

(* ===================================================================== *)
(** * Predicates the theorems are stated with *)
(* ===================================================================== *)

Section GroupingInvariant.
Import VariantEngine.
Variable keyOf : GraphQLObjectType -> list (list nat).

(** What holds of the groups built from the types seen so far. *)
Record grouped (groups : list Group) (seen : list GraphQLObjectType) : Prop := {
  grouped_perm : concat (map snd groups) ≡ₚ seen;
  grouped_keys : NoDup (map fst groups);
  grouped_key : forall k ts t, (k, ts) ∈ groups -> t ∈ ts -> keyOf t = k;
  grouped_nonempty : forall k ts, (k, ts) ∈ groups -> ts <> []
}.
End GroupingInvariant.

(** From [g] to [g']: the context and the scope stack are the same, the
    printer's queue and the trace of core calls have only grown. *)
Record stable (g g' : Generator) : Prop := {
  stable_context : context g' = context g;
  stable_scope : scopeStack g' = scopeStack g;
  stable_printer : exists added, printer g' = printer g ++ added;
  stable_calls : exists added, coreCalls g' = coreCalls g ++ added
}.

(** A method that, when it returns, has left the generator [stable]. *)
Definition keeps {A} (m : Gen.M A) : Prop :=
  forall g a g', m g = Done a g' -> stable g g'.

(** The literal types of the names of the possible types of a variant. *)
Definition typenameUnion (variant : Variant) : TSType :=
  TSUnionType (map (fun t => TSLiteralType (objectTypeName t))
                   (variant_possibleTypes variant)).

(** How a property answers its merged field. *)
Definition typenameTyped (variant : Variant) (field : Field) (property : ObjectProperty)
    : Prop :=
  Field.name field = "__typename" -> Field.selectionSet field = None ->
  property_type property = typenameUnion variant.

(** From [g] to [g'] across the files of one run: the context is the same
    and the trace of core calls has only grown. *)
Record grows (g g' : Generator) : Prop := {
  grows_context : context g' = context g;
  grows_calls : exists added, coreCalls g' = coreCalls g ++ added
}.

(** The interface [interfacesForOperation] emits for the variables. *)
Definition variablesInterface (operation : Operation) : list Printable :=
  if Nat.ltb 0 (length (variables operation)) then
    [Tree (exportDeclaration
             (interface (operationName operation +:+ "Variables")
                (map (fun variable =>
                        {| property_name := variable_name variable;
                           property_description := None;
                           property_type :=
                             typeFromGraphQLType (variable_type variable) None |})
                     (variables operation))
                true))]
  else [].

(** The generator after [interfacesForOperation] has pushed the operation
    name, queued the header and asked the core for the variants. *)
Definition afterOperationHeader (operation : Operation) (g : Generator) : Generator :=
  {| context := context g;
     printer := printer g ++ [operationHeader operation];
     scopeStack := scopeStack g ++ [operationName operation];
     coreCalls := coreCalls g ++
       [CallTypeCase (operation_selectionSet operation)
          (mergeInFieldsFromFragmentSpreads (options (context g)))] |}.

(** The name derived for a variant under [scope]: the scope with the name
    of the variant's first possible type pushed, joined. *)
Definition derivedName `{Language} (scope : list string) (variant : Variant)
    (name : string) : Prop :=
  exists t, head (variant_possibleTypes variant) = Some t
            /\ name = nameFromScopeStack (scope ++ [toString t]).

(** No concrete type is in two variants of the list. *)
Definition exclusiveVariants (variants : list Variant) : Prop :=
  forall i j vi vj t,
    variants !! i = Some vi -> variants !! j = Some vj ->
    t ∈ variant_possibleTypes vi -> t ∈ variant_possibleTypes vj -> i = j.

Definition isWriteEvent (ev : Event) : bool :=
  match ev with
  | EvWriteFileSync _ _ => true
  | _ => false
  end.

Definition isCompileEvent (ev : Event) : bool :=
  match ev with
  | EvCompileToIR _ | EvCompileToLegacyIR _ => true
  | _ => false
  end.

(** The options [generate] compiles with, given the options the caller
    passed. *)
Definition compiledOptions (target : TargetType) (opts : GenerationOptions)
    : GenerationOptions :=
  if decide (target = target_swift) then set_addTypename true opts else opts.

(** The call to the compiler [generate] makes for a target. *)
Definition compileEvent (target : TargetType) (opts : GenerationOptions) : Event :=
  if isLegacyTarget target then EvCompileToLegacyIR (compiledOptions target opts)
  else EvCompileToIR (compiledOptions target opts).

Section GeneratePredicates.
Context `{backends : Backends} {path : Path}.

(** The compiler that [generate] calls for the target raises [e]. *)
Definition compileRaises (target : TargetType) (schema : GraphQLSchema)
    (document : DocumentNode) (opts : GenerationOptions) (e : Exn) : Prop :=
  if isLegacyTarget target
  then compileToLegacyIR schema document (compiledOptions target opts) = Throw e
  else compileToIR schema document (compiledOptions target opts) = Throw e.

(** [generate] as called: the counter [writtenFiles] starts at zero. *)
Definition entered (w : World) : World :=
  mkWorld (fs w) (events w) (callerOptions w) 0.

(** Loading, validation or compilation raises [e] on these inputs. *)
Inductive compilationFails (inputPaths : list string) (schema : GraphQLSchema)
    (outputPath : string) (target : TargetType) (tagName : string)
    (w : World) (e : Exn) : Prop :=
| loading_fails :
    loadAndMergeQueryDocuments (fs w) inputPaths tagName = Throw e ->
    compilationFails inputPaths schema outputPath target tagName w e
| validation_fails (document : DocumentNode) :
    loadAndMergeQueryDocuments (fs w) inputPaths tagName = Ok document ->
    validateQueryDocument schema document = Throw e ->
    compilationFails inputPaths schema outputPath target tagName w e
| compilation_fails (document : DocumentNode) (w1 : World) :
    loadAndMergeQueryDocuments (fs w) inputPaths tagName = Ok document ->
    validateQueryDocument schema document = Ok tt ->
    ensureOutputDirectory outputPath (entered w) = Run.Returned tt w1 ->
    compileRaises target schema document (callerOptions w) e ->
    compilationFails inputPaths schema outputPath target tagName w e.


(** From [w] to [w']: the caller's options object is untouched and no
    compiler was called. *)
Definition quiet (w w' : World) : Prop :=
  callerOptions w' = callerOptions w
  /\ exists added, events w' = events w ++ added
                   /\ List.filter isCompileEvent added = [].

(** From [w] to [w']: the caller's options object is untouched and the
    compiler was called once, by the event [ev]. *)
Definition compilesOnce (ev : Event) (w w' : World) : Prop :=
  callerOptions w' = callerOptions w
  /\ exists added, events w' = events w ++ ev :: added
                   /\ List.filter isCompileEvent added = [].

(** A computation that is [quiet] however it ends. *)
Definition quietly {A} (m : Run.M A) : Prop :=
  forall w, quiet w (Run.outcomeWorld (m w)).

End GeneratePredicates.

(** An outcome is below another when it ran out of fuel or is that
    outcome. *)
Definition lessDefined {A} (o o' : Gen.Outcome A) : Prop :=
  o = OutOfFuel \/ o = o'.

(** [m'] does what [m] does wherever [m] has fuel enough. *)
Definition refines {A} (m m' : Gen.M A) : Prop :=
  forall g, lessDefined (m g) (m' g).

(** The nesting depth of a selection: how many fields with a selection set
    lie on the longest path through it. *)
Fixpoint depthSelection (s : Selection) : nat :=
  match s with
  | FieldSelection (mkField _ _ _ _ None) => 0
  | FieldSelection (mkField _ _ _ _ (Some (mkSelectionSet _ sels))) =>
      S ((fix inner (l : list Selection) : nat :=
            match l with
            | [] => 0
            | s' :: l' => Nat.max (depthSelection s') (inner l')
            end) sels)
  | TypeCondition _ (mkSelectionSet _ sels)
  | FragmentSpread _ (mkSelectionSet _ sels) =>
      (fix inner (l : list Selection) : nat :=
         match l with
         | [] => 0
         | s' :: l' => Nat.max (depthSelection s') (inner l')
         end) sels
  end.

Definition depthSelections (sels : list Selection) : nat :=
  foldr (fun s d => Nat.max (depthSelection s) d) 0 sels.

Definition depthField (f : Field) : nat := depthSelection (FieldSelection f).

Definition depthSelectionSet (sel : SelectionSet) : nat :=
  depthSelections (SelectionSet.selections sel).

(** The deepest root selection set of a context. *)
Definition depthContext (ctx : CompilerContext) : nat :=
  foldr Nat.max 0
    (map (fun op => depthSelectionSet (operation_selectionSet op))
         (Object_values (operations ctx))
     ++ map (fun fragment => depthSelectionSet (fragment_selectionSet fragment))
            (Object_values (fragments ctx))).

(** A method call that has fuel enough in every generator state. *)
Definition terminates {A} (m : Gen.M A) : Prop :=
  forall g, m g <> OutOfFuel.

(** A selection without what [reduceTypesForDocument] does not read: the
    selection sets of fields and of type conditions. *)
Fixpoint pruneSelection (s : Selection) : Selection :=
  match s with
  | FieldSelection (mkField n a d t _) => FieldSelection (mkField n a d t None)
  | TypeCondition t (mkSelectionSet pts _) => TypeCondition t (mkSelectionSet pts [])
  | FragmentSpread n (mkSelectionSet pts sels) =>
      FragmentSpread n (mkSelectionSet pts (map pruneSelection sels))
  end.

Definition pruneSelectionSet (sel : SelectionSet) : SelectionSet :=
  mkSelectionSet (SelectionSet.possibleTypes sel)
                 (map pruneSelection (SelectionSet.selections sel)).

Definition pruneDocument (doc : Document) : Document :=
  match doc with
  | OperationDocument o =>
      OperationDocument
        (mkOperation (operationType o) (operationName o) (variables o)
           (pruneSelectionSet (operation_selectionSet o))
           (operation_filePath o) (operation_source o) (operationId o))
  | FragmentDocument f =>
      FragmentDocument
        (mkFragment (fragmentName f) (pruneSelectionSet (fragment_selectionSet f))
           (fragment_filePath f))
  end.

(** [maybePush] keeps what is in the list and puts the item in. *)
Definition keepsAndAdds `{TypeCatalogue} : Prop :=
  forall l x, x ∈ maybePush l x /\ forall y, y ∈ l -> y ∈ maybePush l x.

(** An implementation of [maybePush] and a schema with the recursive type
    [User { name: String, friends: [User] }]. *)
Definition userType : GraphQLType := GraphQLObject (ObjectType "User").

Definition UserCatalogue : TypeCatalogue := {|
  maybePush l x := if bool_decide (x ∈ l) then l else l ++ [x];
  getFields t :=
    if bool_decide (t = userType)
    then [("name", GraphQLScalarType "String"); ("friends", GraphQLList userType)]
    else []
|}.

(** [query Version($id: ID) { version }], with [version : String]. *)
Definition queryVersion : Operation :=
  mkOperation "query" "Version" [mkVariable "id" (GraphQLScalarType "ID")]
    (mkSelectionSet [ObjectType "Query"]
       [FieldSelection (mkField "version" None None (GraphQLScalarType "String") None)])
    "version.graphql" "query Version" None.

Definition userContext : CompilerContext :=
  mkContext [("Version", queryVersion)] []
            [GraphQLScalarType "ID"; GraphQLScalarType "String"; userType]
            Examples.plainOptions.

(** The text [fileHeader] queues. *)
Definition fileHeaderText : Printable :=
  Text ["/* tslint:disable */";
        "// This file was automatically generated and should not be edited."].

(** Between two files the printer is empty and the scope stack is empty. *)
Definition betweenFiles (ctx : CompilerContext) (g : Generator) : Prop :=
  context g = ctx /\ printer g = [] /\ scopeStack g = [].

Section EmitterPredicates.
Context {core : CoreVisitors} {lang : Language}.

(** A generator at the start of a file: the header is queued and the scope
    stack is empty. *)
Definition atFileStart (ctx : CompilerContext) (g : Generator) : Prop :=
  context g = ctx /\ printer g = [fileHeaderText] /\ scopeStack g = [].

(** [file] is what [interfacesForOperation] gives for [operation] from the
    start of a file. *)
Definition operationFileOf (fuel : nat) (ctx : CompilerContext)
    (operation : Operation) (file : GeneratedFile) : Prop :=
  sourcePath file = operation_filePath operation
  /\ fileName file = operationName operation +:+ ".ts"
  /\ exists g1 g2,
       atFileStart ctx g1
       /\ interfacesForOperation fuel operation g1 = Done tt g2
       /\ fileContents (content file) = printQueue (options ctx) (printer g2).

Definition fragmentFileOf (fuel : nat) (ctx : CompilerContext)
    (fragment : Fragment) (file : GeneratedFile) : Prop :=
  sourcePath file = fragment_filePath fragment
  /\ fileName file = fragmentName fragment +:+ ".ts"
  /\ exists g1 g2,
       atFileStart ctx g1
       /\ interfacesForFragment fuel fragment g1 = Done tt g2
       /\ fileContents (content file) = printQueue (options ctx) (printer g2).

End EmitterPredicates.

(** What [printEnumsAndInputObjects] queues for [typesUsed]. *)
Definition enumsAndInputObjects (typesUsed : list GraphQLType) : list Printable :=
  [Text ["//==============================================================";
         "// START Enums and Input Objects";
         "//=============================================================="]]
  ++ map (fun t => Tree (enumerationDeclaration t)) (List.filter isEnumType typesUsed)
  ++ map (fun t => Tree (inputObjectDeclaration t))
         (List.filter isInputObjectType typesUsed)
  ++ [Text ["//==============================================================";
            "// END Enums and Input Objects";
            "//=============================================================="]].

(** A method that, when it throws, leaves at least the scope it was
    entered with on the stack: nothing is popped on the way out. *)
Definition throwsAbove {A} (m : Gen.M A) : Prop :=
  forall g e g', m g = Thrown e g' -> scopeStack g `prefix_of` scopeStack g'.

(** How the property of a field under [scope] answers the field: its
    name, its description and, for a field with a selection set, the
    reference to the type named after the field's scope. *)
Definition propertyOfField `{Language} (scope : list string) (field : Field)
    (property : ObjectProperty) : Prop :=
  property_name property = aliasOrName field
  /\ property_description property = Field.description field
  /\ match Field.selectionSet field with
     | Some _ =>
         property_type property
         = typeFromGraphQLType (Field.type field)
             (Some (nameFromScopeStack
                      (scope ++ [default (Field.name field) (Field.alias field)])))
     | None =>
         Field.name field <> "__typename" ->
         property_type property = typeFromGraphQLType (Field.type field) None
     end.

(** A selection of [result] whose two selections of [a] disagree on the
    type, in an operation and in a fragment. *)
Definition conflictingSelection : SelectionSet :=
  mkSelectionSet [ObjectType "Query"]
    [FieldSelection
       (mkField "result" None None (GraphQLObject (ObjectType "Result"))
          (Some (mkSelectionSet [ObjectType "Result"]
                   [FieldSelection
                      (mkField "a" None None (GraphQLScalarType "String") None);
                    FieldSelection
                      (mkField "a" None None (GraphQLScalarType "Int") None)])))].

Definition conflictingQuery : Operation :=
  mkOperation "query" "Q" [] conflictingSelection "q.graphql" "query Q" None.

Definition conflictingFragment : Fragment :=
  mkFragment "F" conflictingSelection "f.graphql".

(** Scenario D: the fragment [F], declared on [fragmentTypes] with the
    field [name], is spread into the selections of a variant twice, once
    directly and once through the fragment [G]. *)
Definition nameField : Field :=
  mkField "name" None None (GraphQLScalarType "String") None.

Definition scenarioD (fragmentTypes variantTypes : list GraphQLObjectType) : Variant :=
  let spreadF :=
    FragmentSpread "F" (mkSelectionSet fragmentTypes [FieldSelection nameField]) in
  mkVariant variantTypes
    [spreadF; FragmentSpread "G" (mkSelectionSet fragmentTypes [spreadF])].

(** An operation whose root selection set is the [Result] selection of
    the examples, with its two variants. *)
Definition resultQuery : Operation :=
  mkOperation "query" "R" [] Examples.resultSelection "r.graphql" "query R" None.

(** The calls to [fs.writeFileSync] that [writeGeneratedFiles] makes for
    the entries [generatedFiles]. *)
Definition writeEvents `{Path} (outputDirectory : string)
    (generatedFiles : list (string * string)) : list Event :=
  map (fun '(fileName, output) => EvWriteFileSync (path_join outputDirectory fileName) output)
      generatedFiles.

Section WritePredicates.
Context `{FileSystem}.

(** From [w] to [w']: [writes] calls to [fs.writeFileSync] were made and
    the counter [writtenFiles] went up by [counted]. *)
Definition advances (writes counted : nat) (w w' : World) : Prop :=
  writtenFiles w' = writtenFiles w + counted
  /\ exists added,
       events w' = events w ++ added
       /\ List.length (List.filter isWriteEvent added) = writes.

End WritePredicates.

(** [s.includes(c)] for a character. *)
Definition includes (c : ascii) (s : string) : bool :=
  existsb (Ascii.eqb c) (list_ascii_of_string s).

(* ===================================================================== *)
(** * Theorems *)
(* ===================================================================== *)

(** ** Target inference of the command *)

Lemma split_nonempty c s : JS.split c s <> [].
Proof.
  destruct s as [|a s]; simpl; [discriminate|].
  destruct (Ascii.eqb a c); [discriminate|].
  destruct (JS.split c s); discriminate.
Qed.

Lemma split_app_sep c a b :
  JS.split c (a +:+ String c b) = JS.split c a ++ JS.split c b.
Proof.
  induction a as [|x a IH]; simpl.
  - rewrite Ascii.eqb_refl. reflexivity.
  - destruct (Ascii.eqb x c); [now rewrite IH|].
    rewrite IH. pose proof (split_nonempty c a) as Hne.
    destruct (JS.split c a); [contradiction|reflexivity].
Qed.

Lemma reverse_head_snoc {A} (l : list A) x : JS.reverse_head (l ++ [x]) = Some x.
Proof. unfold JS.reverse_head. rewrite rev_unit. reflexivity. Qed.

Lemma switch_case_inv {A} d cases (dflt r : A) :
  Command.switch d cases dflt = r ->
  r = dflt \/ exists c x, d = Some x /\ String.eqb x c = true /\ (c, r) ∈ cases.
Proof.
  induction cases as [|[c body] cases IH]; simpl; intros Hr; [now left|].
  destruct d as [x|].
  - destruct (String.eqb x c) eqn:E.
    + right. exists c, x. subst. repeat split; [assumption|left].
    + destruct (IH Hr) as [->|(c' & x' & ? & ? & ?)]; [now left|].
      right. exists c', x'. repeat split; try assumption. now right.
  - destruct (IH Hr) as [->|(c' & x' & ? & ? & ?)]; [now left|discriminate].
Qed.

(** C10 -- Without a [--target] flag the target is inferred from the last
    dot-separated segment of the output path, and only the segments
    "json", "swift", "ts", "js" and "scala" are recognised: the case
    expressions ["ts" || "tsx"] and ["js" || "jsx"] are "ts" and "js", so
    an output path ending in ".tsx" or ".jsx" makes the command raise
    "Could not infer target from output file type, please use --target". *)
Theorem run_target_tsx_jsx_not_inferred `{Path}
    (flags : Command.Flags) (args : Command.Args) (base ext : string) :
  truthy_opt (Command.flag_target flags) = false ->
  Command.arg_output args = Some (base +:+ "." +:+ ext) ->
  ext = "tsx" \/ ext = "jsx" ->
  Command.run_target flags args = Throw (Error Command.msgCouldNotInfer)
  /\ JS.or "ts" "tsx" = "ts" /\ JS.or "js" "jsx" = "js"
  /\ (forall output target,
        Command.inferFromOutput output = Ok target ->
        exists segment,
          JS.reverse_head (JS.split "." output) = Some segment /\
          (segment, target) ∈ [("json", "json"); ("swift", "swift");
                               ("ts", "typescript"); ("js", "flow");
                               ("scala", "scala")]).
Proof.
  intros Hflag Hout Hext. split; [|split; [reflexivity|split; [reflexivity|]]].
  - unfold Command.run_target, Command.inferTarget. rewrite Hflag, Hout.
    assert (Hseg : JS.reverse_head (JS.split "." (base +:+ "." +:+ ext)) = Some ext).
    { change (base +:+ "." +:+ ext) with (base +:+ String "." ext).
      rewrite split_app_sep.
      destruct Hext as [-> | ->]; simpl JS.split at 2;
        apply reverse_head_snoc. }
    assert (Htruthy : truthy_opt (Some (base +:+ "." +:+ ext)) = true).
    { simpl. destruct base; reflexivity. }
    rewrite Htruthy. simpl default. unfold Command.inferFromOutput.
    rewrite Hseg. destruct Hext as [-> | ->]; reflexivity.
  - intros output target Hinf. unfold Command.inferFromOutput in Hinf.
    apply switch_case_inv in Hinf as [Hd | (c & x & Hx & Heq & Hin)];
      [discriminate|].
    apply String.eqb_eq in Heq. subst x. exists c. split; [assumption|].
    set_unfold in Hin.
    destruct Hin as [Hin|[Hin|[Hin|[Hin|[Hin|[]]]]]];
      injection Hin as -> <-; rewrite !elem_of_cons; auto 10.
Qed.

(** The command on [--output types.tsx] without [--target]. *)
Lemma run_target_tsx_jsx_not_inferred_witness :
  @Command.run_target Examples.PosixPath
     (Command.mkFlags None None) (Command.mkArgs (Some "types.tsx"))
  = Throw (Error Command.msgCouldNotInfer).
Proof.
  apply (proj1 (@run_target_tsx_jsx_not_inferred Examples.PosixPath
                  (Command.mkFlags None None) (Command.mkArgs (Some "types.tsx"))
                  "types" "tsx" eq_refl eq_refl (or_introl eq_refl))).
Defined.

(** ** Lists: [map] and [concat] against stdpp's membership and lookup *)

Lemma elem_of_map {A B} (f : A -> B) (l : list A) (y : B) :
  y ∈ map f l <-> exists x, y = f x /\ x ∈ l.
Proof. change (map f l) with (f <$> l). apply list_elem_of_fmap. Qed.

Lemma lookup_map {A B} (f : A -> B) (l : list A) (i : nat) :
  map f l !! i = f <$> (l !! i).
Proof. change (map f l) with (f <$> l). apply list_lookup_fmap. Qed.

Lemma elem_of_concat {A} (x : A) (ls : list (list A)) :
  x ∈ concat ls <-> exists l, x ∈ l /\ l ∈ ls.
Proof.
  induction ls as [|l ls IH]; simpl.
  - split; [intros H; inversion H|intros (l & _ & H); inversion H].
  - rewrite elem_of_app, IH. split.
    + intros [H|(l' & ? & ?)]; [exists l; split; [assumption|left]|].
      exists l'. split; [assumption|now right].
    + intros (l' & Hx & [->|Hl']%elem_of_cons); [now left|right; eauto].
Qed.

(** ** The variant engine partitions the possible types *)

Section Grouping.
Import VariantEngine.
Variable keyOf : GraphQLObjectType -> list (list nat).
Local Abbreviation grouped := (grouped keyOf).

Lemma insertIntoGroups_types k t groups :
  concat (map snd (insertIntoGroups k t groups)) ≡ₚ concat (map snd groups) ++ [t].
Proof.
  induction groups as [|[k' ts] rest IH]; simpl; [reflexivity|].
  destruct (decide (k = k')); simpl.
  - rewrite <- !app_assoc. apply Permutation_app_head.
    apply Permutation_app_comm.
  - rewrite IH, app_assoc. reflexivity.
Qed.

Lemma insertIntoGroups_keys k t groups :
  map fst (insertIntoGroups k t groups)
  = if bool_decide (k ∈ map fst groups) then map fst groups
    else map fst groups ++ [k].
Proof.
  induction groups as [|[k' ts] rest IH]; simpl; [reflexivity|].
  destruct (decide (k = k')) as [->|Hk]; simpl.
  - rewrite bool_decide_eq_true_2; [reflexivity|left].
  - rewrite IH. case_bool_decide as Hin.
    + rewrite bool_decide_eq_true_2; [reflexivity|now right].
    + rewrite bool_decide_eq_false_2; [reflexivity|].
      intros [->|?]%elem_of_cons; congruence.
Qed.

Lemma insertIntoGroups_elem k t groups k0 ts0 :
  (k0, ts0) ∈ insertIntoGroups k t groups ->
  (k0, ts0) ∈ groups
  \/ (k0 = k /\ exists ts, ts0 = ts ++ [t] /\ (ts = [] \/ (k, ts) ∈ groups)).
Proof.
  induction groups as [|[k' ts] rest IH]; simpl.
  - intros [= -> ->]%list_elem_of_singleton. right. split; [reflexivity|].
    exists []. auto.
  - destruct (decide (k = k')) as [<-|Hk].
    + intros [Heq|Hin]%elem_of_cons.
      * injection Heq as -> ->. right. split; [reflexivity|].
        exists ts. split; [reflexivity|]. right. left.
      * left. now right.
    + intros [Heq|Hin]%elem_of_cons.
      * injection Heq as -> ->. left. left.
      * destruct (IH Hin) as [?|(-> & ts' & -> & [->|?])].
        -- left. now right.
        -- right. split; [reflexivity|]. exists []. auto.
        -- right. split; [reflexivity|]. exists ts'. split; [reflexivity|].
           right. now right.
Qed.

Lemma grouped_insert groups seen t :
  grouped groups seen ->
  grouped (insertIntoGroups (keyOf t) t groups) (seen ++ [t]).
Proof.
  intros [Hperm Hkeys Hkey Hne]. split.
  - rewrite insertIntoGroups_types, Hperm. reflexivity.
  - rewrite insertIntoGroups_keys. case_bool_decide as Hin; [assumption|].
    apply NoDup_app. split; [assumption|]. split.
    + intros k Hk ->%list_elem_of_singleton. contradiction.
    + apply NoDup_singleton.
  - intros k ts t' Hin Ht'.
    apply insertIntoGroups_elem in Hin as [Hin|(-> & ts' & -> & Hts')].
    + eauto.
    + apply elem_of_app in Ht' as [Ht'|Ht'].
      * destruct Hts' as [->|Hin]; [inversion Ht'|eauto].
      * apply list_elem_of_singleton in Ht'. now subst.
  - intros k ts Hin.
    apply insertIntoGroups_elem in Hin as [Hin|(-> & ts' & -> & _)]; [eauto|].
    destruct ts'; discriminate.
Qed.

Lemma grouped_foldl types groups seen :
  grouped groups seen ->
  grouped (foldl (fun g t => insertIntoGroups (keyOf t) t g) groups types)
          (seen ++ types).
Proof.
  revert groups seen.
  induction types as [|t types IH]; intros groups seen Hg; simpl.
  - now rewrite app_nil_r.
  - replace (seen ++ t :: types) with ((seen ++ [t]) ++ types)
      by now rewrite <- app_assoc.
    apply IH, grouped_insert, Hg.
Qed.

Lemma groupByKey_grouped types : grouped (groupByKey keyOf types) types.
Proof.
  apply (grouped_foldl types [] []). split; simpl.
  - reflexivity.
  - constructor.
  - intros ? ? ? Hin. inversion Hin.
  - intros ? ? Hin. inversion Hin.
Qed.
End Grouping.

Lemma variantOfGroup_types sel groups :
  map variant_possibleTypes (map (VariantEngine.variantOfGroup sel) groups)
  = map snd groups.
Proof. rewrite map_map. reflexivity. Qed.

(** C2 -- The variants computed for a selection set partition its possible
    types: the concrete types of all variants together are exactly the
    possible types of the selection set, every possible type is in some
    variant, and no concrete type is in two variants. *)
Theorem variants_partition_possibleTypes
    (sel : SelectionSet) (flag : option bool) (typeCase : TypeCase) :
  @typeCaseForSelectionSet SpecCore sel flag = Ok typeCase ->
  concat (map variant_possibleTypes (exhaustiveVariants typeCase))
    ≡ₚ SelectionSet.possibleTypes sel
  /\ (forall t, t ∈ SelectionSet.possibleTypes sel <->
                exists v, v ∈ exhaustiveVariants typeCase /\ t ∈ variant_possibleTypes v)
  /\ (forall i j vi vj t,
        exhaustiveVariants typeCase !! i = Some vi ->
        exhaustiveVariants typeCase !! j = Some vj ->
        t ∈ variant_possibleTypes vi -> t ∈ variant_possibleTypes vj -> i = j)
  /\ (forall v, v ∈ exhaustiveVariants typeCase -> variant_possibleTypes v <> []).
Proof.
  simpl. unfold VariantEngine.variantsFor.
  destruct (existsb _ _); [discriminate|]. intros [= <-]; simpl.
  pose proof (groupByKey_grouped (VariantEngine.key sel)
                (SelectionSet.possibleTypes sel)) as [Hperm Hkeys Hkey Hne].
  set (groups := VariantEngine.groupByKey _ _) in *.
  assert (Hall : concat (map variant_possibleTypes
                           (map (VariantEngine.variantOfGroup sel) groups))
                 ≡ₚ SelectionSet.possibleTypes sel).
  { rewrite variantOfGroup_types. exact Hperm. }
  split; [exact Hall|]. split; [|split].
  - intros t. rewrite <- Hall. rewrite elem_of_concat. split.
    + intros (ts & Ht & (v & -> & Hv)%elem_of_map). eauto.
    + intros (v & Hv & Ht). exists (variant_possibleTypes v). split; [assumption|].
      apply elem_of_map. eauto.
  - intros i j vi vj t Hi Hj Hti Htj.
    rewrite lookup_map in Hi, Hj.
    destruct (groups !! i) as [[ki tsi]|] eqn:Ei; [|discriminate].
    destruct (groups !! j) as [[kj tsj]|] eqn:Ej; [|discriminate].
    injection Hi as <-. injection Hj as <-. simpl in *.
    assert (ki = kj).
    { rewrite <- (Hkey ki tsi t), <- (Hkey kj tsj t); eauto using list_elem_of_lookup_2. }
    subst kj. eapply NoDup_lookup; [exact Hkeys| |].
    + rewrite lookup_map. unfold VariantEngine.Group in Ei. now rewrite Ei.
    + rewrite lookup_map. unfold VariantEngine.Group in Ej. now rewrite Ej.
  - intros v (g & -> & Hg)%elem_of_map. destruct g as [k ts]. simpl. eauto.
Qed.

(** Scenario C: the variants of the [Result] selection. *)
Lemma variants_partition_possibleTypes_witness :
  concat (map variant_possibleTypes [Examples.successVariant; Examples.failureVariant])
    ≡ₚ [Examples.Success; Examples.Failure].
Proof.
  exact (proj1 (variants_partition_possibleTypes Examples.resultSelection None
                  (mkTypeCase [Examples.successVariant; Examples.failureVariant])
                  eq_refl)).
Defined.

(** ** The generator monad *)

Section GenFacts.

Lemma bind_Done {A B} (m : Gen.M A) (k : A -> Gen.M B) g b g' :
  Gen.bind m k g = Done b g' ->
  exists a g1, m g = Done a g1 /\ k a g1 = Done b g'.
Proof.
  unfold Gen.bind. destruct (m g) as [a g1| |]; [eauto|discriminate..].
Qed.

Lemma ret_Done {A} (a b : A) g g' : Gen.ret a g = Done b g' -> b = a /\ g' = g.
Proof. now intros [= -> ->]. Qed.

Lemma liftRes_Done {A} (r : Res A) a g g' :
  Gen.liftRes r g = Done a g' -> r = Ok a /\ g' = g.
Proof. destruct r; [now intros [= -> ->]|discriminate]. Qed.

Lemma gets_Done {A} (f : Generator -> A) a g g' :
  Gen.gets f g = Done a g' -> a = f g /\ g' = g.
Proof. now intros [= <- <-]. Qed.

Lemma modify_Done f a g g' : Gen.modify f g = Done a g' -> g' = f g.
Proof. now intros [= <-]. Qed.

(** A loop that returns kept an invariant [I] of the generator and
    related every element to its result by [R]. *)
Lemma mapM_Done {A B} (f : A -> Gen.M B) (I : Generator -> Prop)
    (R : A -> B -> Prop) (xs : list A) :
  (forall x g y g', x ∈ xs -> I g -> f x g = Done y g' -> I g' /\ R x y) ->
  forall g ys g', I g -> Gen.mapM f xs g = Done ys g' -> I g' /\ Forall2 R xs ys.
Proof.
  induction xs as [|x xs IH]; intros Hf g ys g' HI; simpl.
  - intros [-> ->]%ret_Done. split; [assumption|constructor].
  - intros (y & g1 & Hy & (ys' & g2 & Hys & [-> ->]%ret_Done)%bind_Done)%bind_Done.
    destruct (Hf x g y g1) as [HI1 HR]; [left|assumption..|].
    destruct (IH (fun x0 g0 y0 g0' Hin => Hf x0 g0 y0 g0' (list_elem_of_further _ _ _ Hin))
                 g1 ys' g2 HI1 Hys) as [HI2 HF].
    split; [assumption|now constructor].
Qed.

End GenFacts.

(** Decompose a hypothesis stating that a sequence of method calls
    returned. *)
Ltac gen_step :=
  match goal with
  | H : Gen.bind _ _ _ = Done _ _ |- _ =>
      apply bind_Done in H; destruct H as (? & ? & ? & H)
  | H : Gen.ret _ _ = Done _ _ |- _ =>
      apply ret_Done in H; destruct H as [? ?]; subst
  | H : Gen.liftRes _ _ = Done _ _ |- _ =>
      apply liftRes_Done in H; destruct H as [H ?]; subst
  | H : Gen.gets _ _ = Done _ _ |- _ =>
      apply gets_Done in H; destruct H as [? ?]; subst
  | H : Gen.modify _ _ = Done _ _ |- _ =>
      apply modify_Done in H; subst
  | H : Gen.throw _ _ = Done _ _ |- _ => discriminate H
  | H : Gen.outOfFuel _ = Done _ _ |- _ => discriminate H
  | H : enqueue _ _ = Done _ _ |- _ => unfold enqueue in H
  | H : recordCall _ _ = Done _ _ |- _ => unfold recordCall in H
  | H : scopeStackPush _ _ = Done _ _ |- _ => unfold scopeStackPush in H
  | H : scopeStackPop _ = Done _ _ |- _ =>
      unfold scopeStackPop in H; injection H as ? ?; subst
  | H : fileHeader _ = Done _ _ |- _ => unfold fileHeader in H
  | H : getVariantsForSelectionSet _ _ = Done _ _ |- _ =>
      unfold getVariantsForSelectionSet in H
  | H : getTypeCasesForSelectionSet _ _ = Done _ _ |- _ =>
      unfold getTypeCasesForSelectionSet in H
  | H : Gen.forEach _ _ _ = Done _ _ |- _ => unfold Gen.forEach in H
  end.

Ltac gen_inv := repeat gen_step.

(** ** What every method of the generator leaves alone *)

Lemma stable_refl g : stable g g.
Proof. split; try reflexivity; exists []; now rewrite app_nil_r. Qed.

Lemma stable_trans g1 g2 g3 : stable g1 g2 -> stable g2 g3 -> stable g1 g3.
Proof.
  intros [Hc1 Hs1 [p1 Hp1] [c1 Hk1]] [Hc2 Hs2 [p2 Hp2] [c2 Hk2]]. split.
  - congruence.
  - congruence.
  - exists (p1 ++ p2). now rewrite Hp2, Hp1, app_assoc.
  - exists (c1 ++ c2). now rewrite Hk2, Hk1, app_assoc.
Qed.

Lemma stable_enqueue g p :
  stable g (mkGenerator (context g) (printer g ++ [p]) (scopeStack g) (coreCalls g)).
Proof. split; simpl; try reflexivity; [now exists [p]|exists []; now rewrite app_nil_r]. Qed.

Lemma stable_recordCall g c :
  stable g (mkGenerator (context g) (printer g) (scopeStack g) (coreCalls g ++ [c])).
Proof. split; simpl; try reflexivity; [exists []; now rewrite app_nil_r|now exists [c]]. Qed.

(** A push, a stable middle part and a pop are stable together. *)
Lemma stable_push_pop g name g' c p s k :
  stable (mkGenerator (context g) (printer g) (scopeStack g ++ [name]) (coreCalls g)) g' ->
  c = context g' -> p = printer g' -> s = removelast (scopeStack g') ->
  k = coreCalls g' ->
  stable g (mkGenerator c p s k).
Proof.
  intros [Hc Hs Hp Hk] -> -> -> ->. simpl in *. split; simpl; try assumption.
  rewrite Hs. apply removelast_last.
Qed.

Section Stability.
Context {core : CoreVisitors} {lang : Language}.

Lemma keeps_mapM {A B} (f : A -> Gen.M B) (xs : list A) :
  (forall x, keeps (f x)) -> keeps (Gen.mapM f xs).
Proof.
  intros Hf g ys g' Hrun.
  apply (mapM_Done f (stable g) (fun _ _ => True) xs) in Hrun as [? _];
    [assumption| |apply stable_refl].
  intros x g0 y g0' _ Hg0 Hx. split; [|exact I].
  eapply stable_trans; [exact Hg0|]. eapply Hf, Hx.
Qed.

Lemma keeps_getTypeCasesForSelectionSet sel : keeps (getTypeCasesForSelectionSet sel).
Proof. intros g a g' H. gen_inv. apply stable_recordCall. Qed.

Lemma keeps_handleFieldSelectionSetValue_variant gp variant :
  (forall v, keeps (gp v)) ->
  keeps (handleFieldSelectionSetValue_variant gp variant).
Proof.
  intros Hgp g a g' H. unfold handleFieldSelectionSetValue_variant in H. gen_inv.
  eapply stable_push_pop;
    [eapply stable_trans; [eapply Hgp; eassumption|apply stable_enqueue]
    |reflexivity..].
Qed.

Lemma keeps_handleFieldSelectionSetValue gp generatedIdentifier field :
  (forall v, keeps (gp v)) ->
  keeps (handleFieldSelectionSetValue gp generatedIdentifier field).
Proof.
  intros Hgp g a g' H. unfold handleFieldSelectionSetValue in H.
  gen_inv. destruct (Field.selectionSet field); gen_inv.
  eapply stable_trans; [|apply stable_enqueue].
  eapply stable_trans; [apply stable_recordCall|].
  destruct (Nat.eqb _ 1); gen_inv.
  - eapply Hgp. eassumption.
  - match goal with
    | H : Gen.mapM _ _ _ = _ |- _ => eapply keeps_mapM in H; [exact H|]
    end.
    intros variant. now apply keeps_handleFieldSelectionSetValue_variant.
Qed.

Lemma keeps_getPropertiesForVariant_field gp variant field :
  (forall v, keeps (gp v)) ->
  keeps (getPropertiesForVariant_field gp variant field).
Proof.
  intros Hgp g a g' H. unfold getPropertiesForVariant_field in H. gen_inv.
  eapply stable_push_pop; [|reflexivity..].
  destruct (Field.selectionSet field); gen_inv.
  - eapply keeps_handleFieldSelectionSetValue; [exact Hgp|eassumption].
  - apply stable_refl.
Qed.

Lemma keeps_getPropertiesForVariant fuel :
  forall variant, keeps (getPropertiesForVariant fuel variant).
Proof.
  induction fuel as [|fuel IH]; intros variant g a g' H; simpl in H.
  - discriminate.
  - gen_inv. eapply stable_trans; [apply stable_recordCall|].
    match goal with
    | H : Gen.mapM _ _ _ = _ |- _ => eapply keeps_mapM in H; [exact H|]
    end.
    intros field. now apply keeps_getPropertiesForVariant_field.
Qed.

Lemma keeps_interfacesForFragment_variant fuel variant :
  keeps (interfacesForFragment_variant fuel variant).
Proof.
  intros g a g' H. unfold interfacesForFragment_variant in H. gen_inv.
  eapply stable_push_pop;
    [eapply stable_trans;
       [eapply keeps_getPropertiesForVariant; eassumption|apply stable_enqueue]
    |reflexivity..].
Qed.

Lemma keeps_interfacesForOperation fuel operation :
  keeps (interfacesForOperation fuel operation).
Proof.
  intros g a g' H. unfold interfacesForOperation, interfacesForOperationFrom in H.
  gen_inv.
  match goal with
  | H : getPropertiesForVariant _ _ _ = _ |- _ =>
      apply keeps_getPropertiesForVariant in H; destruct H as [Hc Hs [p Hp] [k Hk]]
  end.
  simpl in *.
  destruct (Nat.ltb 0 _); gen_inv; split; simpl;
    rewrite ?Hc, ?Hs, ?Hp, ?Hk, ?removelast_last, <- ?app_assoc; eauto.
Qed.

Lemma keeps_interfacesForFragment fuel fragment :
  keeps (interfacesForFragment fuel fragment).
Proof.
  intros g a g' H. unfold interfacesForFragment in H. gen_inv.
  eapply stable_push_pop; [|reflexivity..].
  eapply stable_trans;
    [apply (stable_enqueue (mkGenerator _ _ _ _))|simpl].
  eapply stable_trans; [apply (stable_recordCall (mkGenerator _ _ _ _))|simpl].
  destruct (Nat.eqb _ 1); gen_inv.
  - eapply stable_trans; [|apply stable_enqueue].
    eapply keeps_getPropertiesForVariant. eassumption.
  - eapply stable_trans; [|apply stable_enqueue].
    match goal with
    | H : Gen.mapM _ _ _ = _ |- _ => eapply keeps_mapM in H; [exact H|]
    end.
    intros variant. apply keeps_interfacesForFragment_variant.
Qed.

End Stability.

(** ** The scope stack is restored *)

(** C4 -- The naming scope stack is strictly nested: whenever
    [interfacesForOperation] or [interfacesForFragment] returns, the
    generator's scope stack is what it was on entry, and the same holds
    for [getPropertiesForVariant] and [handleFieldSelectionSetValue],
    whose pushes are each matched by one pop. *)
Theorem scopeStack_restored {core : CoreVisitors} {lang : Language}
    (fuel : nat) (g g' : Generator) :
  (forall operation,
     interfacesForOperation fuel operation g = Done tt g' ->
     scopeStack g' = scopeStack g)
  /\ (forall fragment,
        interfacesForFragment fuel fragment g = Done tt g' ->
        scopeStack g' = scopeStack g)
  /\ (forall variant properties,
        getPropertiesForVariant fuel variant g = Done properties g' ->
        scopeStack g' = scopeStack g)
  /\ (forall generatedIdentifier field property,
        handleFieldSelectionSetValue (getPropertiesForVariant fuel)
          generatedIdentifier field g = Done property g' ->
        scopeStack g' = scopeStack g).
Proof.
  repeat split; intros.
  - eapply stable_scope, keeps_interfacesForOperation; eassumption.
  - eapply stable_scope, keeps_interfacesForFragment; eassumption.
  - eapply stable_scope, keeps_getPropertiesForVariant; eassumption.
  - eapply stable_scope, keeps_handleFieldSelectionSetValue;
      [apply keeps_getPropertiesForVariant|eassumption].
Qed.

(** The operation [Q] of the examples, emitted with its nested union. *)
Lemma scopeStack_restored_witness :
  exists g',
    @interfacesForOperation SpecCore Examples.Underscore 3 Examples.queryQ
      (newGenerator Examples.documentContext) = Done tt g'
    /\ scopeStack g' = [].
Proof.
  eexists. split; [vm_compute; reflexivity|].
  apply (proj1 (@scopeStack_restored SpecCore Examples.Underscore 3
                  (newGenerator Examples.documentContext) _) Examples.queryQ).
  vm_compute. reflexivity.
Defined.

(** ** The type of [__typename] *)

Section Typename.
Context {core : CoreVisitors} {lang : Language}.

Lemma handleFieldValue_typename field variant property :
  handleFieldValue field (Some variant) = Ok property ->
  Field.name field = "__typename" ->
  property_type property = typenameUnion variant.
Proof.
  unfold handleFieldValue. intros H Hname. rewrite Hname in H. simpl in H.
  injection H as <-. reflexivity.
Qed.
End Typename.

(** C3 -- For every variant, the property emitted for a merged field named
    [__typename] that has no selection set is typed as the union of the
    string-literal types of the names of the variant's possible types; for
    a variant of one concrete type this is the literal name of that type. *)
Theorem typename_property_is_union_of_type_names
    {core : CoreVisitors} {lang : Language}
    (fuel : nat) (variant : Variant) (g g' : Generator)
    (properties : list ObjectProperty) :
  getPropertiesForVariant fuel (Some variant) g = Done properties g' ->
  exists fields,
    collectAndMergeFields (Some variant)
      (mergeInFieldsFromFragmentSpreads (options (context g))) = Ok fields
    /\ Forall2 (typenameTyped variant) fields properties
    /\ (forall t, variant_possibleTypes variant = [t] ->
                  typenameUnion variant = TSUnionType [TSLiteralType (objectTypeName t)]).
Proof.
  destruct fuel as [|fuel]; simpl; intros H; [discriminate|].
  gen_inv. eexists. split; [eassumption|]. split.
  - match goal with
    | H : Gen.mapM _ _ _ = _ |- _ =>
        apply (mapM_Done _ (fun _ => True) (typenameTyped variant)) in H;
          [apply H|clear H|exact I]
    end.
    intros field g1 property g1' _ _ Hfield. split; [exact I|].
    intros Hname Hsel. unfold getPropertiesForVariant_field in Hfield.
    gen_inv. rewrite Hsel in *. gen_inv.
    eapply handleFieldValue_typename; eassumption.
  - intros t Ht. unfold typenameUnion. now rewrite Ht.
Qed.

(** Scenario C: the [Success] variant of the [Result] selection. *)
Lemma typename_property_is_union_of_type_names_witness :
  exists properties,
    Forall2 (typenameTyped Examples.successVariant)
      [Examples.scalarField "__typename"; Examples.scalarField "value"] properties
    /\ properties !! 0%nat
       = Some (mkProperty "__typename" None (TSUnionType [TSLiteralType "Success"])).
Proof.
  destruct (@typename_property_is_union_of_type_names SpecCore Examples.Underscore
              2 Examples.successVariant (newGenerator Examples.documentContext)
              _ _ eq_refl) as (fields & Hfields & Hall & _).
  injection Hfields as <-. eexists. split; [exact Hall|reflexivity].
Defined.

(** ** The operation interface comes from the first variant *)

(** C9 -- [interfacesForOperation] builds the interface of an operation
    from the first variant of the root selection set only: the properties
    are those of that variant, exactly one interface named after the
    operation is queued for them, and the variants after the first do not
    enter the computation. *)
Theorem operation_interface_from_first_variant
    {core : CoreVisitors} {lang : Language}
    (fuel : nat) (operation : Operation) (g g' : Generator)
    (typeCase : TypeCase) (variant : Variant) (rest : list Variant) :
  typeCaseForSelectionSet (operation_selectionSet operation)
    (mergeInFieldsFromFragmentSpreads (options (context g))) = Ok typeCase ->
  exhaustiveVariants typeCase = variant :: rest ->
  interfacesForOperation fuel operation g = Done tt g' ->
  (exists properties g2,
     getPropertiesForVariant fuel (Some variant) (afterOperationHeader operation g)
       = Done properties g2
     /\ printer g' =
          printer g2
          ++ Tree (exportDeclaration
                     (interface (operationName operation) properties false))
             :: variablesInterface operation)
  /\ (forall rest',
        interfacesForOperationFrom fuel operation (variant :: rest')
        = interfacesForOperationFrom fuel operation [variant])
  /\ interfacesForOperation fuel operation g
     = interfacesForOperationFrom fuel operation [variant]
         (afterOperationHeader operation g).
Proof.
  intros Hcase Hvariants Hrun.
  assert (Heq : interfacesForOperation fuel operation g
                = interfacesForOperationFrom fuel operation [variant]
                    (afterOperationHeader operation g)).
  { unfold interfacesForOperation, getVariantsForSelectionSet,
      getTypeCasesForSelectionSet, Gen.bind; simpl.
    rewrite Hcase; simpl. rewrite Hvariants. reflexivity. }
  split; [|split; [reflexivity|exact Heq]].
  rewrite Heq in Hrun. unfold interfacesForOperationFrom in Hrun.
  change ([variant] !! 0%nat) with (Some variant) in Hrun.
  gen_inv. do 2 eexists. split; [eassumption|].
  unfold variablesInterface.
  destruct (Nat.ltb 0 _); gen_inv; simpl; [|reflexivity].
  now rewrite <- app_assoc.
Qed.

(** The operation [R]: its root selection set has the two variants
    [Success] and [Failure].  The interface [R] has the properties of
    [Success], the first of them, and [message] of [Failure] is nowhere
    in the output. *)
Lemma operation_interface_from_first_variant_witness :
  exists g',
    @interfacesForOperation SpecCore Examples.Underscore 3 resultQuery
      (newGenerator Examples.documentContext) = Done tt g'
    /\ printer g'
       = [operationHeader resultQuery;
          Tree (exportDeclaration
                  (interface "R"
                     [mkProperty "__typename" None
                        (TSUnionType [TSLiteralType "Success"]);
                      mkProperty "value" None
                        (typeFromGraphQLType (GraphQLScalarType "String") None)]
                     false))].
Proof.
  destruct (@interfacesForOperation SpecCore Examples.Underscore 3 resultQuery
              (newGenerator Examples.documentContext)) as [[] g'| |] eqn:Hrun;
    [|vm_compute in Hrun; discriminate..].
  exists g'. split; [reflexivity|].
  destruct (@operation_interface_from_first_variant SpecCore Examples.Underscore
              3 resultQuery (newGenerator Examples.documentContext) g'
              (mkTypeCase [Examples.successVariant; Examples.failureVariant])
              Examples.successVariant [Examples.failureVariant])
    as [(props & g2 & Hprops & Hprinter) _];
    [vm_compute; reflexivity|reflexivity|exact Hrun|].
  rewrite Hprinter. vm_compute in Hprops. injection Hprops as <- <-.
  vm_compute. reflexivity.
Defined.

(** ** The calls the emitter makes into the core *)

Lemma stable_grows g g' : stable g g' -> grows g g'.
Proof. intros [? ? ? ?]. now split. Qed.

Lemma grows_refl g : grows g g.
Proof. apply stable_grows, stable_refl. Qed.

Lemma grows_trans g1 g2 g3 : grows g1 g2 -> grows g2 g3 -> grows g1 g3.
Proof.
  intros [Hc1 [c1 Hk1]] [Hc2 [c2 Hk2]]. split; [congruence|].
  exists (c1 ++ c2). now rewrite Hk2, Hk1, app_assoc.
Qed.

Lemma grows_call g g' c : grows g g' -> c ∈ coreCalls g -> c ∈ coreCalls g'.
Proof. intros [_ [added ->]] Hc. apply elem_of_app. now left. Qed.

(** An element of a loop that returned was run between two states the
    loop passed through. *)
Lemma mapM_elem {A B} (f : A -> Gen.M B) (xs : list A) :
  (forall x g y g', f x g = Done y g' -> grows g g') ->
  forall g ys g', Gen.mapM f xs g = Done ys g' ->
  grows g g' /\
  forall x, x ∈ xs ->
    exists g1 y g2, grows g g1 /\ f x g1 = Done y g2 /\ grows g2 g'.
Proof.
  intros Hf. induction xs as [|x xs IH]; intros g ys g' Hrun; simpl in Hrun.
  - gen_inv. split; [apply grows_refl|]. intros x Hx. inversion Hx.
  - gen_inv.
    match goal with
    | Hx : f x g = Done ?y ?g1, Hxs : Gen.mapM f xs ?g1 = Done _ _ |- _ =>
        pose proof (Hf _ _ _ _ Hx) as Hgx;
        destruct (IH _ _ _ Hxs) as [Hgxs Hrest]
    end.
    split; [eapply grows_trans; eassumption|].
    intros x' [->|Hin]%elem_of_cons.
    + do 3 eexists. split; [apply grows_refl|]. split; eassumption.
    + destruct (Hrest x' Hin) as (g1 & y & g2 & ? & ? & ?).
      exists g1, y, g2. split; [eapply grows_trans; eassumption|]. now split.
Qed.

Section CoreCalls.
Context {core : CoreVisitors} {lang : Language}.

Lemma getPropertiesForVariant_calls fuel variant g properties g' :
  getPropertiesForVariant fuel variant g = Done properties g' ->
  CallCollectAndMerge variant (mergeInFieldsFromFragmentSpreads (options (context g)))
    ∈ coreCalls g'.
Proof.
  intros Hrun. destruct fuel as [|fuel]; simpl in Hrun; [discriminate|]. gen_inv.
  match goal with
  | H : Gen.mapM _ _ _ = _ |- _ =>
      eapply keeps_mapM in H;
        [|intros field; apply keeps_getPropertiesForVariant_field;
          apply keeps_getPropertiesForVariant];
        apply stable_grows in H
  end.
  eapply grows_call; [eassumption|]. simpl. apply elem_of_app. right. left.
Qed.

(** An operation that is emitted has its variants computed and the
    fields of its first variant merged. *)
Lemma interfacesForOperation_calls fuel operation g g' :
  interfacesForOperation fuel operation g = Done tt g' ->
  let flag := mergeInFieldsFromFragmentSpreads (options (context g)) in
  CallTypeCase (operation_selectionSet operation) flag ∈ coreCalls g'
  /\ exists typeCase,
       typeCaseForSelectionSet (operation_selectionSet operation) flag = Ok typeCase
       /\ CallCollectAndMerge (exhaustiveVariants typeCase !! 0%nat) flag ∈ coreCalls g'.
Proof.
  intros Hrun flag.
  unfold interfacesForOperation, interfacesForOperationFrom in Hrun. gen_inv.
  match goal with
  | H : getPropertiesForVariant _ _ _ = Done _ ?g2 |- _ =>
      pose proof (getPropertiesForVariant_calls _ _ _ _ _ H) as Hcall;
      apply keeps_getPropertiesForVariant, stable_grows in H;
      destruct H as [_ [added Hadded]];
      assert (Hin : forall c, c ∈ coreCalls g2 -> c ∈ coreCalls g')
  end.
  { intros c Hc. destruct (Nat.ltb 0 _); gen_inv; exact Hc. }
  simpl in *. split.
  - apply Hin. rewrite Hadded, !elem_of_app. left. right. left.
  - eexists. split; [eassumption|]. apply Hin, Hcall.
Qed.

Lemma interfacesForFragment_calls fuel fragment g g' :
  interfacesForFragment fuel fragment g = Done tt g' ->
  CallTypeCase (fragment_selectionSet fragment)
    (mergeInFieldsFromFragmentSpreads (options (context g))) ∈ coreCalls g'.
Proof.
  intros Hrun. unfold interfacesForFragment in Hrun. gen_inv. simpl.
  match goal with
  | H : (if _ then _ else _) ?g0 = Done _ ?g1 |- _ =>
      assert (Hgrows : grows g0 g1)
  end.
  { destruct (Nat.eqb _ 1); gen_inv.
    - eapply grows_trans; [|apply stable_grows, stable_enqueue].
      eapply stable_grows, keeps_getPropertiesForVariant. eassumption.
    - eapply grows_trans; [|apply stable_grows, stable_enqueue].
      eapply stable_grows, keeps_mapM; [|eassumption].
      intros variant. apply keeps_interfacesForFragment_variant. }
  eapply grows_call; [exact Hgrows|]. simpl. apply elem_of_app. right. left.
Qed.

Lemma grows_printAndClear g output g' :
  printAndClear g = Done output g' -> grows g g'.
Proof.
  unfold printAndClear. intros [= _ <-].
  split; simpl; [reflexivity|exists []; now rewrite app_nil_r].
Qed.

Lemma grows_operationFile fuel operation g file g' :
  Gen.bind fileHeader (fun _ =>
    Gen.bind (interfacesForOperation fuel operation) (fun _ =>
      Gen.bind printAndClear (fun output =>
        Gen.ret {| sourcePath := operation_filePath operation;
                   fileName := operationName operation +:+ ".ts";
                   content := mkFile output |}))) g = Done file g' ->
  grows g g'
  /\ exists g1 g2, grows g g1 /\ interfacesForOperation fuel operation g1 = Done tt g2
                   /\ grows g2 g'.
Proof.
  intros Hrun. gen_inv.
  match goal with
  | H : interfacesForOperation _ _ ?g1 = Done ?u ?g2,
    Hp : printAndClear ?g2 = Done _ _ |- _ =>
      destruct u; pose proof (keeps_interfacesForOperation _ _ _ _ _ H) as Hk;
      apply stable_grows in Hk;
      assert (H01 : grows g g1) by apply stable_grows, stable_enqueue;
      apply grows_printAndClear in Hp
  end.
  split; [eapply grows_trans; [exact H01|eapply grows_trans; eassumption]|].
  eauto.
Qed.

Lemma grows_fragmentFile fuel fragment g file g' :
  Gen.bind fileHeader (fun _ =>
    Gen.bind (interfacesForFragment fuel fragment) (fun _ =>
      Gen.bind printAndClear (fun output =>
        Gen.ret {| sourcePath := fragment_filePath fragment;
                   fileName := fragmentName fragment +:+ ".ts";
                   content := mkFile output |}))) g = Done file g' ->
  grows g g'
  /\ exists g1 g2, grows g g1 /\ interfacesForFragment fuel fragment g1 = Done tt g2
                   /\ grows g2 g'.
Proof.
  intros Hrun. gen_inv.
  match goal with
  | H : interfacesForFragment _ _ ?g1 = Done ?u ?g2,
    Hp : printAndClear ?g2 = Done _ _ |- _ =>
      destruct u; pose proof (keeps_interfacesForFragment _ _ _ _ _ H) as Hk;
      apply stable_grows in Hk;
      assert (H01 : grows g g1) by apply stable_grows, stable_enqueue;
      apply grows_printAndClear in Hp
  end.
  split; [eapply grows_trans; [exact H01|eapply grows_trans; eassumption]|].
  eauto.
Qed.

Lemma grows_printEnumsAndInputObjects types g g' :
  printEnumsAndInputObjects types g = Done tt g' -> grows g g'.
Proof.
  intros Hrun. apply stable_grows. unfold printEnumsAndInputObjects in Hrun.
  gen_inv.
  repeat match goal with
  | H : Gen.mapM _ _ _ = _ |- _ =>
      eapply keeps_mapM in H;
        [|intros t g1 a1 g1' Ht;
          unfold typeAliasForEnumType, typeAliasForInputObjectType in Ht;
          gen_inv; apply stable_enqueue]
  end.
  eapply stable_trans; [apply stable_enqueue|].
  eapply stable_trans; [eassumption|].
  eapply stable_trans; [eassumption|]. apply stable_enqueue.
Qed.
End CoreCalls.

(** C1 (as the code has it) -- The TypeScript emitter derives the variants
    and the merged fields itself: whenever [generateSource] returns, it has
    called [typeCaseForSelectionSet] on the root selection set of every
    operation and of every fragment of the context, and
    [collectAndMergeFields] on the first variant of every operation. *)
Theorem generateSource_derives_variants_and_fields
    {core : CoreVisitors} {lang : Language}
    (fuel : nat) (ctx : CompilerContext) (source : GeneratedSource) (g' : Generator) :
  generateSource fuel ctx = Done source g' ->
  let flag := mergeInFieldsFromFragmentSpreads (options ctx) in
  (forall operation, operation ∈ Object_values (operations ctx) ->
     CallTypeCase (operation_selectionSet operation) flag ∈ coreCalls g'
     /\ exists typeCase,
          typeCaseForSelectionSet (operation_selectionSet operation) flag = Ok typeCase
          /\ CallCollectAndMerge (exhaustiveVariants typeCase !! 0%nat) flag
               ∈ coreCalls g')
  /\ (forall fragment, fragment ∈ Object_values (fragments ctx) ->
        CallTypeCase (fragment_selectionSet fragment) flag ∈ coreCalls g').
Proof.
  intros Hrun flag. unfold generateSource, generateSourceM in Hrun. gen_inv.
  repeat match goal with
  | H : printAndClear _ = Done _ _ |- _ => apply grows_printAndClear in H
  | H : printEnumsAndInputObjects _ _ = Done ?u _ |- _ =>
      destruct u; apply grows_printEnumsAndInputObjects in H
  end.
  match goal with
  | Hops : Gen.mapM _ (Object_values (operations ctx)) _ = Done _ ?g1,
    Hfrs : Gen.mapM _ (Object_values (fragments ctx)) ?g1 = Done _ ?g2,
    Henum : grows _ ?g3, Hclear : grows ?g3 ?g4 |- context [coreCalls ?g4] =>
      apply mapM_elem in Hops;
        [|intros ? ? ? ? Hx; now apply grows_operationFile in Hx];
      apply mapM_elem in Hfrs;
        [|intros ? ? ? ? Hx; now apply grows_fragmentFile in Hx];
      destruct Hops as [Hg1 Hoperations]; destruct Hfrs as [Hg2 Hfragments];
      assert (Htail : grows g2 g4)
        by (eapply grows_trans; [apply stable_grows, stable_enqueue|];
            eapply grows_trans; eassumption)
  end.
  split.
  - intros operation Hin.
    destruct (Hoperations operation Hin) as (ga & file & gb & Hga & Hfile & Hgb).
    apply grows_operationFile in Hfile as (_ & gc & gd & Hgc & Hop & Hgd).
    pose proof (grows_trans _ _ _ Hga Hgc) as Hctx.
    destruct (interfacesForOperation_calls _ _ _ _ Hop) as [Hcase (tc & Htc & Hmerge)].
    rewrite (grows_context _ _ Hctx) in Hcase, Htc, Hmerge. simpl in *.
    match goal with
    | |- context [coreCalls ?g4] => assert (Hend : grows gd g4)
    end.
    { eapply grows_trans; [exact Hgd|]. eapply grows_trans; [exact Hgb|].
      eapply grows_trans; [exact Hg2|exact Htail]. }
    split; [eapply grows_call; eassumption|].
    exists tc. split; [assumption|eapply grows_call; eassumption].
  - intros fragment Hin.
    destruct (Hfragments fragment Hin) as (ga & file & gb & Hga & Hfile & Hgb).
    apply grows_fragmentFile in Hfile as (_ & gc & gd & Hgc & Hfr & Hgd).
    pose proof (grows_trans _ _ _ Hg1 (grows_trans _ _ _ Hga Hgc)) as Hctx.
    pose proof (interfacesForFragment_calls _ _ _ _ Hfr) as Hcase.
    rewrite (grows_context _ _ Hctx) in Hcase. simpl in *.
    eapply grows_call; [|exact Hcase].
    eapply grows_trans; [exact Hgd|]. eapply grows_trans; [exact Hgb|exact Htail].
Qed.

(** The document of the examples: its operation and both fragments have
    their variants computed by the emitter. *)
Lemma generateSource_derives_variants_and_fields_witness :
  exists source g',
    @generateSource SpecCore Examples.Underscore 3 Examples.documentContext
      = Done source g'
    /\ CallTypeCase Examples.resultSelection (Some true) ∈ coreCalls g'.
Proof.
  do 2 eexists. split; [vm_compute; reflexivity|].
  refine (proj2 (@generateSource_derives_variants_and_fields SpecCore
                   Examples.Underscore 3 Examples.documentContext _ _ _)
                Examples.fragmentF _).
  - vm_compute. reflexivity.
  - left.
Defined.

(** C1 (as the specification has it) fails: on the document of the
    examples [generateSource] itself calls the variant computation and the
    field merge of the core, first of all on the root selection set of the
    operation [Q] and on its only variant. *)
Lemma generateSource_invokes_core_counterexample :
  exists source g',
    @generateSource SpecCore Examples.Underscore 3 Examples.documentContext
      = Done source g'
    /\ coreCalls g' <> []
    /\ coreCalls g' !! 0%nat
       = Some (CallTypeCase (operation_selectionSet Examples.queryQ) (Some true))
    /\ coreCalls g' !! 1%nat
       = Some (CallCollectAndMerge
                 (Some (mkVariant [ObjectType "Query"]
                          (SelectionSet.selections
                             (operation_selectionSet Examples.queryQ))))
                 (Some true)).
Proof.
  do 2 eexists. split; [vm_compute; reflexivity|].
  split; [discriminate|]. split; reflexivity.
Qed.

(** ** The names derived for the variants of one selection set *)

Lemma string_app_cons x (a b : string) : String x a +:+ b = String x (a +:+ b).
Proof. reflexivity. Qed.

Lemma string_app_assoc (a b c : string) : (a +:+ b) +:+ c = a +:+ (b +:+ c).
Proof.
  induction a as [|x a IH]; [reflexivity|].
  now rewrite !string_app_cons, IH.
Qed.

Lemma string_app_cancel (a b c : string) : a +:+ b = a +:+ c -> b = c.
Proof.
  induction a as [|x a IH]; [trivial|].
  rewrite !string_app_cons. intros [= H]. auto.
Qed.

Lemma join_snoc sep (scope : list string) (a : string) :
  JS.join sep (scope ++ [a])
  = match scope with
    | [] => a
    | _ => JS.join sep scope +:+ sep +:+ a
    end.
Proof.
  unfold JS.join. induction scope as [|x scope IH]; [reflexivity|].
  destruct scope as [|y scope]; [reflexivity|].
  change (String.concat sep ((x :: y :: scope) ++ [a]))
    with (x +:+ sep +:+ String.concat sep ((y :: scope) ++ [a])).
  rewrite IH.
  change (String.concat sep (x :: y :: scope))
    with (x +:+ sep +:+ String.concat sep (y :: scope)).
  now rewrite !string_app_assoc.
Qed.

Lemma join_snoc_inj sep (scope : list string) (a b : string) :
  JS.join sep (scope ++ [a]) = JS.join sep (scope ++ [b]) -> a = b.
Proof.
  rewrite !join_snoc. destruct scope; [trivial|].
  intros H. now apply string_app_cancel, string_app_cancel in H.
Qed.

Section DerivedNames.
Context {core : CoreVisitors} {lang : Language}.

Lemma derivedName_NoDup scope variants names :
  Forall2 (derivedName scope) variants names ->
  exclusiveVariants variants -> NoDup names.
Proof.
  intros Hall Hexcl. apply NoDup_alt. intros i j name Hi Hj.
  destruct (Forall2_lookup_r _ _ _ _ _ Hall Hi) as (vi & Hvi & ti & Hti & Hni).
  destruct (Forall2_lookup_r _ _ _ _ _ Hall Hj) as (vj & Hvj & tj & Htj & Hnj).
  rewrite Hni in Hnj. apply join_snoc_inj in Hnj.
  assert (ti = tj) by (destruct ti, tj; simpl in *; congruence). subst tj.
  apply (Hexcl i j vi vj ti Hvi Hvj).
  - destruct (variant_possibleTypes vi); [discriminate|].
    injection Hti as ->. left.
  - destruct (variant_possibleTypes vj); [discriminate|].
    injection Htj as ->. left.
Qed.

Lemma firstPossibleTypeName_head variant typeName :
  firstPossibleTypeName variant = Ok typeName ->
  exists t, head (variant_possibleTypes variant) = Some t /\ typeName = toString t.
Proof.
  unfold firstPossibleTypeName.
  destruct (variant_possibleTypes variant) as [|t ts]; [discriminate|].
  intros [= <-]. eauto.
Qed.

Lemma handleFieldSelectionSetValue_variant_name gp variant g name g' :
  (forall v, keeps (gp v)) ->
  handleFieldSelectionSetValue_variant gp variant g = Done name g' ->
  derivedName (scopeStack g) variant name.
Proof.
  intros Hgp Hrun. unfold handleFieldSelectionSetValue_variant in Hrun. gen_inv.
  match goal with
  | H : firstPossibleTypeName _ = Ok _ |- _ =>
      apply firstPossibleTypeName_head in H as (t & Ht & ->)
  end.
  exists t. split; [assumption|].
  match goal with
  | H : gp _ _ = Done _ _ |- _ => apply Hgp in H; rewrite (stable_scope _ _ H)
  end.
  reflexivity.
Qed.

Lemma interfacesForFragment_variant_name fuel variant g name g' :
  interfacesForFragment_variant fuel variant g = Done name g' ->
  derivedName (scopeStack g) variant name.
Proof.
  intros Hrun. unfold interfacesForFragment_variant in Hrun. gen_inv.
  match goal with
  | H : firstPossibleTypeName _ = Ok _ |- _ =>
      apply firstPossibleTypeName_head in H as (t & Ht & ->)
  end.
  exists t. split; [assumption|]. simpl.
  match goal with
  | H : getPropertiesForVariant _ _ _ = Done _ _ |- _ =>
      apply keeps_getPropertiesForVariant in H; rewrite (stable_scope _ _ H)
  end.
  reflexivity.
Qed.

(** The names a loop over the variants returns. *)
Lemma variant_loop_names (body : Variant -> Gen.M string) variants g names g' :
  (forall v, keeps (body v)) ->
  (forall v g0 n g0', body v g0 = Done n g0' -> derivedName (scopeStack g0) v n) ->
  Gen.mapM body variants g = Done names g' ->
  stable g g' /\ Forall2 (derivedName (scopeStack g)) variants names.
Proof.
  intros Hkeeps Hname Hrun.
  apply (mapM_Done body (stable g) (derivedName (scopeStack g))) in Hrun;
    [exact Hrun| |apply stable_refl].
  intros v g0 n g0' _ Hg0 Hv. split.
  - eapply stable_trans; [exact Hg0|]. eapply Hkeeps, Hv.
  - rewrite <- (stable_scope _ _ Hg0). eapply Hname, Hv.
Qed.
End DerivedNames.

(** C7 (as the code has it) -- For a fragment or a field whose selection
    set yields several variants, no concrete type being in two of them,
    the names derived for the variants (the scope with the variant's first
    possible-type name pushed) are pairwise distinct; they are the members
    of the union alias that is queued last. *)
Theorem sibling_variant_names_distinct
    {core : CoreVisitors} {lang : Language}
    (fuel : nat) (g g' : Generator) (typeCase : TypeCase) :
  length (exhaustiveVariants typeCase) <> 1 ->
  exclusiveVariants (exhaustiveVariants typeCase) ->
  let flag := mergeInFieldsFromFragmentSpreads (options (context g)) in
  (forall fragment,
     typeCaseForSelectionSet (fragment_selectionSet fragment) flag = Ok typeCase ->
     interfacesForFragment fuel fragment g = Done tt g' ->
     exists names,
       Forall2 (derivedName (scopeStack g ++ [fragmentName fragment]))
               (exhaustiveVariants typeCase) names
       /\ NoDup names
       /\ last (printer g')
          = Some (Tree (exportDeclaration
                          (typeAliasGenericUnion
                             (nameFromScopeStack (scopeStack g ++ [fragmentName fragment]))
                             (map TSTypeReference names)))))
  /\ (forall field selectionSet generatedIdentifier property,
        Field.selectionSet field = Some selectionSet ->
        typeCaseForSelectionSet selectionSet flag = Ok typeCase ->
        handleFieldSelectionSetValue (getPropertiesForVariant fuel)
          generatedIdentifier field g = Done property g' ->
        exists names,
          Forall2 (derivedName (scopeStack g)) (exhaustiveVariants typeCase) names
          /\ NoDup names
          /\ last (printer g')
             = Some (Tree (exportDeclaration
                             (typeAliasGenericUnion generatedIdentifier
                                (map TSTypeReference names))))).
Proof.
  intros Hlen Hexcl flag. apply Nat.eqb_neq in Hlen. split.
  - intros fragment Hcase Hrun. unfold interfacesForFragment in Hrun. gen_inv.
    simpl in *. unfold flag in Hcase.
    match goal with
    | H : typeCaseForSelectionSet _ _ = Ok ?tc |- _ =>
        rewrite Hcase in H; injection H as <-
    end.
    rewrite Hlen in *. gen_inv.
    match goal with
    | H : Gen.mapM _ _ _ = Done ?names _ |- _ =>
        apply variant_loop_names in H;
          [destruct H as [Hst Hnames]; exists names
          |apply keeps_interfacesForFragment_variant
          |apply interfacesForFragment_variant_name]
    end.
    simpl in Hnames. split; [exact Hnames|].
    split; [eapply derivedName_NoDup; eassumption|].
    simpl. rewrite last_snoc. rewrite (stable_scope _ _ Hst). reflexivity.
  - intros field selectionSet generatedIdentifier property Hsel Hcase Hrun.
    unfold handleFieldSelectionSetValue in Hrun. rewrite Hsel in Hrun. gen_inv.
    unfold flag in Hcase.
    match goal with
    | H : typeCaseForSelectionSet _ _ = Ok ?tc |- _ =>
        rewrite Hcase in H; injection H as <-
    end.
    rewrite Hlen in *. gen_inv.
    match goal with
    | H : Gen.mapM _ _ _ = Done ?names _ |- _ =>
        apply variant_loop_names in H;
          [destruct H as [Hst Hnames]; exists names
          |intros v; apply keeps_handleFieldSelectionSetValue_variant,
                        keeps_getPropertiesForVariant
          |intros v g0 n g0'; apply handleFieldSelectionSetValue_variant_name,
                                 keeps_getPropertiesForVariant]
    end.
    simpl in Hnames. split; [exact Hnames|].
    split; [eapply derivedName_NoDup; eassumption|].
    simpl. now rewrite last_snoc.
Qed.

(** The fragment [F] of the examples: its two variants are named
    [F_Success] and [F_Failure]. *)
Lemma sibling_variant_names_distinct_witness :
  exists g' names,
    @interfacesForFragment SpecCore Examples.Underscore 3 Examples.fragmentF
      (newGenerator Examples.documentContext) = Done tt g'
    /\ Forall2 (@derivedName Examples.Underscore ["F"])
               [Examples.successVariant; Examples.failureVariant] names
    /\ NoDup names.
Proof.
  destruct (@interfacesForFragment SpecCore Examples.Underscore 3 Examples.fragmentF
              (newGenerator Examples.documentContext)) as [[] g'| |] eqn:Hrun;
    [|vm_compute in Hrun; discriminate..].
  exists g'.
  destruct (@sibling_variant_names_distinct SpecCore Examples.Underscore 3
              (newGenerator Examples.documentContext) g'
              (mkTypeCase [Examples.successVariant; Examples.failureVariant]))
    as [Hfragment _].
  - simpl. lia.
  - intros [|[|i]] [|[|j]] vi vj t; simpl; intros Hi Hj Hti Htj;
      try discriminate; try reflexivity;
      injection Hi as <-; injection Hj as <-; simpl in *;
      apply list_elem_of_singleton in Hti, Htj; subst; discriminate.
  - destruct (Hfragment Examples.fragmentF eq_refl Hrun)
      as (names & Hnames & Hnodup & _).
    exists names. split; [reflexivity|]. split; assumption.
Defined.

(** C7 (as the specification has it) fails: in the document of the
    examples the variant [Success] of fragment [F] and the fragment
    [F_Success] are both declared under the name [F_Success]. *)
Lemma derived_names_collide_counterexample :
  @documentNames SpecCore Examples.Underscore 3 Examples.documentContext
  = ["Q_result_Success"; "Q_result_Failure"; "Q_result"; "Q"; "QVariables";
     "F_Success"; "F_Failure"; "F"; "F_Success"]
  /\ ~ NoDup (@documentNames SpecCore Examples.Underscore 3 Examples.documentContext).
Proof.
  assert (Hnames :
    @documentNames SpecCore Examples.Underscore 3 Examples.documentContext
    = ["Q_result_Success"; "Q_result_Failure"; "Q_result"; "Q"; "QVariables";
       "F_Success"; "F_Failure"; "F"; "F_Success"]) by (vm_compute; reflexivity).
  split; [exact Hnames|]. rewrite Hnames. intros Hnodup.
  pose proof (NoDup_lookup _ 5 8 "F_Success" Hnodup eq_refl eq_refl).
  discriminate.
Qed.

(** ** The driver: what happens around the compiler call *)

Section GenerateFacts.
Context `{backends : Backends} {path : Path}.

Lemma quiet_refl w : quiet w w.
Proof. split; [reflexivity|]. exists []. now rewrite app_nil_r. Qed.

Lemma quiet_trans w1 w2 w3 : quiet w1 w2 -> quiet w2 w3 -> quiet w1 w3.
Proof.
  intros [Ho1 (a1 & He1 & Hf1)] [Ho2 (a2 & He2 & Hf2)]. split; [congruence|].
  exists (a1 ++ a2). split; [now rewrite He2, He1, app_assoc|].
  now rewrite List.filter_app, Hf1, Hf2.
Qed.

Lemma quietly_ret {A} (a : A) : quietly (Run.ret a).
Proof. intros w. apply quiet_refl. Qed.

Lemma quietly_raise {A} e : quietly (@Run.raise _ A e).
Proof. intros w. apply quiet_refl. Qed.

Lemma quietly_liftRes {A} (r : Res A) : quietly (Run.liftRes r).
Proof. destruct r; [apply quietly_ret|apply quietly_raise]. Qed.

Lemma quietly_gets {A} (f : World -> A) : quietly (Run.gets f).
Proof. intros w. apply quiet_refl. Qed.

Lemma quietly_bind {A B} (m : Run.M A) (k : A -> Run.M B) :
  quietly m -> (forall a, quietly (k a)) -> quietly (Run.bind m k).
Proof.
  intros Hm Hk w. unfold Run.bind. specialize (Hm w).
  destruct (m w) as [a w'|e w']; simpl in *; [|exact Hm].
  eapply quiet_trans; [exact Hm|apply Hk].
Qed.

Lemma quietly_forEach {A} (f : A -> Run.M unit) xs :
  (forall x, quietly (f x)) -> quietly (Run.forEach f xs).
Proof.
  intros Hf. induction xs as [|x xs IH]; simpl; [apply quietly_ret|].
  apply quietly_bind; [apply Hf|intros _; exact IH].
Qed.

Lemma quietly_foldM {A B} (f : B -> A -> Run.M B) xs :
  (forall acc x, quietly (f acc x)) -> forall acc, quietly (Run.foldM f acc xs).
Proof.
  intros Hf. induction xs as [|x xs IH]; intros acc; simpl; [apply quietly_ret|].
  apply quietly_bind; [apply Hf|intros acc'; apply IH].
Qed.

Lemma quietly_record ev : isCompileEvent ev = false -> quietly (record ev).
Proof.
  intros Hev w. split; [reflexivity|]. exists [ev]. split; [reflexivity|].
  simpl. now rewrite Hev.
Qed.

Lemma quietly_modify f :
  (forall w, callerOptions (f w) = callerOptions w) ->
  (forall w, events (f w) = events w) ->
  quietly (Run.modify f).
Proof.
  intros Ho He w. split; simpl; [apply Ho|].
  exists []. split; [now rewrite He, app_nil_r|reflexivity].
Qed.

Lemma quietly_setFs files : quietly (setFs files).
Proof. now apply quietly_modify. Qed.

Lemma quietly_addWritten n : quietly (addWritten n).
Proof. now apply quietly_modify. Qed.

Lemma quietly_existsSync p : quietly (existsSync p).
Proof. apply quietly_gets. Qed.

Lemma quietly_isDirectory p : quietly (isDirectory p).
Proof.
  apply quietly_bind; [apply quietly_gets|intros r; apply quietly_liftRes].
Qed.

Lemma quietly_mkdirSync p : quietly (mkdirSync p).
Proof.
  apply quietly_bind; [now apply quietly_record|intros _].
  apply quietly_bind; [apply quietly_gets|intros r].
  apply quietly_bind; [apply quietly_liftRes|intros files; apply quietly_setFs].
Qed.

Lemma quietly_writeFileSync p data : quietly (writeFileSync p data).
Proof.
  apply quietly_bind; [now apply quietly_record|intros _].
  apply quietly_bind; [apply quietly_gets|intros r].
  apply quietly_bind; [apply quietly_liftRes|intros files; apply quietly_setFs].
Qed.

Lemma quietly_existsAndIsDirectory p : quietly (existsAndIsDirectory p).
Proof.
  apply quietly_bind; [apply quietly_existsSync|intros [|]];
    [apply quietly_isDirectory|apply quietly_ret].
Qed.

Lemma quietly_writeGeneratedFiles files dir : quietly (writeGeneratedFiles files dir).
Proof. apply quietly_forEach. intros [name output]. apply quietly_writeFileSync. Qed.

Lemma quietly_writeOperationIdsMap ctx : quietly (writeOperationIdsMap ctx).
Proof.
  unfold writeOperationIdsMap.
  destruct (operationIdsPath (options ctx));
    [apply quietly_writeFileSync|apply quietly_raise].
Qed.

Lemma quietly_ensureOutputDirectory p : quietly (ensureOutputDirectory p).
Proof.
  unfold ensureOutputDirectory. destruct (Nat.leb _ 1); [|apply quietly_ret].
  apply quietly_bind; [apply quietly_existsSync|intros [|]];
    [apply quietly_ret|apply quietly_mkdirSync].
Qed.

End GenerateFacts.

(** Prove that a computation built from the quiet ones is quiet. *)
Ltac quiet_step :=
  first
    [ apply quietly_ret | apply quietly_raise | apply quietly_liftRes
    | apply quietly_gets | apply quietly_addWritten
    | apply quietly_existsSync | apply quietly_existsAndIsDirectory
    | apply quietly_mkdirSync | apply quietly_writeFileSync
    | apply quietly_writeGeneratedFiles | apply quietly_writeOperationIdsMap
    | apply quietly_record; reflexivity
    | apply quietly_foldM; intros
    | apply quietly_bind; [|intros]
    | match goal with
      | |- quietly (if ?c then _ else _) => destruct c
      | |- quietly (match ?x with _ => _ end) => destruct x
      end ].

Ltac quiet_auto := repeat quiet_step.

Section GenerateTheorems.
Context `{backends : Backends} {path : Path}.

(** What the directory step leaves behind when it returns. *)
Lemma ensureOutputDirectory_returned outputPath w w1 :
  ensureOutputDirectory outputPath w = Run.Returned tt w1 ->
  writtenFiles w1 = writtenFiles w
  /\ callerOptions w1 = callerOptions w
  /\ (events w1 = events w \/ events w1 = events w ++ [EvMkdirSync outputPath]).
Proof.
  unfold ensureOutputDirectory, existsSync, mkdirSync, record, setFs,
    Run.bind, Run.gets, Run.modify, Run.ret.
  destruct (Nat.leb _ 1); [|intros [= <-]; auto].
  destruct (fs_existsSync (fs w) outputPath); [intros [= <-]; auto|]. simpl.
  destruct (fs_mkdirSync (fs w) outputPath); simpl; [|discriminate].
  intros [= <-]. simpl. auto.
Qed.

Lemma compilesOnce_record_bind {A} ev (rest : Run.M A) w :
  quietly rest ->
  compilesOnce ev w (Run.outcomeWorld (Run.bind (record ev) (fun _ => rest) w)).
Proof.
  intros Hrest. unfold Run.bind, record, Run.modify.
  destruct (Hrest (mkWorld (fs w) (events w ++ [ev]) (callerOptions w) (writtenFiles w)))
    as [Ho (added & He & Hf)].
  simpl in *. split; [exact Ho|]. exists added. split; [|exact Hf].
  now rewrite He, <- app_assoc.
Qed.

Lemma compilesOnce_bind_quiet {A B} ev (m : Run.M A) (k : A -> Run.M B) w0 w :
  compilesOnce ev w0 (Run.outcomeWorld (m w)) -> (forall a, quietly (k a)) ->
  compilesOnce ev w0 (Run.outcomeWorld (Run.bind m k w)).
Proof.
  intros Hm Hk. unfold Run.bind. destruct (m w) as [a w'|e w']; simpl in *;
    [|exact Hm].
  destruct Hm as [Ho (added & He & Hf)].
  destruct (Hk a w') as [Ho' (added' & He' & Hf')].
  split; [congruence|]. exists (added ++ added'). split.
  - rewrite He', He, <- app_assoc. reflexivity.
  - now rewrite List.filter_app, Hf, Hf'.
Qed.

Lemma bind_gets {A B} (f : World -> A) (k : A -> Run.M B) w :
  Run.bind (Run.gets f) k w = k (f w) w.
Proof. reflexivity. Qed.

Lemma bind_modify {B} (f : World -> World) (k : unit -> Run.M B) w :
  Run.bind (Run.modify f) k w = k tt (f w).
Proof. reflexivity. Qed.

(** [generate] from the point where the document is loaded and validated
    and the output directory is in place. *)
Lemma generate_reaches_branch inputPaths schema outputPath only target tagName
    nextToSources w document w1 :
  loadAndMergeQueryDocuments (fs w) inputPaths tagName = Ok document ->
  validateQueryDocument schema document = Ok tt ->
  ensureOutputDirectory outputPath (entered w) = Run.Returned tt w1 ->
  exists branch : Run.M unit,
    generate inputPaths schema outputPath only target tagName nextToSources w
    = Run.bind branch (fun _ => Run.gets writtenFiles) w1
    /\ (forall w2, compilesOnce (compileEvent target (callerOptions w2))
                   (mkWorld (fs w2) (events w2)
                      (compiledOptions target (callerOptions w2)) (writtenFiles w2))
                   (Run.outcomeWorld (branch w2)))
    /\ (forall e,
          compileRaises target schema document (callerOptions w1) e ->
          branch w1
          = Run.Raised e
              (mkWorld (fs w1)
                 (events w1 ++ [compileEvent target (callerOptions w1)])
                 (compiledOptions target (callerOptions w1)) (writtenFiles w1))).
Proof.
  intros Hload Hvalid Hdir.
  unfold generate.
  unfold Run.bind at 1 2 3 4 5. unfold Run.modify at 1. unfold Run.gets at 1.
  simpl fs. rewrite Hload. simpl. rewrite Hvalid. simpl.
  change (mkWorld (fs w) (events w) (callerOptions w) 0) with (entered w).
  rewrite Hdir.
  eexists. split; [reflexivity|]. split.
  - intros w2. destruct target; simpl;
      rewrite ?bind_modify, ?bind_gets;
      unfold callCompileToIR, callCompileToLegacyIR;
      (apply compilesOnce_bind_quiet;
       [first [ apply (compilesOnce_record_bind _ _ (mkWorld _ _ _ _)); quiet_auto
              | apply compilesOnce_record_bind; quiet_auto ]
       |intros; unfold emitSwift, emitFlowOrTypescript, emitLegacy; quiet_auto]).
  - intros e Hraise. unfold compileRaises in Hraise.
    destruct target; unfold compileEvent, compiledOptions in *; simpl in *;
      unfold callCompileToIR, callCompileToLegacyIR,
        Run.bind, Run.modify, Run.gets, record, Run.liftRes; simpl;
      rewrite Hraise; reflexivity.
Qed.

End GenerateTheorems.

(** C5 -- Compilation fails atomically: when loading, validation or IR
    compilation raises an error, [generate] raises that error, no call to
    [fs.writeFileSync] has been made and the counter of written files is
    zero (at most the output directory has been created, when compilation
    is what fails). *)
Theorem generate_fails_before_writing
    `{backends : Backends} {path : Path}
    (inputPaths : list string) (schema : GraphQLSchema) (outputPath : string)
    (only : option string) (target : TargetType) (tagName : string)
    (nextToSources : bool) (w : World) (e : Exn) :
  compilationFails inputPaths schema outputPath target tagName w e ->
  exists w',
    generate inputPaths schema outputPath only target tagName nextToSources w
    = Run.Raised e w'
    /\ writtenFiles w' = 0
    /\ exists added, events w' = events w ++ added
                     /\ List.filter isWriteEvent added = []
                     /\ forall p data, EvWriteFileSync p data ∉ added.
Proof.
  assert (Hnone : forall added, List.filter isWriteEvent added = [] ->
                    forall p data, EvWriteFileSync p data ∉ added).
  { intros added Hf p data Hin%list_elem_of_In.
    assert (Hin' : In (EvWriteFileSync p data) (List.filter isWriteEvent added))
      by (apply List.filter_In; auto).
    rewrite Hf in Hin'. exact Hin'. }
  intros [Hload|document Hload Hvalid|document w1 Hload Hvalid Hdir Hraise].
  - eexists. split.
    + unfold generate, Run.bind, Run.modify, Run.gets. simpl. rewrite Hload.
      reflexivity.
    + simpl. split; [reflexivity|]. exists []. rewrite app_nil_r. auto.
  - eexists. split.
    + unfold generate, Run.bind, Run.modify, Run.gets. simpl. rewrite Hload.
      simpl. rewrite Hvalid. reflexivity.
    + simpl. split; [reflexivity|]. exists []. rewrite app_nil_r. auto.
  - destruct (generate_reaches_branch inputPaths schema outputPath only target
                tagName nextToSources w document w1 Hload Hvalid Hdir)
      as (branch & -> & _ & Hraised).
    apply ensureOutputDirectory_returned in Hdir as (Hwritten & Hopts & Hevents).
    simpl in Hwritten, Hopts, Hevents. rewrite <- Hopts in Hraise.
    unfold Run.bind. rewrite (Hraised e Hraise). eexists. split; [reflexivity|].
    simpl. split; [exact Hwritten|].
    destruct Hevents as [-> | ->].
    + eexists. split; [reflexivity|].
      assert (Hf : List.filter isWriteEvent [compileEvent target (callerOptions w1)] = [])
        by (unfold compileEvent; destruct (isLegacyTarget target); reflexivity).
      auto.
    + eexists. split; [now rewrite <- app_assoc|].
      assert (Hf : List.filter isWriteEvent
                     ([EvMkdirSync outputPath]
                      ++ [compileEvent target (callerOptions w1)]) = [])
        by (unfold compileEvent; destruct (isLegacyTarget target); reflexivity).
      auto.
Qed.

(** A document that fails validation and one that fails compilation, on
    an empty disk. *)
Lemma generate_fails_before_writing_witness :
  (exists w',
     @generate Examples.MemoryFS Examples.PathCore Examples.TextBackends
       Examples.PosixPath ["invalid.graphql"] tt "out" None target_typescript
       "gql" false Examples.emptyWorld
     = Run.Raised (Error "GraphQL validation error") w'
     /\ List.filter isWriteEvent (events w') = [] /\ writtenFiles w' = 0)
  /\ (exists w',
        @generate Examples.MemoryFS Examples.PathCore Examples.TextBackends
          Examples.PosixPath ["impossible.graphql"] tt "out" None target_swift
          "gql" false Examples.emptyWorld
        = Run.Raised (Error "ImpossibleFragmentSpread") w'
        /\ List.filter isWriteEvent (events w') = [] /\ writtenFiles w' = 0).
Proof.
  split.
  - destruct (@generate_fails_before_writing Examples.MemoryFS Examples.PathCore
                Examples.TextBackends Examples.PosixPath ["invalid.graphql"] tt "out"
                None target_typescript "gql" false Examples.emptyWorld
                (Error "GraphQL validation error"))
      as (w' & Hrun & Hwritten & added & Hevents & Hfilter & _).
    + eapply validation_fails; [vm_compute; reflexivity|vm_compute; reflexivity].
    + exists w'. split; [exact Hrun|]. split; [|exact Hwritten].
      rewrite Hevents. exact Hfilter.
  - destruct (@generate_fails_before_writing Examples.MemoryFS Examples.PathCore
                Examples.TextBackends Examples.PosixPath ["impossible.graphql"] tt
                "out" None target_swift "gql" false Examples.emptyWorld
                (Error "ImpossibleFragmentSpread"))
      as (w' & Hrun & Hwritten & added & Hevents & Hfilter & _).
    + eapply compilation_fails;
        [vm_compute; reflexivity|vm_compute; reflexivity|vm_compute; reflexivity
        |vm_compute; reflexivity].
    + exists w'. split; [exact Hrun|]. split; [|exact Hwritten].
      rewrite Hevents. exact Hfilter.
Defined.




(** ** More fuel changes nothing once there is enough *)

Lemma refines_refl {A} (m : Gen.M A) : refines m m.
Proof. intros g. now right. Qed.

Lemma refines_bind {A B} (m m' : Gen.M A) (k k' : A -> Gen.M B) :
  refines m m' -> (forall a, refines (k a) (k' a)) ->
  refines (Gen.bind m k) (Gen.bind m' k').
Proof.
  intros Hm Hk g. unfold Gen.bind.
  destruct (Hm g) as [-> | ->]; [now left|].
  destruct (m' g) as [a g1|e g1|]; [apply Hk|now right|now right].
Qed.

Lemma refines_mapM {A B} (f f' : A -> Gen.M B) (xs : list A) :
  (forall x, refines (f x) (f' x)) -> refines (Gen.mapM f xs) (Gen.mapM f' xs).
Proof.
  intros Hf. induction xs as [|x xs IH]; simpl; [apply refines_refl|].
  apply refines_bind; [apply Hf|intros y].
  apply refines_bind; [exact IH|intros ys; apply refines_refl].
Qed.

Section Fuel.
Context {core : CoreVisitors} {lang : Language}.

Lemma refines_handleFieldSelectionSetValue_variant gp gp' variant :
  (forall v, refines (gp v) (gp' v)) ->
  refines (handleFieldSelectionSetValue_variant gp variant)
          (handleFieldSelectionSetValue_variant gp' variant).
Proof.
  intros Hgp. unfold handleFieldSelectionSetValue_variant.
  repeat (apply refines_bind; [first [apply Hgp|apply refines_refl]|intros]).
  apply refines_refl.
Qed.

Lemma refines_handleFieldSelectionSetValue gp gp' generatedIdentifier field :
  (forall v, refines (gp v) (gp' v)) ->
  refines (handleFieldSelectionSetValue gp generatedIdentifier field)
          (handleFieldSelectionSetValue gp' generatedIdentifier field).
Proof.
  intros Hgp. unfold handleFieldSelectionSetValue.
  apply refines_bind; [apply refines_refl|intros selectionSet].
  apply refines_bind; [apply refines_refl|intros typeCase].
  apply refines_bind; [|intros; apply refines_refl].
  destruct (Nat.eqb _ 1).
  - apply refines_bind; [apply Hgp|intros; apply refines_refl].
  - apply refines_bind; [|intros; apply refines_refl].
    apply refines_mapM. intros variant.
    now apply refines_handleFieldSelectionSetValue_variant.
Qed.

Lemma refines_getPropertiesForVariant_field gp gp' variant field :
  (forall v, refines (gp v) (gp' v)) ->
  refines (getPropertiesForVariant_field gp variant field)
          (getPropertiesForVariant_field gp' variant field).
Proof.
  intros Hgp. unfold getPropertiesForVariant_field.
  apply refines_bind; [apply refines_refl|intros _].
  apply refines_bind; [|intros; apply refines_refl].
  destruct (Field.selectionSet field); [|apply refines_refl].
  apply refines_bind; [apply refines_refl|intros scope].
  now apply refines_handleFieldSelectionSetValue.
Qed.

Lemma getPropertiesForVariant_S fuel :
  forall variant,
    refines (getPropertiesForVariant fuel variant)
            (getPropertiesForVariant (S fuel) variant).
Proof.
  induction fuel as [|fuel IH]; intros variant.
  - intros g. now left.
  - change (getPropertiesForVariant (S (S fuel)) variant) with
      (Gen.bind (Gen.gets (fun g => mergeInFieldsFromFragmentSpreads (options (context g))))
         (fun flag =>
            Gen.bind (recordCall (CallCollectAndMerge variant flag)) (fun _ =>
            Gen.bind (Gen.liftRes (collectAndMergeFields variant flag)) (fun fields =>
              Gen.mapM (getPropertiesForVariant_field
                          (getPropertiesForVariant (S fuel)) variant) fields)))).
    simpl getPropertiesForVariant at 1.
    apply refines_bind; [apply refines_refl|intros flag].
    apply refines_bind; [apply refines_refl|intros _].
    apply refines_bind; [apply refines_refl|intros fields].
    apply refines_mapM. intros field.
    apply refines_getPropertiesForVariant_field. exact IH.
Qed.

Lemma refines_interfacesForOperation fuel operation :
  refines (interfacesForOperation fuel operation)
          (interfacesForOperation (S fuel) operation).
Proof.
  unfold interfacesForOperation, interfacesForOperationFrom.
  apply refines_bind; [apply refines_refl|intros _].
  apply refines_bind; [apply refines_refl|intros _].
  apply refines_bind; [apply refines_refl|intros variants].
  apply refines_bind; [apply getPropertiesForVariant_S|intros; apply refines_refl].
Qed.

Lemma refines_interfacesForFragment fuel fragment :
  refines (interfacesForFragment fuel fragment)
          (interfacesForFragment (S fuel) fragment).
Proof.
  unfold interfacesForFragment.
  apply refines_bind; [apply refines_refl|intros _].
  apply refines_bind; [apply refines_refl|intros _].
  apply refines_bind; [apply refines_refl|intros variants].
  apply refines_bind; [|intros; apply refines_refl].
  destruct (Nat.eqb _ 1).
  - apply refines_bind; [apply getPropertiesForVariant_S|intros; apply refines_refl].
  - apply refines_bind; [|intros; apply refines_refl].
    apply refines_mapM. intros variant. unfold interfacesForFragment_variant.
    apply refines_bind; [apply refines_refl|intros typeName].
    apply refines_bind; [apply refines_refl|intros _].
    apply refines_bind; [apply getPropertiesForVariant_S|intros; apply refines_refl].
Qed.

Lemma refines_generateSourceM fuel ctx :
  refines (generateSourceM fuel ctx) (generateSourceM (S fuel) ctx).
Proof.
  unfold generateSourceM.
  apply refines_bind.
  { apply refines_mapM. intros operation.
    apply refines_bind; [apply refines_refl|intros _].
    apply refines_bind; [apply refines_interfacesForOperation|intros].
    apply refines_refl. }
  intros operationFiles. apply refines_bind; [|intros; apply refines_refl].
  apply refines_mapM. intros fragment.
  apply refines_bind; [apply refines_refl|intros _].
  apply refines_bind; [apply refines_interfacesForFragment|intros].
  apply refines_refl.
Qed.

(** Once [generateSource] has an outcome, more fuel gives the same one. *)
Lemma generateSource_more_fuel fuel extra ctx source g :
  generateSource fuel ctx = Done source g ->
  generateSource (extra + fuel) ctx = Done source g.
Proof.
  intros Hrun. induction extra as [|extra IH]; [exact Hrun|].
  unfold generateSource in *.
  destruct (refines_generateSourceM (extra + fuel) ctx (newGenerator ctx))
    as [Hout | Heq].
  - rewrite IH in Hout. discriminate.
  - simpl. rewrite <- Heq. exact IH.
Qed.

End Fuel.

(** ** With the core of the specification the emitter terminates *)

Lemma depthSelection_field_some n a d t pts sels :
  depthSelection (FieldSelection (mkField n a d t (Some (mkSelectionSet pts sels))))
  = S (depthSelections sels).
Proof. reflexivity. Qed.

Lemma depthSelection_typeCondition t pts sels :
  depthSelection (TypeCondition t (mkSelectionSet pts sels)) = depthSelections sels.
Proof. reflexivity. Qed.

Lemma depthSelection_fragmentSpread n pts sels :
  depthSelection (FragmentSpread n (mkSelectionSet pts sels)) = depthSelections sels.
Proof. reflexivity. Qed.

Lemma depthSelections_elem s sels :
  s ∈ sels -> depthSelection s <= depthSelections sels.
Proof.
  induction sels as [|s' sels IH]; intros Hin; [inversion Hin|].
  apply elem_of_cons in Hin as [->|Hin]; simpl; [lia|].
  specialize (IH Hin). lia.
Qed.

Lemma depthSelections_bound sels d :
  (forall s, s ∈ sels -> depthSelection s <= d) -> depthSelections sels <= d.
Proof.
  induction sels as [|s sels IH]; intros Hall; simpl; [lia|].
  assert (depthSelection s <= d) by (apply Hall; left).
  assert (depthSelections sels <= d) by (apply IH; intros; apply Hall; now right).
  lia.
Qed.

Lemma depthSelections_app a b :
  depthSelections (a ++ b) = Nat.max (depthSelections a) (depthSelections b).
Proof. induction a as [|s a IH]; simpl; [reflexivity|]. rewrite IH. lia. Qed.

(** Induction on selections that reaches the selections nested in them. *)
Lemma Selection_nested_ind (P : Selection -> Prop) :
  (forall n a d t, P (FieldSelection (mkField n a d t None))) ->
  (forall n a d t pts sels,
     Forall P sels -> P (FieldSelection (mkField n a d t (Some (mkSelectionSet pts sels))))) ->
  (forall t pts sels, Forall P sels -> P (TypeCondition t (mkSelectionSet pts sels))) ->
  (forall n pts sels, Forall P sels -> P (FragmentSpread n (mkSelectionSet pts sels))) ->
  forall s, P s.
Proof.
  intros Hleaf Hfield Hcond Hspread.
  refine (fix IH (s : Selection) {struct s} : P s :=
            match s with
            | FieldSelection (mkField n a d t None) => Hleaf n a d t
            | FieldSelection (mkField n a d t (Some (mkSelectionSet pts sels))) =>
                Hfield n a d t pts sels
                  ((fix all (l : list Selection) : Forall P l :=
                      match l with
                      | [] => @List.Forall_nil _ P
                      | s' :: l' => @List.Forall_cons _ P s' l' (IH s') (all l')
                      end) sels)
            | TypeCondition t (mkSelectionSet pts sels) =>
                Hcond t pts sels
                  ((fix all (l : list Selection) : Forall P l :=
                      match l with
                      | [] => @List.Forall_nil _ P
                      | s' :: l' => @List.Forall_cons _ P s' l' (IH s') (all l')
                      end) sels)
            | FragmentSpread n (mkSelectionSet pts sels) =>
                Hspread n pts sels
                  ((fix all (l : list Selection) : Forall P l :=
                      match l with
                      | [] => @List.Forall_nil _ P
                      | s' :: l' => @List.Forall_cons _ P s' l' (IH s') (all l')
                      end) sels)
            end).
Qed.

Lemma flatten_inner_elem mergeSpreads types enclosing sels f :
  f ∈ (fix inner (l : list Selection) {struct l} : list Field :=
         match l with
         | [] => []
         | s' :: l' =>
             FieldMergeEngine.flatten mergeSpreads types enclosing s' ++ inner l'
         end) sels ->
  exists s, s ∈ sels /\ f ∈ FieldMergeEngine.flatten mergeSpreads types enclosing s.
Proof.
  induction sels as [|s sels IH]; intros Hin; [inversion Hin|].
  apply elem_of_app in Hin as [Hin|Hin].
  - exists s. split; [left|assumption].
  - destruct (IH Hin) as (s' & ? & ?). exists s'. split; [now right|assumption].
Qed.

Lemma flatten_depth mergeSpreads types s :
  forall enclosing f,
    f ∈ FieldMergeEngine.flatten mergeSpreads types enclosing s ->
    depthField f <= depthSelection s.
Proof.
  induction s as [n a d t|n a d t pts sels IH|t pts sels IH|n pts sels IH]
    using Selection_nested_ind; intros enclosing f Hin.
  - apply list_elem_of_singleton in Hin as ->. reflexivity.
  - apply list_elem_of_singleton in Hin as ->. reflexivity.
  - rewrite depthSelection_typeCondition. simpl in Hin.
    destruct (forallb _ types); [|inversion Hin].
    apply flatten_inner_elem in Hin as (s & Hs & Hf).
    rewrite Forall_forall in IH.
    etransitivity; [apply (IH s Hs _ f Hf)|now apply depthSelections_elem].
  - rewrite depthSelection_fragmentSpread. simpl in Hin.
    destruct (forallb _ types); [|inversion Hin].
    destruct (negb mergeSpreads && _); [inversion Hin|].
    apply flatten_inner_elem in Hin as (s & Hs & Hf).
    rewrite Forall_forall in IH.
    etransitivity; [apply (IH s Hs _ f Hf)|now apply depthSelections_elem].
Qed.

Lemma depthField_merged g f :
  depthField (mkField (Field.name g) (Field.alias g) (Field.description g)
                (Field.type g)
                (FieldMergeEngine.mergeSelectionSets (Field.selectionSet g)
                   (Field.selectionSet f)))
  <= Nat.max (depthField g) (depthField f).
Proof.
  destruct g as [gn ga gd gt [[gp gs]|]], f as [fn fa fd ft [[fp fs]|]];
    unfold depthField; simpl FieldMergeEngine.mergeSelectionSets;
    simpl Field.name; simpl Field.alias; simpl Field.description; simpl Field.type;
    rewrite ?depthSelection_field_some; simpl SelectionSet.selections;
    rewrite ?depthSelections_app; simpl; lia.
Qed.

Lemma mergeInto_depth d f : depthField f <= d ->
  forall seen seen',
    FieldMergeEngine.mergeInto f seen = Ok seen' ->
    (forall g, g ∈ seen -> depthField g <= d) ->
    forall g, g ∈ seen' -> depthField g <= d.
Proof.
  intros Hf. induction seen as [|g0 seen IH]; intros seen' Hmerge Hseen g Hg;
    simpl in Hmerge.
  - injection Hmerge as <-. apply list_elem_of_singleton in Hg as ->. exact Hf.
  - destruct (String.eqb _ _).
    + destruct (bool_decide _); [|discriminate]. injection Hmerge as <-.
      apply elem_of_cons in Hg as [->|Hg]; [|apply Hseen; now right].
      pose proof (depthField_merged g0 f).
      assert (depthField g0 <= d) by (apply Hseen; left). lia.
    + destruct (FieldMergeEngine.mergeInto f seen) as [rest|] eqn:Hrest;
        [|discriminate].
      injection Hmerge as <-.
      apply elem_of_cons in Hg as [->|Hg]; [apply Hseen; left|].
      eapply IH; [reflexivity| |exact Hg]. intros; apply Hseen; now right.
Qed.

Lemma mergeAll_depth d fs :
  (forall f, f ∈ fs -> depthField f <= d) ->
  forall seen merged,
    FieldMergeEngine.mergeAll fs seen = Ok merged ->
    (forall g, g ∈ seen -> depthField g <= d) ->
    forall g, g ∈ merged -> depthField g <= d.
Proof.
  induction fs as [|f fs IH]; intros Hfs seen merged Hmerge Hseen; simpl in Hmerge.
  - injection Hmerge as <-. exact Hseen.
  - destruct (FieldMergeEngine.mergeInto f seen) as [seen'|] eqn:Hinto;
      [|discriminate].
    eapply IH; [intros; apply Hfs; now right|exact Hmerge|].
    eapply mergeInto_depth; [apply Hfs; left|exact Hinto|exact Hseen].
Qed.

Lemma mergedFields_depth mergeSpreads v fields :
  FieldMergeEngine.mergedFields mergeSpreads v = Ok fields ->
  forall f, f ∈ fields -> depthField f <= depthSelections (variant_selections v).
Proof.
  unfold FieldMergeEngine.mergedFields. intros Hmerge.
  eapply mergeAll_depth; [|exact Hmerge|intros g Hg; inversion Hg].
  intros f Hf. apply list_elem_of_In, in_flat_map in Hf as (s & Hs & Hf).
  apply list_elem_of_In in Hs, Hf.
  etransitivity; [eapply flatten_depth, Hf|now apply depthSelections_elem].
Qed.

(** Scenario D of the specification: [name] comes out once.  With the
    mode off this holds for a fragment on a wider type than the variant;
    the fields of a spread on the exact type of the enclosing selection
    stay out of the list. *)
Lemma mergedFields_scenario_D :
  FieldMergeEngine.mergedFields true
    (scenarioD [ObjectType "Dog"] [ObjectType "Dog"]) = Ok [nameField]
  /\ FieldMergeEngine.mergedFields false
       (scenarioD [ObjectType "Dog"; ObjectType "Cat"] [ObjectType "Dog"])
     = Ok [nameField]
  /\ FieldMergeEngine.mergedFields false
       (scenarioD [ObjectType "Dog"] [ObjectType "Dog"]) = Ok [].
Proof. repeat split; vm_compute; reflexivity. Qed.

Lemma variantsFor_depth sel variants :
  VariantEngine.variantsFor sel = Ok variants ->
  forall v, v ∈ variants ->
    depthSelections (variant_selections v) <= depthSelectionSet sel.
Proof.
  unfold VariantEngine.variantsFor. destruct (existsb _ _); [discriminate|].
  intros [= <-] v (group & -> & _)%elem_of_map.
  unfold VariantEngine.variantOfGroup. simpl.
  destruct (group.2) as [|t ts]; [simpl; lia|].
  apply depthSelections_bound. intros s Hs%list_elem_of_filter.
  now apply depthSelections_elem.
Qed.

Lemma terminates_ret {A} (a : A) : terminates (Gen.ret a).
Proof. intros g. discriminate. Qed.

Lemma terminates_liftRes {A} (r : Res A) : terminates (Gen.liftRes r).
Proof. intros g. destruct r; discriminate. Qed.

Lemma terminates_bind {A B} (m : Gen.M A) (k : A -> Gen.M B) :
  terminates m ->
  (forall g a g', m g = Done a g' -> k a g' <> OutOfFuel) ->
  terminates (Gen.bind m k).
Proof.
  intros Hm Hk g. unfold Gen.bind. specialize (Hm g).
  destruct (m g) as [a g'|e g'|] eqn:Hrun; [eapply Hk, Hrun|discriminate|contradiction].
Qed.

Lemma terminates_mapM {A B} (f : A -> Gen.M B) (xs : list A) :
  (forall x, x ∈ xs -> terminates (f x)) -> terminates (Gen.mapM f xs).
Proof.
  induction xs as [|x xs IH]; intros Hf; simpl; [apply terminates_ret|].
  apply terminates_bind; [apply Hf; left|intros g y g' _].
  apply terminates_bind; [apply IH; intros; apply Hf; now right|intros; discriminate].
Qed.

(** Prove termination of a sequence of steps that cannot run out of fuel
    themselves, leaving the calls that recurse. *)
Ltac terminates_step :=
  first
    [ apply terminates_ret | apply terminates_liftRes
    | match goal with
      | |- terminates (enqueue _) => intros ?; discriminate
      | |- terminates (recordCall _) => intros ?; discriminate
      | |- terminates (scopeStackPush _) => intros ?; discriminate
      | |- terminates scopeStackPop => intros ?; discriminate
      | |- terminates printAndClear => intros ?; discriminate
      | |- terminates fileHeader => intros ?; discriminate
      | |- terminates (Gen.gets _) => intros ?; discriminate
      | |- terminates (Gen.throw _) => intros ?; discriminate
      | |- Gen.ret _ _ <> OutOfFuel => discriminate
      | |- ?m ?g <> OutOfFuel => revert g; change (terminates m)
      end ].

(** Split a sequence of steps into the parts whose termination is not
    immediate. *)
Ltac terminates_auto :=
  repeat first
    [ terminates_step
    | apply terminates_bind; [|intros ? ? ? ?]
    | apply terminates_mapM; intros ? ? ].

Section Termination.
Context {lang : Language}.
Existing Instance SpecCore.

Lemma terminates_getTypeCasesForSelectionSet sel :
  terminates (getTypeCasesForSelectionSet sel).
Proof. unfold getTypeCasesForSelectionSet. terminates_auto. Qed.

(** The variants the core returns for a selection set are no deeper than
    the selection set. *)
Lemma getTypeCasesForSelectionSet_depth sel g typeCase g' :
  getTypeCasesForSelectionSet sel g = Done typeCase g' ->
  forall v, v ∈ exhaustiveVariants typeCase ->
    depthSelections (variant_selections v) <= depthSelectionSet sel.
Proof.
  intros Hrun. unfold getTypeCasesForSelectionSet in Hrun. gen_inv.
  match goal with H : typeCaseForSelectionSet _ _ = Ok _ |- _ => simpl in H end.
  destruct (VariantEngine.variantsFor sel) as [variants|] eqn:Hvariants;
    [|discriminate].
  match goal with H : Ok _ = Ok _ |- _ => injection H as <- end.
  simpl. now apply variantsFor_depth.
Qed.

Lemma terminates_getPropertiesForVariant fuel :
  forall variant,
    (forall v, variant = Some v -> depthSelections (variant_selections v) < fuel) ->
    0 < fuel ->
    terminates (getPropertiesForVariant fuel variant).
Proof.
  induction fuel as [|fuel IH]; intros variant Hdepth Hfuel; [lia|].
  simpl getPropertiesForVariant. terminates_auto.
  match goal with
  | H : Gen.liftRes _ _ = Done ?fields _, Hin : ?field ∈ ?fields |- _ =>
      apply liftRes_Done in H as [Hfields _]; rename Hin into Hfield
  end.
  destruct variant as [v|]; [|discriminate]. specialize (Hdepth v eq_refl).
  match goal with
  | Hfield : ?field ∈ _ |- _ =>
      pose proof (mergedFields_depth _ _ _ Hfields field Hfield) as Hfd;
      destruct field as [fname falias fdescr ftype [[pts sels]|]]
  end; simpl Field.selectionSet; [|intros; terminates_auto].
  unfold depthField in Hfd. rewrite depthSelection_field_some in Hfd.
  assert (Hnested : forall v', depthSelections (variant_selections v')
                               <= depthSelections sels ->
                               terminates (getPropertiesForVariant fuel (Some v'))).
  { intros v' Hv'. apply IH; [intros ? [= <-]|]; lia. }
  unfold handleFieldSelectionSetValue. simpl Field.selectionSet.
  apply terminates_bind; [terminates_auto|intros g4 scope g4' _].
  apply terminates_bind; [terminates_auto|intros g5 sel g5' [-> _]%ret_Done].
  apply terminates_bind;
    [apply terminates_getTypeCasesForSelectionSet|intros g6 typeCase g6' Hcase].
  pose proof (getTypeCasesForSelectionSet_depth _ _ _ _ Hcase) as Hvariants.
  unfold depthSelectionSet in Hvariants. simpl in Hvariants.
  apply terminates_bind; [|intros; terminates_auto].
  destruct (Nat.eqb _ 1) eqn:Hlen.
  - destruct (exhaustiveVariants typeCase) as [|v' rest] eqn:Hvs; [discriminate|].
    apply terminates_bind; [|intros; terminates_auto].
    apply Hnested, Hvariants. left.
  - unfold handleFieldSelectionSetValue_variant. terminates_auto.
    apply Hnested, Hvariants. assumption.
Qed.

Lemma terminates_rootVariant fuel sel g typeCase g' variant :
  getTypeCasesForSelectionSet sel g = Done typeCase g' ->
  depthSelectionSet sel < fuel ->
  variant ∈ exhaustiveVariants typeCase ->
  terminates (getPropertiesForVariant fuel (Some variant)).
Proof.
  intros Hcase Hdepth Hin.
  pose proof (getTypeCasesForSelectionSet_depth _ _ _ _ Hcase variant Hin).
  apply terminates_getPropertiesForVariant; [intros ? [= <-]|]; lia.
Qed.

Lemma terminates_interfacesForOperation fuel operation :
  depthSelectionSet (operation_selectionSet operation) < fuel ->
  terminates (interfacesForOperation fuel operation).
Proof.
  intros Hdepth.
  unfold interfacesForOperation, interfacesForOperationFrom,
    getVariantsForSelectionSet.
  apply terminates_bind; [terminates_auto|intros g0 [] g0' _].
  apply terminates_bind; [terminates_auto|intros g1 [] g1' _].
  apply terminates_bind;
    [apply terminates_bind;
       [apply terminates_getTypeCasesForSelectionSet|intros; terminates_auto]
    |intros g2 variants g2' (typeCase & g3 & Hcase & [-> _]%ret_Done)%bind_Done].
  apply terminates_bind.
  - destruct (exhaustiveVariants typeCase) as [|v rest] eqn:Hvs; simpl.
    + apply terminates_getPropertiesForVariant; [discriminate|lia].
    + eapply terminates_rootVariant; [exact Hcase|exact Hdepth|].
      rewrite Hvs. left.
  - intros. terminates_auto. destruct (Nat.ltb 0 _); terminates_auto.
Qed.

Lemma terminates_interfacesForFragment fuel fragment :
  depthSelectionSet (fragment_selectionSet fragment) < fuel ->
  terminates (interfacesForFragment fuel fragment).
Proof.
  intros Hdepth. unfold interfacesForFragment, getVariantsForSelectionSet.
  apply terminates_bind; [terminates_auto|intros g0 [] g0' _].
  apply terminates_bind; [terminates_auto|intros g1 [] g1' _].
  apply terminates_bind;
    [apply terminates_bind;
       [apply terminates_getTypeCasesForSelectionSet|intros; terminates_auto]
    |intros g2 variants g2' (typeCase & g3 & Hcase & [-> _]%ret_Done)%bind_Done].
  apply terminates_bind; [|intros; terminates_auto].
  destruct (Nat.eqb _ 1) eqn:Hlen.
  - destruct (exhaustiveVariants typeCase) as [|v rest] eqn:Hvs; [discriminate|].
    apply terminates_bind; [|intros; terminates_auto].
    eapply terminates_rootVariant; [exact Hcase|exact Hdepth|]. rewrite Hvs. left.
  - unfold interfacesForFragment_variant. terminates_auto.
    eapply terminates_rootVariant; [exact Hcase|exact Hdepth|assumption].
Qed.

Lemma foldr_max_elem (n : nat) (ns : list nat) : n ∈ ns -> n <= foldr Nat.max 0 ns.
Proof.
  induction ns as [|m ns IH]; intros Hin; [inversion Hin|].
  apply elem_of_cons in Hin as [->|Hin]; simpl; [lia|].
  specialize (IH Hin). lia.
Qed.

(** With the core of the specification, a budget above the nesting depth
    of the context's selection sets is enough for [generateSource]: it
    returns or throws. *)
Lemma generateSource_terminates fuel ctx :
  depthContext ctx < fuel -> generateSource fuel ctx <> OutOfFuel.
Proof.
  intros Hdepth. unfold generateSource. generalize (newGenerator ctx).
  change (terminates (generateSourceM fuel ctx)). unfold generateSourceM.
  apply terminates_bind.
  { apply terminates_mapM. intros operation Hin.
    apply terminates_bind; [terminates_auto|intros g0 [] g0' _].
    apply terminates_bind; [|intros; terminates_auto].
    apply terminates_interfacesForOperation.
    eapply Nat.le_lt_trans; [|exact Hdepth]. apply foldr_max_elem, elem_of_app.
    left. apply elem_of_map. eauto. }
  intros g0 operationFiles g0' _. apply terminates_bind.
  { apply terminates_mapM. intros fragment Hin.
    apply terminates_bind; [terminates_auto|intros g1 [] g1' _].
    apply terminates_bind; [|intros; terminates_auto].
    apply terminates_interfacesForFragment.
    eapply Nat.le_lt_trans; [|exact Hdepth]. apply foldr_max_elem, elem_of_app.
    right. apply elem_of_map. eauto. }
  intros g1 fragmentFiles g1' _. unfold printEnumsAndInputObjects, Gen.forEach,
    typeAliasForEnumType, typeAliasForInputObjectType.
  terminates_auto.
Qed.

End Termination.

(** ** [getTypesUsedForOperation] *)

Section TypesUsedFacts.
Context {catalogue : TypeCatalogue}.

(** X1 -- When [getTypesUsedForOperation] returns, its result is the part
    of [context.typesUsed] that was collected for the document: a sublist
    in the catalogue's order, without duplicates if the catalogue has
    none, and with no type from outside the catalogue. *)
Theorem getTypesUsedForOperation_sublist
    (fuel : nat) (doc : Document) (ctx : CompilerContext) (result : list GraphQLType) :
  getTypesUsedForOperation fuel doc ctx = Some result ->
  result `sublist_of` typesUsed ctx
  /\ (forall t, t ∈ result -> t ∈ typesUsed ctx)
  /\ (NoDup (typesUsed ctx) -> NoDup result).
Proof.
  unfold getTypesUsedForOperation.
  destruct (reduceM _ _ _) as [collected|]; [|discriminate]. intros [= <-].
  assert (Hsub : List.filter (fun type => bool_decide (type ∈ collected)) (typesUsed ctx)
                 `sublist_of` typesUsed ctx).
  { induction (typesUsed ctx) as [|t ts IH]; simpl; [constructor|].
    destruct (bool_decide _); [now apply sublist_skip|now apply sublist_cons]. }
  split; [exact Hsub|]. split.
  - intros t Ht. eapply elem_of_sublist; eassumption.
  - intros Hnodup. eapply sublist_NoDup; eassumption.
Qed.

Lemma pruneSelection_reduce s :
  forall acc, reduceTypesForSelection acc (pruneSelection s)
              = reduceTypesForSelection acc s.
Proof.
  induction s as [n a d t|n a d t pts sels IH|t pts sels IH|n pts sels IH]
    using Selection_nested_ind; intros acc; try reflexivity.
  simpl. generalize (foldl maybePush acc (map GraphQLObject pts)). clear acc.
  induction IH as [|s sels Hs Hsels IHsels]; intros acc; simpl; [reflexivity|].
  rewrite Hs. apply IHsels.
Qed.

Lemma pruneSelectionSet_reduce sel acc :
  reduceTypesForDocument (pruneSelectionSet sel) acc = reduceTypesForDocument sel acc.
Proof.
  unfold reduceTypesForDocument, pruneSelectionSet. simpl.
  generalize (foldl maybePush acc (map GraphQLObject (SelectionSet.possibleTypes sel))).
  clear acc. induction (SelectionSet.selections sel) as [|s sels IH]; intros acc;
    simpl; [reflexivity|].
  rewrite pruneSelection_reduce. apply IH.
Qed.

(** X2 -- [getTypesUsedForOperation] reads the types of the selections at
    the top of the document and of the fragments spread there, and nothing
    below: the selection sets nested in fields and in type conditions do
    not change its result. *)
Theorem getTypesUsedForOperation_ignores_nested_selections
    (fuel : nat) (doc : Document) (ctx : CompilerContext) :
  getTypesUsedForOperation fuel (pruneDocument doc) ctx
  = getTypesUsedForOperation fuel doc ctx.
Proof.
  unfold getTypesUsedForOperation.
  destruct doc as [o|f]; simpl; now rewrite pruneSelectionSet_reduce.
Qed.

Lemma reduceM_None {A B} (f : B -> A -> option B) xs x :
  x ∈ xs -> (forall acc, f acc x = None) -> forall acc, reduceM f acc xs = None.
Proof.
  intros Hin Hx. induction xs as [|y xs IH]; intros acc; [inversion Hin|].
  simpl. apply elem_of_cons in Hin as [<-|Hin]; [now rewrite Hx|].
  destruct (f acc y); [now apply IH|reflexivity].
Qed.

(** A type that has itself among its field types, once these are
    unwrapped, sends [reduceTypesUsed] into a recursion without end. *)
Lemma reduceTypesUsed_self_reference (type fieldType : GraphQLType) (key : string) :
  isInputObjectType type || isObjectType type = true ->
  (key, fieldType) ∈ getFields type ->
  unwrapOnce fieldType = type ->
  forall fuel acc t, unwrapOnce t = type -> reduceTypesUsed fuel acc t = None.
Proof.
  intros Hkind Hfield Hunwrap.
  induction fuel as [|fuel IH]; intros acc t Ht; [reflexivity|].
  simpl. rewrite Ht, Hkind.
  apply reduceM_None with (x := fieldType); [|intros; now apply IH].
  apply elem_of_map. exists (key, fieldType). auto.
Qed.

Lemma foldl_maybePush_keeps (Hpush : keepsAndAdds) xs :
  forall acc y, y ∈ acc \/ y ∈ xs -> y ∈ foldl maybePush acc xs.
Proof.
  induction xs as [|x xs IH]; intros acc y Hy; simpl.
  - destruct Hy as [Hy|Hy]; [exact Hy|inversion Hy].
  - apply IH. destruct Hy as [Hy|Hy].
    + left. now apply (proj2 (Hpush acc x)).
    + apply elem_of_cons in Hy as [->|Hy];
        [left; apply (proj1 (Hpush acc x))|now right].
Qed.

Lemma reduceTypesForSelection_keeps (Hpush : keepsAndAdds) s :
  forall acc y, y ∈ acc -> y ∈ reduceTypesForSelection acc s.
Proof.
  induction s as [n a d t|n a d t pts sels IH|t pts sels IH|n pts sels IH]
    using Selection_nested_ind; intros acc y Hy; simpl;
    try (now apply (proj2 (Hpush acc _))).
  assert (Hacc : y ∈ foldl maybePush acc (map GraphQLObject pts))
    by (apply foldl_maybePush_keeps; auto).
  revert Hacc. generalize (foldl maybePush acc (map GraphQLObject pts)).
  induction IH as [|s sels Hs Hsels IHsels]; intros acc' Hacc; simpl; [exact Hacc|].
  apply IHsels, Hs, Hacc.
Qed.

Lemma reduceTypesForDocument_possibleTypes (Hpush : keepsAndAdds) sel acc t :
  t ∈ SelectionSet.possibleTypes sel ->
  GraphQLObject t ∈ reduceTypesForDocument sel acc.
Proof.
  intros Ht. unfold reduceTypesForDocument.
  assert (Hacc : GraphQLObject t
                 ∈ foldl maybePush acc
                     (map GraphQLObject (SelectionSet.possibleTypes sel))).
  { apply foldl_maybePush_keeps; [exact Hpush|]. right. apply elem_of_map. eauto. }
  revert Hacc.
  generalize (foldl maybePush acc (map GraphQLObject (SelectionSet.possibleTypes sel))).
  induction (SelectionSet.selections sel) as [|s sels IH]; intros acc' Hacc; simpl;
    [exact Hacc|].
  apply IH. now apply reduceTypesForSelection_keeps.
Qed.

(** X3 -- [reduceTypesUsed] follows the fields of object types without
    remembering where it has been: for a document whose selection set has
    a possible type with a field of that same type (directly, as a list,
    or non-null), [getTypesUsedForOperation] never returns, whatever depth
    of recursion is allowed. *)
Theorem getTypesUsedForOperation_recursive_type_never_returns
    (doc : Document) (ctx : CompilerContext)
    (t : GraphQLObjectType) (key : string) (fieldType : GraphQLType) :
  keepsAndAdds ->
  t ∈ SelectionSet.possibleTypes (document_selectionSet doc) ->
  (key, fieldType) ∈ getFields (GraphQLObject t) ->
  unwrapOnce fieldType = GraphQLObject t ->
  forall fuel, getTypesUsedForOperation fuel doc ctx = None.
Proof.
  intros Hpush Ht Hfield Hunwrap fuel. unfold getTypesUsedForOperation.
  rewrite (reduceM_None _ _ (GraphQLObject t)); [reflexivity| |].
  - now apply reduceTypesForDocument_possibleTypes.
  - intros acc.
    eapply (reduceTypesUsed_self_reference (GraphQLObject t)); eauto.
Qed.

End TypesUsedFacts.

(** The operation [Version]: the type of its variable and the type of its
    field are reported, in the order of the catalogue. *)
Lemma getTypesUsedForOperation_sublist_witness :
  [GraphQLScalarType "ID"; GraphQLScalarType "String"]
    `sublist_of` [GraphQLScalarType "ID"; GraphQLScalarType "String"; userType].
Proof.
  exact (proj1 (@getTypesUsedForOperation_sublist UserCatalogue 4
                  (OperationDocument queryVersion) userContext
                  [GraphQLScalarType "ID"; GraphQLScalarType "String"] eq_refl)).
Defined.

(** A fragment on [User]: the stack overflows. *)
Lemma getTypesUsedForOperation_recursive_type_never_returns_witness :
  @getTypesUsedForOperation UserCatalogue 50
    (FragmentDocument
       (mkFragment "UserName"
          (mkSelectionSet [ObjectType "User"]
             [FieldSelection (mkField "name" None None (GraphQLScalarType "String") None)])
          "user.graphql"))
    userContext
  = None.
Proof.
  apply (@getTypesUsedForOperation_recursive_type_never_returns UserCatalogue
           _ userContext (ObjectType "User") "friends" (GraphQLList userType)).
  - intros l x. simpl. split.
    + destruct (bool_decide (x ∈ l)) eqn:E; [now apply bool_decide_eq_true in E|].
      apply elem_of_app. right. left.
    + intros y Hy. destruct (bool_decide (x ∈ l)); [exact Hy|].
      apply elem_of_app. now left.
  - left.
  - simpl. right. left.
  - reflexivity.
Defined.

(** ** The files [generateSource] returns *)

Section GeneratedFiles.
Context {core : CoreVisitors} {lang : Language}.

Lemma operationFile_run fuel ctx operation g file g' :
  betweenFiles ctx g ->
  Gen.bind fileHeader (fun _ =>
    Gen.bind (interfacesForOperation fuel operation) (fun _ =>
      Gen.bind printAndClear (fun output =>
        Gen.ret {| sourcePath := operation_filePath operation;
                   fileName := operationName operation +:+ ".ts";
                   content := mkFile output |}))) g = Done file g' ->
  betweenFiles ctx g' /\ operationFileOf fuel ctx operation file.
Proof.
  intros (Hctx & Hprinter & Hscope) Hrun. gen_inv.
  match goal with
  | H : interfacesForOperation _ _ ?g1 = Done ?u ?g2,
    Hp : printAndClear ?g2 = Done _ _ |- _ =>
      destruct u; pose proof (keeps_interfacesForOperation _ _ _ _ _ H) as Hk;
      unfold printAndClear in Hp; injection Hp as <- <-
  end.
  destruct Hk as [Hkc Hks _ _]. simpl in Hkc, Hks.
  split; [|split; [reflexivity|split; [reflexivity|]]].
  - repeat split; simpl; congruence.
  - do 2 eexists. split; [|split; [eassumption|simpl; now rewrite Hkc]].
    repeat split; simpl; rewrite ?Hprinter; try reflexivity; congruence.
Qed.

Lemma fragmentFile_run fuel ctx fragment g file g' :
  betweenFiles ctx g ->
  Gen.bind fileHeader (fun _ =>
    Gen.bind (interfacesForFragment fuel fragment) (fun _ =>
      Gen.bind printAndClear (fun output =>
        Gen.ret {| sourcePath := fragment_filePath fragment;
                   fileName := fragmentName fragment +:+ ".ts";
                   content := mkFile output |}))) g = Done file g' ->
  betweenFiles ctx g' /\ fragmentFileOf fuel ctx fragment file.
Proof.
  intros (Hctx & Hprinter & Hscope) Hrun. gen_inv.
  match goal with
  | H : interfacesForFragment _ _ ?g1 = Done ?u ?g2,
    Hp : printAndClear ?g2 = Done _ _ |- _ =>
      destruct u; pose proof (keeps_interfacesForFragment _ _ _ _ _ H) as Hk;
      unfold printAndClear in Hp; injection Hp as <- <-
  end.
  destruct Hk as [Hkc Hks _ _]. simpl in Hkc, Hks.
  split; [|split; [reflexivity|split; [reflexivity|]]].
  - repeat split; simpl; congruence.
  - do 2 eexists. split; [|split; [eassumption|simpl; now rewrite Hkc]].
    repeat split; simpl; rewrite ?Hprinter; try reflexivity; congruence.
Qed.

(** A loop that queues one printable per element. *)
Lemma enqueue_each {A} (f : A -> Printable) (xs : list A) g (ys : list unit) g' :
  Gen.mapM (fun x => enqueue (f x)) xs g = Done ys g' ->
  g' = mkGenerator (context g) (printer g ++ map f xs) (scopeStack g) (coreCalls g).
Proof.
  revert g ys g'. induction xs as [|x xs IH]; intros g ys g' Hrun; simpl in Hrun.
  - gen_inv. destruct g. simpl. now rewrite app_nil_r.
  - gen_inv.
    match goal with H : Gen.mapM _ _ _ = _ |- _ => apply IH in H; rewrite H end.
    simpl. now rewrite <- app_assoc.
Qed.

Lemma printEnumsAndInputObjects_queue typesUsed g g' :
  printEnumsAndInputObjects typesUsed g = Done tt g' ->
  context g' = context g
  /\ printer g' = printer g ++ enumsAndInputObjects typesUsed.
Proof.
  intros Hrun. unfold printEnumsAndInputObjects, typeAliasForEnumType,
    typeAliasForInputObjectType in Hrun.
  gen_inv.
  repeat match goal with
  | H : Gen.mapM _ _ _ = _ |- _ => apply enqueue_each in H; subst
  end.
  simpl. split; [reflexivity|].
  unfold enumsAndInputObjects. now rewrite <- !app_assoc.
Qed.

(** The two loops of [generateSource]. *)
Lemma generateSource_loops fuel ctx source g' :
  generateSource fuel ctx = Done source g' ->
  exists operationFiles fragmentFiles g2 g3,
    generatedFiles source = operationFiles ++ fragmentFiles
    /\ Forall2 (operationFileOf fuel ctx) (Object_values (operations ctx)) operationFiles
    /\ Forall2 (fragmentFileOf fuel ctx) (Object_values (fragments ctx)) fragmentFiles
    /\ betweenFiles ctx g2
    /\ printEnumsAndInputObjects (typesUsed ctx)
         (mkGenerator (context g2) (printer g2 ++ [fileHeaderText]) (scopeStack g2)
            (coreCalls g2)) = Done tt g3
    /\ common source = printQueue (options ctx) (printer g3).
Proof.
  intros Hrun. unfold generateSource, generateSourceM in Hrun. gen_inv.
  match goal with
  | Hops : Gen.mapM _ (Object_values (operations ctx)) _ = Done ?ofs ?g1,
    Hfrs : Gen.mapM _ (Object_values (fragments ctx)) ?g1 = Done ?ffs ?g2,
    Henum : printEnumsAndInputObjects _ _ = Done ?u ?g3,
    Hclear : printAndClear ?g3 = Done _ _ |- _ =>
      apply (mapM_Done _ (betweenFiles ctx) (operationFileOf fuel ctx)) in Hops;
        [destruct Hops as [Hb1 Hofs]
        |intros ? ? ? ? _ Hb Hx; exact (operationFile_run _ _ _ _ _ _ Hb Hx)
        |repeat split];
      apply (mapM_Done _ (betweenFiles ctx) (fragmentFileOf fuel ctx)) in Hfrs;
        [destruct Hfrs as [Hb2 Hffs]
        |intros ? ? ? ? _ Hb Hx; exact (fragmentFile_run _ _ _ _ _ _ Hb Hx)
        |exact Hb1];
      destruct u; pose proof (printEnumsAndInputObjects_queue _ _ _ Henum) as [Hc3 _];
      unfold printAndClear in Hclear; injection Hclear as <- <-;
      exists ofs, ffs, g2, g3
  end.
  destruct Hb2 as (Hc2 & Hp2 & Hs2). simpl in Hc3.
  repeat split; try assumption. simpl. now rewrite Hc3, Hc2.
Qed.

End GeneratedFiles.

(** X4 -- [generateSource] returns one file per operation, then one per
    fragment, in the order of [Object.values]: each is named after its
    document with the extension ".ts", carries the document's file path,
    and holds what the document's method queued starting from the file
    header alone and an empty scope stack, so that nothing of one document
    reaches the file of another. *)
Theorem generateSource_one_file_per_document
    {core : CoreVisitors} {lang : Language}
    (fuel : nat) (ctx : CompilerContext) (source : GeneratedSource) (g' : Generator) :
  generateSource fuel ctx = Done source g' ->
  exists operationFiles fragmentFiles,
    generatedFiles source = operationFiles ++ fragmentFiles
    /\ Forall2 (operationFileOf fuel ctx) (Object_values (operations ctx)) operationFiles
    /\ Forall2 (fragmentFileOf fuel ctx) (Object_values (fragments ctx)) fragmentFiles.
Proof.
  intros Hrun.
  destruct (generateSource_loops _ _ _ _ Hrun)
    as (ofs & ffs & g2 & g3 & Hfiles & Hofs & Hffs & _).
  exists ofs, ffs. auto.
Qed.

(** The document of the examples: three files, named after the operation
    and the two fragments. *)
Lemma generateSource_one_file_per_document_witness :
  exists source g',
    @generateSource SpecCore Examples.Underscore 3 Examples.documentContext
      = Done source g'
    /\ map fileName (generatedFiles source) = ["Q.ts"; "F.ts"; "F_Success.ts"].
Proof.
  destruct (@generateSource SpecCore Examples.Underscore 3 Examples.documentContext)
    as [source g'| |] eqn:Hrun; [|vm_compute in Hrun; discriminate..].
  exists source, g'. split; [reflexivity|].
  destruct (@generateSource_one_file_per_document SpecCore Examples.Underscore 3
              Examples.documentContext source g' Hrun)
    as (ofs & ffs & -> & Hofs & Hffs).
  simpl in Hofs, Hffs.
  repeat match goal with
  | H : Forall2 _ (_ :: _) _ |- _ =>
      apply Forall2_cons_inv_l in H as (? & ? & (_ & ? & _) & ? & ->)
  | H : Forall2 _ [] _ |- _ => apply Forall2_nil_inv_l in H as ->
  end.
  simpl. repeat f_equal; assumption.
Defined.

(** X5 -- The common output of [generateSource] is what the language
    layer, constructed with the options of the context, prints for the
    file header, the start banner, the declarations of all enum types of
    [context.typesUsed], then those of all its input object types, each
    group in the order of [typesUsed], and the end banner: types of any
    other kind add nothing, and neither do the operations and fragments
    of the context. *)
Theorem generateSource_common_output
    {core : CoreVisitors} {lang : Language}
    (fuel : nat) (ctx : CompilerContext) (source : GeneratedSource) (g' : Generator) :
  generateSource fuel ctx = Done source g' ->
  common source
  = printQueue (options ctx)
      (fileHeaderText :: enumsAndInputObjects (typesUsed ctx)).
Proof.
  intros Hrun.
  destruct (generateSource_loops _ _ _ _ Hrun)
    as (ofs & ffs & g2 & g3 & _ & _ & _ & (_ & Hprinter & _) & Henum & ->).
  apply printEnumsAndInputObjects_queue in Henum as [_ Henum]. rewrite Henum.
  simpl. now rewrite Hprinter.
Qed.

(** The document of the examples with an enum between two input objects
    in its catalogue. *)
Lemma generateSource_common_output_witness :
  exists source g',
    @generateSource SpecCore Examples.Underscore 3
      (mkContext (operations Examples.documentContext)
         (fragments Examples.documentContext)
         [GraphQLInputObjectType "Filter"; GraphQLScalarType "ID";
          GraphQLEnumType "Episode"; GraphQLInputObjectType "Page"]
         Examples.plainOptions)
      = Done source g'
    /\ common source
       = @printQueue Examples.Underscore Examples.plainOptions
           [fileHeaderText; Text ["//=============================================================="; "// START Enums and Input Objects"; "//=============================================================="];
            Tree (enumerationDeclaration (GraphQLEnumType "Episode"));
            Tree (inputObjectDeclaration (GraphQLInputObjectType "Filter"));
            Tree (inputObjectDeclaration (GraphQLInputObjectType "Page"));
            Text ["//=============================================================="; "// END Enums and Input Objects"; "//=============================================================="]].
Proof.
  match goal with
  | |- exists source g', ?run = _ /\ _ =>
      destruct run as [source g'| |] eqn:Hrun; [|vm_compute in Hrun; discriminate..]
  end.
  exists source, g'. split; [reflexivity|].
  rewrite (generateSource_common_output _ _ _ _ Hrun). reflexivity.
Defined.

(** ** What an exception leaves on the scope stack *)

Section Throws.
Context {core : CoreVisitors} {lang : Language}.

Lemma bind_Thrown {A B} (m : Gen.M A) (k : A -> Gen.M B) g e g' :
  Gen.bind m k g = Thrown e g' ->
  m g = Thrown e g' \/ exists a g1, m g = Done a g1 /\ k a g1 = Thrown e g'.
Proof.
  unfold Gen.bind. destruct (m g) as [a g1|e1 g1|]; [eauto|intros [= -> ->]; auto|discriminate].
Qed.

Lemma liftRes_Thrown {A} (r : Res A) e g g' :
  Gen.liftRes r g = Thrown e g' -> r = Throw e /\ g' = g.
Proof. destruct r; [discriminate|now intros [= -> ->]]. Qed.

Lemma throwsAbove_bind {A B} (m : Gen.M A) (k : A -> Gen.M B) :
  keeps m -> throwsAbove m -> (forall a, throwsAbove (k a)) ->
  throwsAbove (Gen.bind m k).
Proof.
  intros Hkeeps Hm Hk g e g' [H|(a & g1 & Ha & H)]%bind_Thrown.
  - eapply Hm, H.
  - rewrite <- (stable_scope _ _ (Hkeeps _ _ _ Ha)). eapply Hk, H.
Qed.

Lemma throwsAbove_mapM {A B} (f : A -> Gen.M B) (xs : list A) :
  (forall x, keeps (f x)) -> (forall x, throwsAbove (f x)) ->
  throwsAbove (Gen.mapM f xs).
Proof.
  intros Hkeeps Hf. induction xs as [|x xs IH]; simpl.
  - intros g e g' H. discriminate H.
  - apply throwsAbove_bind; [apply Hkeeps|apply Hf|intros y].
    apply throwsAbove_bind; [now apply keeps_mapM|exact IH|].
    intros ys g e g' H. discriminate H.
Qed.

(** A body entered with [name] pushed: an exception of the body leaves
    [name] on the stack. *)
Lemma pushed_Thrown {A} name (body : Gen.M A) g e g' :
  throwsAbove body ->
  Gen.bind (scopeStackPush name) (fun _ => body) g = Thrown e g' ->
  (scopeStack g ++ [name]) `prefix_of` scopeStack g'.
Proof.
  intros Hbody [H|(a & g1 & Ha & H)]%bind_Thrown; [discriminate H|].
  unfold scopeStackPush in Ha. apply modify_Done in Ha. subst g1.
  apply Hbody in H. exact H.
Qed.

Lemma throwsAbove_pushed {A} name (body : Gen.M A) :
  throwsAbove body ->
  throwsAbove (Gen.bind (scopeStackPush name) (fun _ => body)).
Proof.
  intros Hbody g e g' H. eapply prefix_app_l, pushed_Thrown; eassumption.
Qed.

Lemma throwsAbove_liftRes {A} (r : Res A) : throwsAbove (Gen.liftRes r).
Proof. intros g e g' [_ ->]%liftRes_Thrown. reflexivity. Qed.

Lemma throwsAbove_total {A} (m : Gen.M A) :
  (forall g, exists a g', m g = Done a g') -> throwsAbove m.
Proof. intros Hm g e g' H. destruct (Hm g) as (a & g1 & Ha). congruence. Qed.

Lemma keeps_total {A} (m : Gen.M A) (f : Generator -> A * Generator) :
  (forall g, m g = Done (f g).1 (f g).2) -> (forall g, stable g (f g).2) -> keeps m.
Proof. intros Hm Hf g a g' H. rewrite Hm in H. injection H as <- <-. apply Hf. Qed.

Lemma keeps_enqueue p : keeps (enqueue p).
Proof. intros g a g' H. gen_inv. apply stable_enqueue. Qed.

Lemma keeps_gets {A} (f : Generator -> A) : keeps (Gen.gets f).
Proof. intros g a g' H. gen_inv. apply stable_refl. Qed.

Lemma keeps_liftRes {A} (r : Res A) : keeps (Gen.liftRes r).
Proof. intros g a g' H. gen_inv. apply stable_refl. Qed.

Lemma keeps_recordCall c : keeps (recordCall c).
Proof. intros g a g' H. gen_inv. apply stable_recordCall. Qed.

Lemma throwsAbove_enqueue p : throwsAbove (enqueue p).
Proof. intros g e g' H. discriminate H. Qed.

Lemma throwsAbove_gets {A} (f : Generator -> A) : throwsAbove (Gen.gets f).
Proof. intros g e g' H. discriminate H. Qed.

Lemma throwsAbove_ret {A} (a : A) : throwsAbove (Gen.ret a).
Proof. intros g e g' H. discriminate H. Qed.

Lemma throwsAbove_recordCall c : throwsAbove (recordCall c).
Proof. intros g e g' H. discriminate H. Qed.

Lemma throwsAbove_getTypeCasesForSelectionSet sel :
  throwsAbove (getTypeCasesForSelectionSet sel).
Proof.
  unfold getTypeCasesForSelectionSet.
  apply throwsAbove_bind; [apply keeps_gets|apply throwsAbove_gets|intros flag].
  apply throwsAbove_bind;
    [apply keeps_recordCall|apply throwsAbove_recordCall|intros _].
  apply throwsAbove_liftRes.
Qed.

(** The end of a bracket: from the pop on nothing throws. *)
Lemma throwsAbove_pop_ret {A} (a : A) :
  throwsAbove (Gen.bind scopeStackPop (fun _ => Gen.ret a)).
Proof. intros g e g' H. discriminate H. Qed.

Lemma throwsAbove_handleFieldSelectionSetValue_variant gp variant :
  (forall v, keeps (gp v)) -> (forall v, throwsAbove (gp v)) ->
  throwsAbove (handleFieldSelectionSetValue_variant gp variant).
Proof.
  intros Hkeeps Hgp. unfold handleFieldSelectionSetValue_variant.
  apply throwsAbove_bind; [apply keeps_liftRes|apply throwsAbove_liftRes|intros name].
  apply throwsAbove_pushed.
  apply throwsAbove_bind; [apply Hkeeps|apply Hgp|intros properties].
  apply throwsAbove_bind; [apply keeps_gets|apply throwsAbove_gets|intros scope].
  apply throwsAbove_bind; [apply keeps_enqueue|apply throwsAbove_enqueue|intros _].
  apply throwsAbove_pop_ret.
Qed.

Lemma throwsAbove_handleFieldSelectionSetValue gp generatedIdentifier field :
  (forall v, keeps (gp v)) -> (forall v, throwsAbove (gp v)) ->
  throwsAbove (handleFieldSelectionSetValue gp generatedIdentifier field).
Proof.
  intros Hkeeps Hgp. unfold handleFieldSelectionSetValue.
  apply throwsAbove_bind.
  { destruct (Field.selectionSet field); intros g a g' H; gen_inv. apply stable_refl. }
  { destruct (Field.selectionSet field); intros g e g' H; [discriminate H|].
    injection H as _ <-. reflexivity. }
  intros selectionSet.
  apply throwsAbove_bind;
    [apply keeps_getTypeCasesForSelectionSet
    |apply throwsAbove_getTypeCasesForSelectionSet|intros typeCase].
  apply throwsAbove_bind.
  - destruct (Nat.eqb _ 1); intros g a g' H; gen_inv.
    + eapply Hkeeps; eassumption.
    + match goal with
      | H : Gen.mapM _ _ _ = _ |- _ => eapply keeps_mapM in H; [exact H|]
      end.
      intros variant. now apply keeps_handleFieldSelectionSetValue_variant.
  - destruct (Nat.eqb _ 1).
    + apply throwsAbove_bind; [apply Hkeeps|apply Hgp|intros properties].
      apply throwsAbove_bind; [apply keeps_gets|apply throwsAbove_gets|intros scope].
      apply throwsAbove_ret.
    + apply throwsAbove_bind.
      * apply keeps_mapM. intros variant.
        now apply keeps_handleFieldSelectionSetValue_variant.
      * apply throwsAbove_mapM; intros variant;
          [now apply keeps_handleFieldSelectionSetValue_variant
          |now apply throwsAbove_handleFieldSelectionSetValue_variant].
      * intros identifiers. apply throwsAbove_ret.
  - intros exportedTypeAlias.
    apply throwsAbove_bind; [apply keeps_enqueue|apply throwsAbove_enqueue|intros _].
    apply throwsAbove_ret.
Qed.

Lemma throwsAbove_getPropertiesForVariant_field gp variant field :
  (forall v, keeps (gp v)) -> (forall v, throwsAbove (gp v)) ->
  throwsAbove (getPropertiesForVariant_field gp variant field).
Proof.
  intros Hkeeps Hgp. unfold getPropertiesForVariant_field.
  apply throwsAbove_pushed.
  apply throwsAbove_bind.
  - destruct (Field.selectionSet field).
    + intros g a g' H. gen_inv.
      eapply keeps_handleFieldSelectionSetValue; [exact Hkeeps|eassumption].
    + apply keeps_liftRes.
  - destruct (Field.selectionSet field).
    + apply throwsAbove_bind; [apply keeps_gets|apply throwsAbove_gets|intros scope].
      now apply throwsAbove_handleFieldSelectionSetValue.
    + apply throwsAbove_liftRes.
  - intros res. apply throwsAbove_pop_ret.
Qed.

Lemma throwsAbove_getPropertiesForVariant fuel :
  forall variant, throwsAbove (getPropertiesForVariant fuel variant).
Proof.
  induction fuel as [|fuel IH]; intros variant; simpl.
  - intros g e g' H. discriminate H.
  - apply throwsAbove_bind; [apply keeps_gets|apply throwsAbove_gets|intros flag].
    apply throwsAbove_bind;
      [apply keeps_recordCall|apply throwsAbove_recordCall|intros _].
    apply throwsAbove_bind; [apply keeps_liftRes|apply throwsAbove_liftRes|intros fields].
    apply throwsAbove_mapM; intros field.
    + apply keeps_getPropertiesForVariant_field, keeps_getPropertiesForVariant.
    + apply throwsAbove_getPropertiesForVariant_field;
        [apply keeps_getPropertiesForVariant|exact IH].
Qed.

Lemma keeps_getVariantsForSelectionSet sel : keeps (getVariantsForSelectionSet sel).
Proof. intros g a g' H. gen_inv. apply stable_recordCall. Qed.

Lemma throwsAbove_getVariantsForSelectionSet sel :
  throwsAbove (getVariantsForSelectionSet sel).
Proof.
  unfold getVariantsForSelectionSet.
  apply throwsAbove_bind;
    [apply keeps_getTypeCasesForSelectionSet
    |apply throwsAbove_getTypeCasesForSelectionSet|intros typeCase].
  apply throwsAbove_ret.
Qed.

Lemma throwsAbove_interfacesForFragment_variant fuel variant :
  throwsAbove (interfacesForFragment_variant fuel variant).
Proof.
  unfold interfacesForFragment_variant.
  apply throwsAbove_bind; [apply keeps_liftRes|apply throwsAbove_liftRes|intros name].
  apply throwsAbove_pushed.
  apply throwsAbove_bind;
    [apply keeps_getPropertiesForVariant
    |apply throwsAbove_getPropertiesForVariant|intros properties].
  apply throwsAbove_bind; [apply keeps_gets|apply throwsAbove_gets|intros scope].
  apply throwsAbove_bind; [apply keeps_enqueue|apply throwsAbove_enqueue|intros _].
  apply throwsAbove_bind; [apply keeps_gets|apply throwsAbove_gets|intros scope'].
  apply throwsAbove_pop_ret.
Qed.

End Throws.

(** X6 -- [interfacesForOperation] has no handler between its push and its
    pop: when it throws (the core rejects the selection set or a merge of
    fields, or a variant is missing), the operation name it pushed is
    still on the scope stack, above everything that was there on entry,
    so the generator is not fit for another document. *)
Theorem interfacesForOperation_throw_leaves_scope
    {core : CoreVisitors} {lang : Language}
    (fuel : nat) (operation : Operation) (g : Generator) (e : Exn) (g' : Generator) :
  interfacesForOperation fuel operation g = Thrown e g' ->
  (scopeStack g ++ [operationName operation]) `prefix_of` scopeStack g'.
Proof.
  unfold interfacesForOperation. apply pushed_Thrown.
  apply throwsAbove_bind; [apply keeps_enqueue|apply throwsAbove_enqueue|intros _].
  apply throwsAbove_bind;
    [apply keeps_getVariantsForSelectionSet
    |apply throwsAbove_getVariantsForSelectionSet|intros variants].
  unfold interfacesForOperationFrom.
  apply throwsAbove_bind;
    [apply keeps_getPropertiesForVariant
    |apply throwsAbove_getPropertiesForVariant|intros properties].
  apply throwsAbove_bind; [apply keeps_enqueue|apply throwsAbove_enqueue|intros _].
  intros g0 e0 g0' H. unfold Gen.bind, scopeStackPop in H.
  destruct (Nat.ltb 0 _); discriminate H.
Qed.

(** The two selections of [a] below [result] do not merge: the exception
    finds the names of the operation and of the field on the stack. *)
Lemma interfacesForOperation_throw_leaves_scope_witness :
  exists g',
    @interfacesForOperation SpecCore Examples.Underscore 3 conflictingQuery
      (newGenerator Examples.documentContext)
    = Thrown (Error "FieldMergeConflict") g'
    /\ scopeStack g' = ["Q"; "result"]
    /\ ([] ++ ["Q"]) `prefix_of` scopeStack g'.
Proof.
  destruct (@interfacesForOperation SpecCore Examples.Underscore 3 conflictingQuery
              (newGenerator Examples.documentContext)) as [|e g'|] eqn:Hrun;
    [vm_compute in Hrun; discriminate| |vm_compute in Hrun; discriminate].
  assert (e = Error "FieldMergeConflict") as ->
    by (vm_compute in Hrun; now injection Hrun as <- _).
  exists g'. split; [reflexivity|]. split.
  - vm_compute in Hrun. now injection Hrun as <-.
  - exact (@interfacesForOperation_throw_leaves_scope SpecCore Examples.Underscore 3
             conflictingQuery (newGenerator Examples.documentContext) _ _ Hrun).
Defined.

(** X7 -- [interfacesForFragment] throws with the fragment name still on
    the scope stack, above everything that was there on entry: neither
    its own pop nor the pops of the variants and fields it was in are
    reached. *)
Theorem interfacesForFragment_throw_leaves_scope
    {core : CoreVisitors} {lang : Language}
    (fuel : nat) (fragment : Fragment) (g : Generator) (e : Exn) (g' : Generator) :
  interfacesForFragment fuel fragment g = Thrown e g' ->
  (scopeStack g ++ [fragmentName fragment]) `prefix_of` scopeStack g'.
Proof.
  unfold interfacesForFragment. apply pushed_Thrown.
  apply throwsAbove_bind; [apply keeps_enqueue|apply throwsAbove_enqueue|intros _].
  apply throwsAbove_bind;
    [apply keeps_getVariantsForSelectionSet
    |apply throwsAbove_getVariantsForSelectionSet|intros variants].
  apply throwsAbove_bind.
  - destruct (Nat.eqb _ 1); intros g0 a g0' H; gen_inv.
    + eapply stable_trans; [|apply stable_enqueue].
      eapply keeps_getPropertiesForVariant. eassumption.
    + eapply stable_trans; [|apply stable_enqueue].
      match goal with
      | H : Gen.mapM _ _ _ = _ |- _ => eapply keeps_mapM in H; [exact H|]
      end.
      intros variant. apply keeps_interfacesForFragment_variant.
  - destruct (Nat.eqb _ 1).
    + apply throwsAbove_bind;
        [apply keeps_getPropertiesForVariant
        |apply throwsAbove_getPropertiesForVariant|intros properties].
      apply throwsAbove_bind; [apply keeps_gets|apply throwsAbove_gets|intros scope].
      apply throwsAbove_enqueue.
    + apply throwsAbove_bind.
      * apply keeps_mapM. intros variant. apply keeps_interfacesForFragment_variant.
      * apply throwsAbove_mapM; intros variant;
          [apply keeps_interfacesForFragment_variant
          |apply throwsAbove_interfacesForFragment_variant].
      * intros members.
        apply throwsAbove_bind; [apply keeps_gets|apply throwsAbove_gets|intros scope].
        apply throwsAbove_enqueue.
  - intros _. apply throwsAbove_pop_ret.
Qed.

Lemma interfacesForFragment_throw_leaves_scope_witness :
  exists g',
    @interfacesForFragment SpecCore Examples.Underscore 3 conflictingFragment
      (newGenerator Examples.documentContext)
    = Thrown (Error "FieldMergeConflict") g'
    /\ scopeStack g' = ["F"; "result"]
    /\ ([] ++ ["F"]) `prefix_of` scopeStack g'.
Proof.
  destruct (@interfacesForFragment SpecCore Examples.Underscore 3 conflictingFragment
              (newGenerator Examples.documentContext)) as [|e g'|] eqn:Hrun;
    [vm_compute in Hrun; discriminate| |vm_compute in Hrun; discriminate].
  assert (e = Error "FieldMergeConflict") as ->
    by (vm_compute in Hrun; now injection Hrun as <- _).
  exists g'. split; [reflexivity|]. split.
  - vm_compute in Hrun. now injection Hrun as <-.
  - exact (@interfacesForFragment_throw_leaves_scope SpecCore Examples.Underscore 3
             conflictingFragment (newGenerator Examples.documentContext) _ _ Hrun).
Defined.

(** ** The properties of a variant and the types they refer to *)

Section Properties.
Context {core : CoreVisitors} {lang : Language}.

Lemma handleFieldValue_property field variant property :
  handleFieldValue field variant = Ok property ->
  property_name property = aliasOrName field
  /\ property_description property = Field.description field
  /\ (Field.name field <> "__typename" ->
      property_type property = typeFromGraphQLType (Field.type field) None)
  /\ (forall t id, property_type property <> typeFromGraphQLType t (Some id)).
Proof.
  unfold handleFieldValue. destruct (String.eqb_spec (Field.name field) "__typename").
  - destruct variant; [|discriminate]. intros [= <-]. simpl.
    repeat split; [contradiction|discriminate].
  - intros [= <-]. simpl. repeat split; discriminate.
Qed.

(** What [handleFieldSelectionSetValue] returns and queues last, when
    it is called with the name of the current scope. *)
Lemma handleFieldSelectionSetValue_declares gp field g property g' :
  (forall v, keeps (gp v)) ->
  handleFieldSelectionSetValue gp (nameFromScopeStack (scopeStack g)) field g
  = Done property g' ->
  property
  = {| property_name := aliasOrName field;
       property_description := Field.description field;
       property_type :=
         typeFromGraphQLType (Field.type field)
           (Some (nameFromScopeStack (scopeStack g))) |}
  /\ exists queued p,
       printer g' = printer g ++ queued ++ [p]
       /\ declaredName p = Some (nameFromScopeStack (scopeStack g)).
Proof.
  intros Hgp H. unfold handleFieldSelectionSetValue in H. gen_inv.
  split; [reflexivity|].
  destruct (Field.selectionSet field); gen_inv.
  destruct (Nat.eqb _ 1); gen_inv.
  - match goal with
    | H : gp _ _ = Done _ ?g1 |- _ =>
        apply Hgp in H; destruct H as [_ Hs [queued Hp] _]; simpl in Hs, Hp
    end.
    exists queued. eexists. simpl. rewrite Hp, <- app_assoc. split; [reflexivity|].
    simpl. now rewrite Hs.
  - match goal with
    | H : Gen.mapM _ _ _ = Done _ ?g1 |- _ =>
        apply keeps_mapM in H;
          [destruct H as [_ _ [queued Hp] _]; simpl in Hp
          |intros variant; now apply keeps_handleFieldSelectionSetValue_variant]
    end.
    exists queued. eexists. simpl. rewrite Hp, <- app_assoc. split; reflexivity.
Qed.

Lemma getPropertiesForVariant_field_property gp variant field g property g' :
  (forall v, keeps (gp v)) ->
  getPropertiesForVariant_field gp variant field g = Done property g' ->
  propertyOfField (scopeStack g) field property
  /\ forall t id,
       property_type property = typeFromGraphQLType t (Some id) ->
       exists queued p,
         printer g' = printer g ++ queued ++ [p] /\ declaredName p = Some id.
Proof.
  intros Hgp H. unfold getPropertiesForVariant_field in H. gen_inv.
  unfold propertyOfField.
  destruct (Field.selectionSet field) as [sel|] eqn:Hsel; gen_inv.
  - match goal with
    | H : handleFieldSelectionSetValue _ _ _ ?g1 = _ |- _ =>
        apply (handleFieldSelectionSetValue_declares gp field g1) in H;
          [destruct H as [-> (queued & p & Hp & Hd)]|exact Hgp]
    end.
    simpl in *. repeat split.
    intros t id [= _ <-]. exists queued, p. split; assumption.
  - match goal with
    | H : handleFieldValue _ _ = Ok _ |- _ =>
        apply handleFieldValue_property in H; destruct H as (Hn & Hd & Ht & Hno)
    end.
    repeat split; try assumption.
    intros t id Hty. now apply Hno in Hty.
Qed.

Lemma fields_properties gp variant :
  (forall v, keeps (gp v)) ->
  forall fields g properties g',
    Gen.mapM (getPropertiesForVariant_field gp variant) fields g = Done properties g' ->
    Forall2 (propertyOfField (scopeStack g)) fields properties
    /\ forall property t id,
         property ∈ properties ->
         property_type property = typeFromGraphQLType t (Some id) ->
         exists before p after,
           printer g' = printer g ++ before ++ p :: after
           /\ declaredName p = Some id.
Proof.
  intros Hgp. induction fields as [|field fields IH]; intros g properties g' H;
    simpl in H; gen_inv.
  - split; [constructor|]. intros property t id Hin. inversion Hin.
  - match goal with
    | Hf : getPropertiesForVariant_field _ _ _ g = Done ?y ?g1,
      Hrest : Gen.mapM _ _ ?g1 = Done ?ys _ |- _ =>
        pose proof (keeps_getPropertiesForVariant_field _ _ _ Hgp _ _ _ Hf)
          as [_ Hs1 [added1 Hp1] _];
        pose proof (keeps_mapM _ _
                      (fun f => keeps_getPropertiesForVariant_field gp variant f Hgp)
                      _ _ _ Hrest) as [_ _ [added2 Hp2] _];
        apply (getPropertiesForVariant_field_property _ _ _ _ _ _ Hgp) in Hf
          as [Hprop Hdecl];
        apply IH in Hrest as [Hall Hdecls]
    end.
    split.
    + constructor; [assumption|]. now rewrite <- Hs1.
    + intros property t id [->|Hin]%elem_of_cons Hty.
      * destruct (Hdecl _ _ Hty) as (queued & p & Hp & Hd).
        exists queued, p, added2. split; [|assumption].
        rewrite Hp2, Hp, <- !app_assoc. reflexivity.
      * destruct (Hdecls _ _ _ Hin Hty) as (before & p & after & Hp & Hd).
        exists (added1 ++ before), p, after. split; [|assumption].
        rewrite Hp, Hp1, <- !app_assoc. reflexivity.
Qed.

End Properties.



(** X9 -- Every type a property of a variant refers to by name is
    declared in the same call: when a property returned by
    [getPropertiesForVariant] is typed [typeFromGraphQLType t id], an
    exported interface or union alias called [id] is among the
    declarations the call added to the printer's queue. *)
Theorem getPropertiesForVariant_declares_referenced_types
    {core : CoreVisitors} {lang : Language}
    (fuel : nat) (variant : option Variant) (g g' : Generator)
    (properties : list ObjectProperty)
    (property : ObjectProperty) (t : GraphQLType) (id : string) :
  getPropertiesForVariant fuel variant g = Done properties g' ->
  property ∈ properties ->
  property_type property = typeFromGraphQLType t (Some id) ->
  exists before p after,
    printer g' = printer g ++ before ++ p :: after
    /\ declaredName p = Some id.
Proof.
  destruct fuel as [|fuel]; simpl; intros H Hin Hty; [discriminate|].
  gen_inv.
  match goal with
  | H : Gen.mapM _ _ _ = _ |- _ =>
      apply fields_properties in H;
        [destruct H as [_ H]|apply keeps_getPropertiesForVariant]
  end.
  eauto.
Qed.

(** The property [result] of the query [Q] refers to [Q_result], the
    union alias queued after the interfaces of its two variants. *)
Lemma getPropertiesForVariant_declares_referenced_types_witness :
  exists properties g' before after members,
    @getPropertiesForVariant SpecCore Examples.Underscore 3
      (Some (mkVariant [ObjectType "Query"]
               (SelectionSet.selections (operation_selectionSet Examples.queryQ))))
      (mkGenerator Examples.documentContext [] ["Q"] [])
    = Done properties g'
    /\ printer g'
       = before ++ Tree (exportDeclaration (typeAliasGenericUnion "Q_result" members))
                :: after.
Proof.
  destruct (@getPropertiesForVariant SpecCore Examples.Underscore 3
              (Some (mkVariant [ObjectType "Query"]
                       (SelectionSet.selections
                          (operation_selectionSet Examples.queryQ))))
              (mkGenerator Examples.documentContext [] ["Q"] []))
    as [properties g'| |] eqn:Hrun; [|vm_compute in Hrun; discriminate..].
  destruct (@getPropertiesForVariant_declares_referenced_types SpecCore
              Examples.Underscore _ _ _ _ properties
              (mkProperty "result" None
                 (typeFromGraphQLType (GraphQLUnionType "Result") (Some "Q_result")))
              (GraphQLUnionType "Result") "Q_result" Hrun)
    as (before & p & after & Hp & Hd).
  - vm_compute in Hrun. injection Hrun as <- _. left.
  - reflexivity.
  - exists properties, g', before, after.
    assert (exists members,
              p = Tree (exportDeclaration (typeAliasGenericUnion "Q_result" members)))
      as [members ->].
    { vm_compute in Hrun. injection Hrun as _ <-. simpl in Hp.
      repeat (destruct before as [|? before]; [injection Hp as <-; try discriminate Hd; eauto|injection Hp as <- Hp]).
      destruct before; discriminate Hp. }
    exists members. split; [reflexivity|exact Hp].
Defined.

(** ** The files [generate] writes and the number it returns *)

Section DriverFacts.
Context `{backends : Backends} {path : Path}.

Lemma bind_Returned {A B} (m : Run.M A) (k : A -> Run.M B) w b w' :
  Run.bind m k w = Run.Returned b w' ->
  exists a w1, m w = Run.Returned a w1 /\ k a w1 = Run.Returned b w'.
Proof. unfold Run.bind. destruct (m w) as [a w1|]; [eauto|discriminate]. Qed.

Lemma ret_Returned {A} (a b : A) w w' :
  Run.ret a w = Run.Returned b w' -> b = a /\ w' = w.
Proof. now intros [= -> ->]. Qed.

Lemma gets_Returned {A} (f : World -> A) a w w' :
  Run.gets f w = Run.Returned a w' -> a = f w /\ w' = w.
Proof. now intros [= <- <-]. Qed.

Lemma liftRes_Returned {A} (r : Res A) a w w' :
  Run.liftRes r w = Run.Returned a w' -> r = Ok a /\ w' = w.
Proof. destruct r; [now intros [= -> ->]|discriminate]. Qed.

Lemma advances_refl w : advances 0 0 w w.
Proof. split; [lia|]. exists []. now rewrite app_nil_r. Qed.

Lemma advances_trans a b c d w1 w2 w3 :
  advances a b w1 w2 -> advances c d w2 w3 -> advances (a + c) (b + d) w1 w3.
Proof.
  intros [Hn1 (e1 & He1 & Hw1)] [Hn2 (e2 & He2 & Hw2)]. split; [lia|].
  exists (e1 ++ e2). split; [now rewrite He2, He1, app_assoc|].
  rewrite List.filter_app, length_app. lia.
Qed.

Lemma writeFileSync_outcome p data w :
  events (Run.outcomeWorld (writeFileSync p data w))
  = events w ++ [EvWriteFileSync p data]
  /\ writtenFiles (Run.outcomeWorld (writeFileSync p data w)) = writtenFiles w.
Proof.
  unfold writeFileSync, record, setFs, Run.bind, Run.gets, Run.modify. simpl.
  destruct (fs_writeFileSync (fs w) p data); simpl; auto.
Qed.

Lemma writeFileSync_advances p data w a w' :
  writeFileSync p data w = Run.Returned a w' -> advances 1 0 w w'.
Proof.
  intros Hrun. pose proof (writeFileSync_outcome p data w) as [He Hn].
  rewrite Hrun in He, Hn. simpl in He, Hn. split; [lia|].
  exists [EvWriteFileSync p data]. auto.
Qed.

Lemma mkdirSync_advances p w a w' :
  mkdirSync p w = Run.Returned a w' -> advances 0 0 w w'.
Proof.
  unfold mkdirSync, record, setFs, Run.bind, Run.gets, Run.modify. simpl.
  destruct (fs_mkdirSync (fs w) p); simpl; [|discriminate].
  intros [= _ <-]. split; simpl; [lia|]. exists [EvMkdirSync p]. auto.
Qed.

Lemma record_advances ev w a w' :
  isWriteEvent ev = false -> record ev w = Run.Returned a w' -> advances 0 0 w w'.
Proof.
  intros Hev [= _ <-]. split; simpl; [lia|]. exists [ev]. simpl. now rewrite Hev.
Qed.

Lemma modify_advances f w a w' :
  (forall w, events (f w) = events w) ->
  (forall w, writtenFiles (f w) = writtenFiles w) ->
  Run.modify f w = Run.Returned a w' -> advances 0 0 w w'.
Proof.
  intros He Hn [= _ <-]. split; [rewrite Hn; lia|]. exists [].
  now rewrite He, app_nil_r.
Qed.

Lemma addWritten_advances n w a w' :
  addWritten n w = Run.Returned a w' -> advances 0 n w w'.
Proof.
  intros [= _ <-]. split; simpl; [lia|]. exists []. now rewrite app_nil_r.
Qed.

Lemma existsAndIsDirectory_Returned p w b w' :
  existsAndIsDirectory p w = Run.Returned b w' -> w' = w.
Proof.
  unfold existsAndIsDirectory, existsSync, isDirectory, Run.bind, Run.gets, Run.ret.
  destruct (fs_existsSync (fs w) p); [|now intros [= _ <-]].
  destruct (fs_isDirectory (fs w) p); simpl; [now intros [= _ <-]|discriminate].
Qed.

(** The loop of [writeGeneratedFiles]: the entries are written in order,
    and the first write that fails ends the loop after its call. *)
Lemma writeGeneratedFiles_outcome generatedFiles outputDirectory w :
  writtenFiles (Run.outcomeWorld (writeGeneratedFiles generatedFiles outputDirectory w))
  = writtenFiles w
  /\ exists n,
       n <= List.length generatedFiles
       /\ events (Run.outcomeWorld (writeGeneratedFiles generatedFiles outputDirectory w))
          = events w ++ writeEvents outputDirectory (take n generatedFiles)
       /\ match writeGeneratedFiles generatedFiles outputDirectory w with
          | Run.Returned _ _ => n = List.length generatedFiles
          | Run.Raised _ _ => 0 < n
          end.
Proof.
  unfold writeGeneratedFiles. revert w.
  induction generatedFiles as [|[fileName output] files IH]; intros w; simpl.
  - split; [reflexivity|]. exists 0. simpl. now rewrite app_nil_r.
  - pose proof (writeFileSync_outcome (path_join outputDirectory fileName) output w)
      as [He Hn].
    unfold Run.bind.
    destruct (writeFileSync (path_join outputDirectory fileName) output w)
      as [[] w1|e w1]; simpl in *.
    + destruct (IH w1) as [Hn1 (n & Hle & He1 & Hend)].
      split; [congruence|]. exists (S n). split; [lia|]. split.
      * rewrite He1, He, <- app_assoc. reflexivity.
      * destruct (Run.forEach _ files w1); lia.
    + split; [assumption|]. exists 1. split; [lia|]. split; [|lia].
      rewrite He. reflexivity.
Qed.

Lemma length_writeEvents dir files :
  List.length (List.filter isWriteEvent (writeEvents dir files)) = List.length files.
Proof.
  induction files as [|[n o] files IH]; simpl; [reflexivity|]. now rewrite IH.
Qed.

Lemma writeGeneratedFiles_advances files dir w a w' :
  writeGeneratedFiles files dir w = Run.Returned a w' ->
  advances (List.length files) 0 w w'.
Proof.
  intros Hrun. destruct (writeGeneratedFiles_outcome files dir w)
    as [Hn (n & _ & He & Hend)].
  rewrite Hrun in Hn, He, Hend. simpl in Hn, He. subst n.
  rewrite firstn_all in He. split; [lia|].
  exists (writeEvents dir files). split; [assumption|apply length_writeEvents].
Qed.

Lemma writeOperationIdsMap_advances ctx w a w' :
  writeOperationIdsMap ctx w = Run.Returned a w' -> advances 1 0 w w'.
Proof.
  unfold writeOperationIdsMap. destruct (operationIdsPath (options ctx));
    [apply writeFileSync_advances|discriminate].
Qed.

Lemma ensureOutputDirectory_advances p w a w' :
  ensureOutputDirectory p w = Run.Returned a w' -> advances 0 0 w w'.
Proof.
  unfold ensureOutputDirectory, existsSync.
  destruct (Nat.leb _ 1); [|intros [= _ <-]; apply advances_refl].
  unfold Run.bind at 1, Run.gets.
  destruct (fs_existsSync (fs w) p); [intros [= _ <-]; apply advances_refl|].
  apply mkdirSync_advances.
Qed.

(** The loop over the generated files next to their sources: it creates
    directories and writes nothing. *)
Lemma nextToSources_loop_advances outputPath common files :
  forall outFiles w outFiles' w',
    Run.foldM (fun outFiles file =>
                 let dir := path_join (path_dirname (sourcePath file)) outputPath in
                 Run.bind (existsSync dir) (fun e =>
                   Run.bind (if e : bool then Run.ret tt else mkdirSync dir) (fun _ =>
                     Run.ret (Object_set outFiles (path_join dir (fileName file))
                                (fileContents (content file) +:+ common)))))
              outFiles files w = Run.Returned outFiles' w' ->
    advances 0 0 w w'.
Proof.
  induction files as [|file files IH]; intros outFiles w outFiles' w' Hrun;
    simpl in Hrun.
  - injection Hrun as _ <-. apply advances_refl.
  - apply bind_Returned in Hrun as (acc & w1 & Hstep & Hrest).
    apply IH in Hrest.
    apply bind_Returned in Hstep as (e & w0 & He & Hstep).
    injection He as <- <-.
    apply bind_Returned in Hstep as ([] & w2 & Hmk & Hret).
    injection Hret as _ <-.
    change 0 with (0 + 0). eapply advances_trans; [|exact Hrest].
    destruct (fs_existsSync _ _);
      [injection Hmk as <-; apply advances_refl|eapply mkdirSync_advances, Hmk].
Qed.

End DriverFacts.

(** Split a hypothesis stating that a sequence of steps of [generate]
    returned, and record what every step added. *)
Ltac run_step :=
  match goal with
  | H : Run.bind _ _ _ = Run.Returned _ _ |- _ =>
      apply bind_Returned in H; destruct H as (? & ? & ? & H)
  | H : Run.ret _ _ = Run.Returned _ _ |- _ =>
      apply ret_Returned in H; destruct H as [? ?]; subst
  | H : Run.gets _ _ = Run.Returned _ _ |- _ =>
      apply gets_Returned in H; destruct H as [? ?]; subst
  | H : Run.modify ?f ?w = Run.Returned _ _ |- _ =>
      apply (modify_advances f w _ _ (fun _ => eq_refl) (fun _ => eq_refl)) in H
  | H : Run.liftRes _ _ = Run.Returned _ _ |- _ =>
      apply liftRes_Returned in H; destruct H as [H ?]; subst
  | H : existsAndIsDirectory _ _ = Run.Returned _ _ |- _ =>
      apply existsAndIsDirectory_Returned in H; subst
  | H : writeFileSync _ _ _ = Run.Returned _ _ |- _ =>
      apply writeFileSync_advances in H
  | H : addWritten _ _ = Run.Returned _ _ |- _ => apply addWritten_advances in H
  | H : writeGeneratedFiles _ _ _ = Run.Returned _ _ |- _ =>
      apply writeGeneratedFiles_advances in H
  | H : writeOperationIdsMap _ _ = Run.Returned _ _ |- _ =>
      apply writeOperationIdsMap_advances in H
  | H : ensureOutputDirectory _ _ = Run.Returned _ _ |- _ =>
      apply ensureOutputDirectory_advances in H
  | H : Run.foldM _ _ _ _ = Run.Returned _ _ |- _ =>
      apply nextToSources_loop_advances in H
  | H : consoleLog ?text ?w = Run.Returned _ _ |- _ =>
      apply (record_advances (EvConsoleLog text) w _ _ eq_refl) in H
  | H : record ?ev ?w = Run.Returned _ _ |- _ =>
      apply (record_advances ev w _ _ eq_refl) in H
  | H : callCompileToIR _ _ _ _ = Run.Returned _ _ |- _ =>
      unfold callCompileToIR in H
  | H : callCompileToLegacyIR _ _ _ _ = Run.Returned _ _ |- _ =>
      unfold callCompileToLegacyIR in H
  | H : emitSwift _ _ _ _ = Run.Returned _ _ |- _ => unfold emitSwift in H
  | H : emitFlowOrTypescript _ _ _ _ _ = Run.Returned _ _ |- _ =>
      unfold emitFlowOrTypescript in H
  | H : emitLegacy _ _ _ _ = Run.Returned _ _ |- _ => unfold emitLegacy in H
  | H : (if ?c then _ else _) _ = Run.Returned _ _ |- _ => destruct c eqn:?
  end.

Ltac run_inv := repeat run_step.

(** Chain the steps recorded by [run_inv]. *)
Ltac advances_chain :=
  repeat match goal with
  | H1 : advances _ _ ?w1 ?w2, H2 : advances _ _ ?w2 ?w3 |- _ =>
      pose proof (advances_trans _ _ _ _ _ _ _ H1 H2); clear H1 H2
  end.

(** X10 -- The number [generate] returns is the number of calls to
    [fs.writeFileSync] it made: whenever [generate] returns, for every
    target and every layout of the output, the result counts exactly the
    files written during the call (the directories it created and the
    text it logged are not counted, and two generated files with one
    output path are written and counted once). *)
Theorem generate_returns_number_of_writes
    `{backends : Backends} {path : Path}
    (inputPaths : list string) (schema : GraphQLSchema) (outputPath : string)
    (only : option string) (target : TargetType) (tagName : string)
    (nextToSources : bool) (w : World) (n : nat) (w' : World) :
  generate inputPaths schema outputPath only target tagName nextToSources w
  = Run.Returned n w' ->
  exists added,
    events w' = events w ++ added
    /\ n = List.length (List.filter isWriteEvent added).
Proof.
  intros Hrun. unfold generate in Hrun.
  apply bind_Returned in Hrun as ([] & w0 & Hreset & Hrun).
  injection Hreset as <-.
  apply bind_Returned in Hrun as (loaded & w1 & Hload & Hrun).
  injection Hload as <- <-.
  apply bind_Returned in Hrun as (document & w1 & Hdoc & Hrun).
  apply liftRes_Returned in Hdoc as [Hdoc ->].
  apply bind_Returned in Hrun as ([] & w1 & Hvalid & Hrun).
  apply liftRes_Returned in Hvalid as [Hvalid ->].
  apply bind_Returned in Hrun as ([] & w1 & Hdir & Hrun).
  apply ensureOutputDirectory_advances in Hdir.
  apply bind_Returned in Hrun as ([] & w2 & Hbranch & Hcount).
  injection Hcount as <- <-.
  destruct (decide (target = target_swift)); [|destruct (negb (isLegacyTarget target))];
    run_inv; advances_chain;
    match goal with
    | H : advances _ _ _ _ |- _ => destruct H as [Hn (added & He & Hw)]
    end;
    simpl in Hn, He; exists added; (split; [exact He|]);
    unfold Object_keys in *; rewrite ?length_map in *; lia.
Qed.

(** The TypeScript target into the new directory [out]: the directory is
    made and three files are written. *)
Lemma generate_returns_number_of_writes_witness :
  let run :=
    @generate Examples.MemoryFS Examples.PathCore Examples.TextBackends
      Examples.PosixPath ["q.graphql"] tt "out" None target_typescript "gql" false
      Examples.emptyWorld in
  run = Run.Returned 3 (Run.outcomeWorld run)
  /\ exists added,
       events (Run.outcomeWorld run) = events Examples.emptyWorld ++ added
       /\ 3 = List.length (List.filter isWriteEvent added).
Proof.
  intros run.
  assert (Hrun : run = Run.Returned 3 (Run.outcomeWorld run))
    by (vm_compute; reflexivity).
  split; [exact Hrun|].
  exact (@generate_returns_number_of_writes Examples.MemoryFS Examples.PathCore
           Examples.TextBackends Examples.PosixPath ["q.graphql"] tt "out" None
           target_typescript "gql" false Examples.emptyWorld 3
           (Run.outcomeWorld run) Hrun).
Defined.

(** X11 -- [writeGeneratedFiles] writes the entries in the order of
    [Object.entries], each to the path joined from the output directory
    and its file name, and leaves the counter alone.  When it returns,
    every entry was written; when a write fails, the loop ends with that
    call: the entries before it stay written and the ones after it are
    never tried. *)
Theorem writeGeneratedFiles_writes_in_order
    `{backends : Backends} {path : Path}
    (generatedFiles : list (string * string)) (outputDirectory : string) (w : World) :
  writtenFiles (Run.outcomeWorld (writeGeneratedFiles generatedFiles outputDirectory w))
  = writtenFiles w
  /\ exists n,
       n <= List.length generatedFiles
       /\ events (Run.outcomeWorld (writeGeneratedFiles generatedFiles outputDirectory w))
          = events w ++ writeEvents outputDirectory (take n generatedFiles)
       /\ match writeGeneratedFiles generatedFiles outputDirectory w with
          | Run.Returned _ _ => n = List.length generatedFiles
          | Run.Raised _ _ => 0 < n
          end.
Proof. apply writeGeneratedFiles_outcome. Qed.

(** ** Output paths with a dot *)

Lemma split_length_includes c s :
  Nat.leb (List.length (JS.split c s)) 1 = negb (includes c s).
Proof.
  unfold includes. induction s as [|a s IH]; simpl; [reflexivity|].
  rewrite (Ascii.eqb_sym c a). destruct (Ascii.eqb a c); simpl.
  - pose proof (split_nonempty c s). destruct (JS.split c s); [contradiction|reflexivity].
  - rewrite <- IH. pose proof (split_nonempty c s).
    destruct (JS.split c s); [contradiction|reflexivity].
Qed.

Lemma split_not_included c s : includes c s = false -> JS.split c s = [s].
Proof.
  unfold includes. induction s as [|a s IH]; simpl; [reflexivity|].
  rewrite (Ascii.eqb_sym c a). destruct (Ascii.eqb a c); simpl; [discriminate|].
  intros Hs. now rewrite (IH Hs).
Qed.

(** X12 -- Before compiling, [generate] creates the output path as a
    directory exactly when the path contains no dot and does not exist:
    any path with a dot in it, a relative one such as [./out] included,
    is taken for a file and left alone. *)
Theorem ensureOutputDirectory_only_dotless_missing_paths
    `{backends : Backends} {path : Path} (outputPath : string) (w : World) :
  ensureOutputDirectory outputPath w
  = if includes "." outputPath || fs_existsSync (fs w) outputPath
    then Run.Returned tt w
    else mkdirSync outputPath w.
Proof.
  unfold ensureOutputDirectory. rewrite split_length_includes.
  destruct (includes "." outputPath); simpl; [reflexivity|].
  unfold Run.bind, existsSync, Run.gets.
  destruct (fs_existsSync (fs w) outputPath); reflexivity.
Qed.

(** X13 -- [generate] reads [only] for the Swift target alone and
    [nextToSources] for the targets flow, typescript and ts alone: for
    every other target the call is the same whatever is passed for
    them. *)
Theorem generate_ignores_only_and_nextToSources
    `{backends : Backends} {path : Path}
    (inputPaths : list string) (schema : GraphQLSchema) (outputPath : string)
    (only only' : option string) (target : TargetType) (tagName : string)
    (nextToSources nextToSources' : bool) :
  (target <> target_swift ->
   generate inputPaths schema outputPath only target tagName nextToSources
   = generate inputPaths schema outputPath only' target tagName nextToSources)
  /\ (target = target_swift \/ isLegacyTarget target = true ->
      generate inputPaths schema outputPath only target tagName nextToSources
      = generate inputPaths schema outputPath only target tagName nextToSources').
Proof.
  split.
  - intros Hswift. unfold generate.
    destruct (decide (target = target_swift)); [contradiction|reflexivity].
  - intros [-> | Hlegacy]; unfold generate; [reflexivity|].
    destruct (decide (target = target_swift)); [reflexivity|].
    rewrite Hlegacy. reflexivity.
Qed.

Lemma generate_ignores_only_and_nextToSources_witness :
  @generate Examples.MemoryFS Examples.PathCore Examples.TextBackends
    Examples.PosixPath ["q.graphql"] tt "API.scala" (Some "q.graphql") target_scala
    "gql" true
  = @generate Examples.MemoryFS Examples.PathCore Examples.TextBackends
      Examples.PosixPath ["q.graphql"] tt "API.scala" None target_scala "gql" false.
Proof.
  destruct (@generate_ignores_only_and_nextToSources Examples.MemoryFS
              Examples.PathCore Examples.TextBackends Examples.PosixPath
              ["q.graphql"] tt "API.scala" (Some "q.graphql") None target_scala
              "gql" true false) as [Honly _].
  destruct (@generate_ignores_only_and_nextToSources Examples.MemoryFS
              Examples.PathCore Examples.TextBackends Examples.PosixPath
              ["q.graphql"] tt "API.scala" None None target_scala
              "gql" true false) as [_ Hnext].
  rewrite Honly; [|discriminate]. apply Hnext. right. reflexivity.
Defined.

(** ** The target the command runs with *)

Section CommandFacts.
Context `{Path}.

Lemma inferFromOutput_Ok output target :
  Command.inferFromOutput output = Ok target ->
  target ∈ ["json"; "swift"; "typescript"; "flow"; "scala"].
Proof.
  unfold Command.inferFromOutput. intros Hinf.
  apply switch_case_inv in Hinf as [Hd | (c & x & Hx & Heq & Hin)]; [discriminate|].
  set_unfold in Hin.
  destruct Hin as [Hin|[Hin|[Hin|[Hin|[Hin|[]]]]]];
    injection Hin as _ <-; rewrite !elem_of_cons; auto 10.
Qed.

Lemma inferTarget_Ok flags args target :
  Command.inferTarget flags args = Ok target ->
  (truthy_opt (Command.flag_target flags) = true
   /\ Command.flag_target flags = Some target
   /\ target ∈ Command.supportedTargets)
  \/ (truthy_opt (Command.flag_target flags) = false
      /\ truthy_opt (Command.arg_output args) = true
      /\ target ∈ ["json"; "swift"; "typescript"; "flow"; "scala"])
  \/ (truthy_opt (Command.flag_target flags) = false
      /\ truthy_opt (Command.arg_output args) = false
      /\ target = "").
Proof.
  unfold Command.inferTarget.
  destruct (truthy_opt (Command.flag_target flags)) eqn:Hflag.
  - destruct (Command.flag_target flags) as [t|]; [|discriminate]. simpl.
    destruct (bool_decide_reflect (t ∈ Command.supportedTargets)); [|discriminate].
    intros [= <-]. left. auto.
  - destruct (truthy_opt (Command.arg_output args)) eqn:Hout.
    + intros Hinf%inferFromOutput_Ok. right. left. auto.
    + intros [= <-]. right. right. auto.
Qed.

End CommandFacts.

(** X14 -- Whatever the flags and arguments are, the target the command
    builds its tasks with is one of json, swift, typescript, flow, scala,
    typescript-legacy and flow-legacy: the values ts and ts-legacy of
    [TargetType] and the empty initial value never reach [generate].  A
    [--target] that is given is the target, whatever the extension of the
    output is. *)
Theorem run_target_is_supported `{Path}
    (flags : Command.Flags) (args : Command.Args) (target : string) :
  Command.run_target flags args = Ok target ->
  target ∈ Command.supportedTargets
  /\ (truthy_opt (Command.flag_target flags) = true ->
      Command.flag_target flags = Some target).
Proof.
  unfold Command.run_target.
  destruct (Command.inferTarget flags args) as [t|e] eqn:Hinf; [|discriminate].
  apply inferTarget_Ok in Hinf
    as [(Hflag & Ht & Hin)|[(Hflag & Hout & Hin)|(Hflag & Hout & ->)]].
  - destruct (_ && _ && _); [discriminate|]. destruct (_ && _ && _); [discriminate|].
    intros [= <-]. auto.
  - destruct (_ && _ && _); [discriminate|]. destruct (_ && _ && _); [discriminate|].
    intros [= <-]. split; [|congruence].
    unfold Command.supportedTargets. set_unfold in Hin. set_unfold. tauto.
  - rewrite Hout. simpl. discriminate.
Qed.

(** [--target swift] with an output that ends in [.ts]. *)
Lemma run_target_is_supported_witness :
  @Command.run_target Examples.PosixPath
    (Command.mkFlags (Some "swift") None) (Command.mkArgs (Some "API.ts"))
  = Ok "swift"
  /\ "swift" ∈ Command.supportedTargets.
Proof.
  split; [reflexivity|].
  apply (@run_target_is_supported Examples.PosixPath
           (Command.mkFlags (Some "swift") None) (Command.mkArgs (Some "API.ts"))
           "swift").
  reflexivity.
Defined.

(** X15 -- Without an output argument (none, or the empty string) the
    command goes on exactly when [--target] is typescript or flow; every
    other target, and a missing target, stops it with an error. *)
Theorem run_target_without_output `{Path}
    (flags : Command.Flags) (args : Command.Args) (target : string) :
  truthy_opt (Command.arg_output args) = false ->
  (Command.run_target flags args = Ok target
   <-> Command.flag_target flags = Some target
       /\ (target = "typescript" \/ target = "flow")).
Proof.
  intros Hout. unfold Command.run_target. split.
  - destruct (Command.inferTarget flags args) as [t|e] eqn:Hinf; [|discriminate].
    rewrite Hout. simpl.
    destruct (String.eqb_spec t "typescript") as [->|Hts];
      [|destruct (String.eqb_spec t "flow") as [->|Hflow]]; simpl;
      rewrite ?andb_false_r; try discriminate; intros [= <-];
      (apply inferTarget_Ok in Hinf
         as [(Hflag & Ht & Hin)|[(Hflag & Hout' & Hin)|(Hflag & Hout' & ?)]];
       [auto|congruence|discriminate]).
  - destruct flags as [flagTarget [[|]|]], args as [[[|a output]|]];
      simpl in Hout; try discriminate Hout;
      intros [Hflag [-> | ->]]; simpl in Hflag; subst flagTarget; reflexivity.
Qed.

Lemma run_target_without_output_witness :
  @Command.run_target Examples.PosixPath
    (Command.mkFlags (Some "flow") None) (Command.mkArgs None) = Ok "flow"
  /\ @Command.run_target Examples.PosixPath
       (Command.mkFlags (Some "swift") None) (Command.mkArgs (Some ""))
     <> Ok "swift".
Proof.
  split.
  - apply (@run_target_without_output Examples.PosixPath
             (Command.mkFlags (Some "flow") None) (Command.mkArgs None) "flow");
      [reflexivity|]. split; [reflexivity|now right].
  - intros Hrun.
    apply (@run_target_without_output Examples.PosixPath
             (Command.mkFlags (Some "swift") None) (Command.mkArgs (Some "")) "swift")
      in Hrun; [|reflexivity].
    destruct Hrun as [_ [Hrun | Hrun]]; discriminate Hrun.
Defined.

(** X16 -- When the command goes on with the target typescript or flow
    and [--outputFlat] is not set, an output that is given is a single
    name: it is not absolute and contains no path separator. *)
Theorem run_target_single_directory `{Path}
    (flags : Command.Flags) (args : Command.Args) (target output : string) :
  Command.run_target flags args = Ok target ->
  target = "typescript" \/ target = "flow" ->
  truthy_bool (Command.flag_outputFlat flags) = false ->
  Command.arg_output args = Some output ->
  output <> "" ->
  path_isAbsolute output = false /\ includes path_sep output = false.
Proof.
  unfold Command.run_target. intros Hrun Htarget Hflat Hout Hne.
  destruct (Command.inferTarget flags args) as [t|e]; [|discriminate].
  destruct (_ && _ && _); [discriminate|].
  rewrite Hflat, Hout in Hrun. simpl in Hrun.
  destruct (_ && _) eqn:Hcheck in Hrun; [discriminate|]. injection Hrun as ->.
  assert (Hts : (String.eqb target "typescript" || String.eqb target "flow") = true)
    by (destruct Htarget as [-> | ->]; reflexivity).
  rewrite Hts in Hcheck. simpl in Hcheck.
  assert (Htruthy : truthy output = true) by (destruct output; [contradiction|reflexivity]).
  rewrite Htruthy in Hcheck. simpl in Hcheck.
  apply orb_false_elim in Hcheck as [Habs Hlen]. split; [exact Habs|].
  pose proof (split_length_includes path_sep output) as Hsplit.
  apply Nat.ltb_ge in Hlen. apply Nat.leb_le in Hlen. rewrite Hlen in Hsplit.
  now destruct (includes path_sep output).
Qed.

(** [--target typescript types]: the directory name [types] passes. *)
Lemma run_target_single_directory_witness :
  @path_isAbsolute Examples.PosixPath "types" = false
  /\ includes (@path_sep Examples.PosixPath) "types" = false.
Proof.
  apply (@run_target_single_directory Examples.PosixPath
           (Command.mkFlags (Some "typescript") None) (Command.mkArgs (Some "types"))
           "typescript" "types");
    [reflexivity|now left|reflexivity|reflexivity|discriminate].
Defined.

(** X17 -- The target is inferred from what follows the last dot of the
    output alone: everything up to that dot, other dots and directory
    names included, is ignored, so that an output path and its bare
    extension infer the same target or fail alike. *)
Theorem inferFromOutput_last_segment (base ext : string) :
  includes "." ext = false ->
  Command.inferFromOutput (base +:+ "." +:+ ext) = Command.inferFromOutput ext.
Proof.
  intros Hext. unfold Command.inferFromOutput.
  change (base +:+ "." +:+ ext) with (base +:+ String "." ext).
  rewrite split_app_sep, (split_not_included _ _ Hext), reverse_head_snoc.
  reflexivity.
Qed.

Lemma inferFromOutput_last_segment_witness :
  Command.inferFromOutput "src/api.v2/types.d.ts" = Ok "typescript".
Proof.
  change "src/api.v2/types.d.ts" with ("src/api.v2/types.d" +:+ "." +:+ "ts").
  rewrite (inferFromOutput_last_segment "src/api.v2/types.d" "ts"); reflexivity.
Defined.

(** ** A fragment without variants *)

(** X18 -- When the core returns no variant for the selection set of a
    fragment, [interfacesForFragment] needs no properties at all: with
    any recursion budget it returns, having queued the header and an
    exported union alias named after the fragment that has no member,
    and the scope stack is as before. *)
Theorem interfacesForFragment_without_variants
    {core : CoreVisitors} {lang : Language}
    (fuel : nat) (fragment : Fragment) (g : Generator) (typeCase : TypeCase) :
  typeCaseForSelectionSet (fragment_selectionSet fragment)
    (mergeInFieldsFromFragmentSpreads (options (context g))) = Ok typeCase ->
  exhaustiveVariants typeCase = [] ->
  interfacesForFragment fuel fragment g
  = Done tt
      {| context := context g;
         printer :=
           printer g ++
           [fragmentHeader fragment;
            Tree (exportDeclaration
                    (typeAliasGenericUnion
                       (nameFromScopeStack (scopeStack g ++ [fragmentName fragment]))
                       []))];
         scopeStack := scopeStack g;
         coreCalls :=
           coreCalls g ++
           [CallTypeCase (fragment_selectionSet fragment)
              (mergeInFieldsFromFragmentSpreads (options (context g)))] |}.
Proof.
  intros Hcase Hvariants.
  unfold interfacesForFragment, getVariantsForSelectionSet,
    getTypeCasesForSelectionSet, scopeStackPush, scopeStackPop, enqueue,
    recordCall, Gen.bind, Gen.gets, Gen.modify, Gen.ret.
  simpl. rewrite Hcase. simpl. rewrite Hvariants. simpl.
  rewrite removelast_last, <- app_assoc. reflexivity.
Qed.

(** A fragment on a selection set that no type can have. *)
Lemma interfacesForFragment_without_variants_witness :
  exists g',
    @interfacesForFragment SpecCore Examples.Underscore 0
      (mkFragment "Nothing" (mkSelectionSet [] []) "f.graphql")
      (newGenerator Examples.documentContext) = Done tt g'
    /\ omap declaredName (printer g') = ["Nothing"].
Proof.
  eexists. split.
  - apply (@interfacesForFragment_without_variants SpecCore Examples.Underscore 0
             (mkFragment "Nothing" (mkSelectionSet [] []) "f.graphql")
             (newGenerator Examples.documentContext) (mkTypeCase []));
      reflexivity.
  - reflexivity.
Defined.
